(** * Audio capture and transcription orchestration of the Natively assistant

    A shallow embedding of [electron/audio/MicrophoneCapture.ts] and of the
    audio pipeline methods of [AppState] in [electron/main.ts]
    ([setupSystemAudioPipeline], [reconfigureAudio], [startMeeting],
    [endMeeting], [processCompletedMeetingForRAG]), followed by the
    properties of the orchestration specification.

    JavaScript exceptions are results [Throw e]; mutation of [this] is
    explicit state passing; everything observable (console output, calls into
    the native module, emitted events, calls on collaborators) is appended to
    a trace. *)

From Stdlib Require Import List String ZArith Bool Lia.
From Stdlib Require Import Strings.Byte Floats.PrimFloat.
Import ListNotations.
Local Open Scope string_scope.
Local Open Scope list_scope.
Local Open Scope Z_scope.

(** ** Results, exceptions and the state/trace monad *)

Definition Err := string.

Inductive Res (A : Type) : Type :=
| Ok (a : A)
| Throw (e : Err).
Arguments Ok {A} a.
Arguments Throw {A} e.

Definition is_ok {A} (r : Res A) : bool :=
  match r with Ok _ => true | Throw _ => false end.

(** A computation over a mutable object [S] that may throw and that leaves a
    trace of effects [E]. State changes made before a throw persist, as in
    JavaScript. *)
Definition M (E S A : Type) : Type := S -> Res A * S * list E.

Definition ret {E S A} (a : A) : M E S A := fun s => (Ok a, s, []).

Definition bind {E S A B} (m : M E S A) (k : A -> M E S B) : M E S B :=
  fun s =>
    match m s with
    | (Ok a, s1, t1) =>
        match k a s1 with
        | (r, s2, t2) => (r, s2, t1 ++ t2)
        end
    | (Throw e, s1, t1) => (Throw e, s1, t1)
    end.

Definition throw {E S A} (e : Err) : M E S A := fun s => (Throw e, s, []).

(** [try { m } catch (e) { h e }] *)
Definition tryCatch {E S A} (m : M E S A) (h : Err -> M E S A) : M E S A :=
  fun s =>
    match m s with
    | (Ok a, s1, t1) => (Ok a, s1, t1)
    | (Throw e, s1, t1) =>
        match h e s1 with
        | (r, s2, t2) => (r, s2, t1 ++ t2)
        end
    end.

Definition get {E S} : M E S S := fun s => (Ok s, s, []).
Definition modify {E S} (f : S -> S) : M E S unit := fun s => (Ok tt, f s, []).
Definition tell {E S} (e : E) : M E S unit := fun s => (Ok tt, s, [e]).

(** The value of an external call whose outcome the environment decides. *)
Definition liftRes {E S A} (r : Res A) : M E S A := fun s => (r, s, []).

Notation "x <- m ;; k" := (bind m (fun x => k))
  (at level 61, m at next level, right associativity).
Notation "m ;; k" := (bind m (fun _ => k))
  (at level 61, right associativity).

Definition result {E S A} (o : Res A * S * list E) : Res A := fst (fst o).
Definition state {E S A} (o : Res A * S * list E) : S := snd (fst o).
Definition trace {E S A} (o : Res A * S * list E) : list E := snd o.

(** ** JavaScript values *)

Definition Buffer := list byte.

(** [x || null] and [x || undefined] on an optional string: the empty string
    is falsy. *)
Definition or_undefined (d : option string) : option string :=
  match d with
  | Some s => if String.eqb s "" then None else Some s
  | None => None
  end.

(** [n || 16000] on a number: zero is falsy. *)
Definition or_16000 (n : Z) : Z := if n =? 0 then 16000 else n.

Inductive Level := Info | Warn | Error.

(** ** EventEmitter *)

(** The two pipelines: system output and microphone. *)
Inductive Role := SystemAudio | Microphone.

(** The closures that [main.ts] registers on its handles. *)
Inductive Listener :=
| L_writeSTT (r : Role)      (* (chunk) => this.googleSTT?.write(chunk), or
                                (chunk) => this.googleSTT_User?.write(chunk) *)
| L_logError (tag : string)  (* (err) => console.error(tag, err) *)
| L_transcript_interviewer   (* main.ts 238-257 *)
| L_transcript_user.         (* main.ts 274-294 *)

(** The argument of a ['transcript'] event. *)
Record TranscriptEvent := {
  ev_text : string;
  ev_isFinal : bool;
  ev_confidence : float
}.

Inductive Payload :=
| PNone
| PChunk (chunk : Buffer)
| PError (e : Err)
| PTranscript (segment : TranscriptEvent).

Definition payload_err (p : Payload) : Err :=
  match p with PError e => e | _ => "ERR_UNHANDLED_ERROR" end.

(** Calls into the native capture object. *)
Inductive NativeCall :=
| NNew (deviceId : option string)
| NGetSampleRate
| NStart
| NStop.

(** What a transcription stream is asked to do. *)
Inductive SttCall :=
| SSetSampleRate (rate : Z)
| SWrite (configuredRate : Z) (chunk : Buffer)
| SStart
| SStop.

(** What happens inside a handle. *)
Inductive HEffect :=
| HLog (l : Level) (msg : string)
| HNative (c : NativeCall)
| HStt (c : SttCall)
| HOn (name : string) (l : Listener)
| HEmit (name : string) (p : Payload)
| HInvoke (l : Listener) (p : Payload).

Class EventEmitter (S : Type) := {
  listeners : S -> list (string * Listener);
  with_listeners : list (string * Listener) -> S -> S
}.

Definition listenersFor (name : string) (ls : list (string * Listener))
  : list Listener :=
  map snd (filter (fun nl => String.eqb (fst nl) name) ls).

Definition listenerCount {S} `{EventEmitter S} (name : string) (s : S) : nat :=
  List.length (listenersFor name (listeners s)).

(** [emitter.on(name, l)] *)
Definition on {S} `{EventEmitter S} (name : string) (l : Listener)
  : M HEffect S unit :=
  fun s => (Ok tt, with_listeners (listeners s ++ [(name, l)]) s, [HOn name l]).

(** [emitter.emit(name, p)]: the listeners registered for [name] are called
    in registration order; Node throws the error when ['error'] is emitted
    and no listener is registered for it. *)
Definition emit {S} `{EventEmitter S} (name : string) (p : Payload)
  : M HEffect S bool :=
  fun s =>
    match listenersFor name (listeners s) with
    | [] =>
        if String.eqb name "error"
        then (Throw (payload_err p), s, [HEmit name p])
        else (Ok false, s, [HEmit name p])
    | ls => (Ok true, s, HEmit name p :: map (fun l => HInvoke l p) ls)
    end.

Definition console {S} (l : Level) (msg : string) : M HEffect S unit :=
  tell (HLog l msg).

(** ** The native capture capability *)

(** An object of the Rust module: opaque, each method returns or throws. *)
Record Monitor := {
  mon_getSampleRate : Res Z;
  mon_start : Res unit;
  mon_stop : Res unit
}.

(** [NativeModule.MicrophoneCapture]: absent when the module failed to load,
    otherwise a constructor that returns a monitor or throws. *)
Definition NativeClass := option (option string -> Res Monitor).

Definition native {S A} (c : NativeCall) (r : Res A) : M HEffect S A :=
  tell (HNative c) ;; liftRes r.

(** ** MicrophoneCapture.ts *)

Module MicrophoneCapture.

Record t := {
  monitor : option Monitor;
  isRecording : bool;
  deviceId : option string;
  emitter : list (string * Listener)
}.

Definition set_monitor (m : option Monitor) (h : t) : t :=
  {| monitor := m; isRecording := isRecording h;
     deviceId := deviceId h; emitter := emitter h |}.

Definition set_isRecording (b : bool) (h : t) : t :=
  {| monitor := monitor h; isRecording := b;
     deviceId := deviceId h; emitter := emitter h |}.

#[global] Instance eventEmitter : EventEmitter t := {|
  listeners := emitter;
  with_listeners := fun ls h =>
    {| monitor := monitor h; isRecording := isRecording h;
       deviceId := deviceId h; emitter := ls |}
|}.

(** [constructor(deviceId?)] *)
Definition new (RustMicCapture : NativeClass) (dev : option string)
  : Res t * list HEffect :=
  let d := or_undefined dev in
  match RustMicCapture with
  | None =>
      (Ok {| monitor := None; isRecording := false;
             deviceId := d; emitter := [] |},
       [HLog Error "[MicrophoneCapture] Rust class implementation not found."])
  | Some ctor =>
      let t0 := [HLog Info "[MicrophoneCapture] Initialized with device:";
                 HNative (NNew d)] in
      match ctor d with
      | Ok m =>
          (Ok {| monitor := Some m; isRecording := false;
                 deviceId := d; emitter := [] |}, t0)
      | Throw e => (Throw e, t0)
      end
  end.

(** [getSampleRate()]: [this.monitor?.getSampleRate() || 16000] *)
Definition getSampleRate : M HEffect t Z :=
  h <- get ;;
  match monitor h with
  | None => ret 16000
  | Some m =>
      r <- native NGetSampleRate (mon_getSampleRate m) ;;
      ret (or_16000 r)
  end.

(** The callback handed to [monitor.start]. *)
Definition onChunk (chunk : option Buffer) : M HEffect t unit :=
  match chunk with
  | Some c =>
      if (0 <? Z.of_nat (List.length c))
      then (_ <- emit "data" (PChunk c) ;; ret tt)
      else ret tt
  | None => ret tt
  end.

Definition start : M HEffect t unit :=
  h <- get ;;
  if isRecording h then ret tt
  else
    match monitor h with
    | None => console Error "[MicrophoneCapture] Monitor not initialized"
    | Some m =>
        tryCatch
          (console Info "[MicrophoneCapture] Starting native capture..." ;;
           native NStart (mon_start m) ;;
           modify (set_isRecording true) ;;
           _ <- emit "start" PNone ;;
           ret tt)
          (fun error =>
             console Error "[MicrophoneCapture] Failed to start:" ;;
             _ <- emit "error" (PError error) ;;
             ret tt)
    end.

Definition stop : M HEffect t unit :=
  h <- get ;;
  if negb (isRecording h) then ret tt
  else
    console Info "[MicrophoneCapture] Stopping capture..." ;;
    tryCatch
      (match monitor h with
       | Some m => native NStop (mon_stop m)
       | None => ret tt
       end)
      (fun e => console Error "[MicrophoneCapture] Error stopping:") ;;
    modify (set_monitor None) ;;
    modify (set_isRecording false) ;;
    _ <- emit "stop" PNone ;;
    ret tt.

End MicrophoneCapture.

(** ** SystemAudioCapture and GoogleSTT *)

Module SystemAudioCapture.

(** Modelled from the spec: the fields of the missing class
    SystemAudioCapture, a CaptureSource handle (device, underlying capture
    capability if it could be initialized, idle or capturing) that is also
    an event emitter. *)
Record t := {
  monitor : option Monitor;
  active : bool;
  deviceId : option string;
  emitter : list (string * Listener)
}.

Definition set_active (b : bool) (h : t) : t :=
  {| monitor := monitor h; active := b;
     deviceId := deviceId h; emitter := emitter h |}.

#[global] Instance eventEmitter : EventEmitter t := {|
  listeners := emitter;
  with_listeners := fun ls h =>
    {| monitor := monitor h; active := active h;
       deviceId := deviceId h; emitter := ls |}
|}.

(** Modelled from the spec: the class SystemAudioCapture
    (audio/SystemAudioCapture.ts is missing), built by the capture
    capability [new(role, deviceId?) -> handle]; construction may fail, and
    a handle may exist although it failed to initialize. *)
Definition new (ctor : option string -> Res (option Monitor))
    (dev : option string) : Res t * list HEffect :=
  match ctor dev with
  | Ok m =>
      (Ok {| monitor := m; active := false; deviceId := dev; emitter := [] |},
       [HNative (NNew dev)])
  | Throw e => (Throw e, [HNative (NNew dev)])
  end.

(** Modelled from the spec: [getSampleRateHz()] of the missing
    SystemAudioCapture: the active rate, or the fixed fallback 16000 when
    the handle failed to initialize; never an exception. *)
Definition getSampleRate : M HEffect t Z :=
  h <- get ;;
  match monitor h with
  | Some m =>
      match mon_getSampleRate m with
      | Ok r => ret r
      | Throw _ => ret 16000
      end
  | None => ret 16000
  end.

(** Modelled from the spec: [start()] of the missing SystemAudioCapture:
    a no-op while active; on success the handle becomes active; on
    underlying failure an error event is emitted, the state is unchanged
    and nothing is raised. *)
Definition start : M HEffect t unit :=
  h <- get ;;
  if active h then ret tt
  else
    match monitor h with
    | Some m =>
        tryCatch
          (native NStart (mon_start m) ;; modify (set_active true))
          (fun e => tryCatch (_ <- emit "error" (PError e) ;; ret tt)
                             (fun _ => ret tt))
    | None =>
        tryCatch (_ <- emit "error" (PError "not initialized") ;; ret tt)
                 (fun _ => ret tt)
    end.

(** Modelled from the spec: [stop()] of the missing SystemAudioCapture:
    a no-op while inactive; otherwise the underlying resource is released,
    an exception of the release is caught and logged, and the handle
    becomes inactive. *)
Definition stop : M HEffect t unit :=
  h <- get ;;
  if negb (active h) then ret tt
  else
    tryCatch
      (match monitor h with
       | Some m => native NStop (mon_stop m)
       | None => ret tt
       end)
      (fun e => console Error "[SystemAudioCapture] Error stopping:") ;;
    modify (set_active false).

(** Modelled from the spec: the missing SystemAudioCapture emits the raw
    chunks of the capability as ['data'] events. *)
Definition onChunk (chunk : Buffer) : M HEffect t unit :=
  _ <- emit "data" (PChunk chunk) ;; ret tt.

End SystemAudioCapture.

Module GoogleSTT.

(** Modelled from the spec: the states of a TranscriptionStream. *)
Inductive State := Idle | Listening | Closed.

(** Modelled from the spec: the fields of the missing class GoogleSTT, a
    TranscriptionStream handle (configured sample rate, state) that is also
    an event emitter. *)
Record t := {
  sampleRate : Z;
  st : State;
  emitter : list (string * Listener)
}.

Definition set_sampleRate (n : Z) (h : t) : t :=
  {| sampleRate := n; st := st h; emitter := emitter h |}.

Definition set_st (x : State) (h : t) : t :=
  {| sampleRate := sampleRate h; st := x; emitter := emitter h |}.

#[global] Instance eventEmitter : EventEmitter t := {|
  listeners := emitter;
  with_listeners := fun ls h =>
    {| sampleRate := sampleRate h; st := st h; emitter := ls |}
|}.

(** Modelled from the spec: the class GoogleSTT (audio/GoogleSTT.ts is
    missing), the transcription capability [new() -> handle]; construction
    may fail; the rate starts at the fallback default. *)
Definition new (ctor : Res unit) : Res t * list HEffect :=
  match ctor with
  | Ok _ => (Ok {| sampleRate := 16000; st := Idle; emitter := [] |}, [])
  | Throw e => (Throw e, [])
  end.

(** Modelled from the spec: [setSampleRateHz(n)] of the missing GoogleSTT
    sets the configured rate of the stream. *)
Definition setSampleRate (n : Z) : M HEffect t unit :=
  tell (HStt (SSetSampleRate n)) ;; modify (set_sampleRate n).

(** Modelled from the spec: [write(bytes)] of the missing GoogleSTT
    consumes an audio chunk, at the rate configured at that moment. *)
Definition write (chunk : Buffer) : M HEffect t unit :=
  h <- get ;; tell (HStt (SWrite (sampleRate h) chunk)).

(** Modelled from the spec: [start()] of the missing GoogleSTT: a no-op
    while active, otherwise the stream starts listening. *)
Definition start : M HEffect t unit :=
  h <- get ;;
  match st h with
  | Listening => ret tt
  | _ => tell (HStt SStart) ;; modify (set_st Listening)
  end.

(** Modelled from the spec: [stop()] of the missing GoogleSTT: a no-op
    while inactive, otherwise the stream is closed. *)
Definition stop : M HEffect t unit :=
  h <- get ;;
  match st h with
  | Listening => tell (HStt SStop) ;; modify (set_st Closed)
  | _ => ret tt
  end.

(** Modelled from the spec: the missing GoogleSTT emits each result of the
    transcription capability as a ['transcript'] event. *)
Definition onResult (segment : TranscriptEvent) : M HEffect t unit :=
  _ <- emit "transcript" (PTranscript segment) ;; ret tt.

End GoogleSTT.

(** ** main.ts: the state of [AppState] and its collaborators *)

Inductive Speaker := interviewer | user.

(** The object handed to [handleTranscript] and sent to the windows. *)
Record Segment := {
  speaker : Speaker;
  text : string;
  timestamp : Z;
  final : bool;
  confidence : float
}.

Definition BrowserWindow := nat.

(** What the window helper returns: a window, or null. *)
Record WindowHelper := {
  getLauncherWindow : option BrowserWindow;
  getOverlayWindow : option BrowserWindow
}.

(** Modelled from the spec: a row of a stored transcript is a
    TranscriptSegment (speaker, text, timestamp, final flag, confidence);
    the storage collaborator that declares it is missing, and [main.ts]
    reads its speaker, text and timestamp. *)
Record StoredRow := {
  stored_speaker : string;
  stored_text : string;
  stored_timestamp : Z;
  stored_final : bool;
  stored_confidence : float
}.

(** The object that [processCompletedMeetingForRAG] builds from a stored
    row and hands to the RAG manager. *)
Record TranscriptRow := {
  row_speaker : string;
  row_text : string;
  row_timestamp : Z
}.

Record DetailedSummary := {
  keyPoints : option (list string);
  actionItems : option (list string)
}.

Record Meeting := {
  meeting_id : string;
  transcript : option (list StoredRow);
  detailedSummary : option DetailedSummary
}.

Record AudioPreferences := {
  inputDeviceId : option string;
  outputDeviceId : option string
}.

Record Metadata := {
  title : option string;
  audio : option AudioPreferences
}.

Inductive RAGManager := TheRAGManager.

Inductive Effect :=
| ELog (l : Level) (msg : string)
| ECapture (r : Role) (e : HEffect)
| EStt (r : Role) (e : HEffect)
| EHandleTranscript (s : Segment)
| ESend (w : BrowserWindow) (channel : string) (s : Segment)
| ESetMeetingMetadata (m : Metadata)
| EStopMeeting
| EGetRecentMeetings (n : Z)
| EGetMeetingDetails (id : string)
| EProcessMeeting (id : string) (segments : list TranscriptRow)
                  (summary : option string).

(** Everything outside the orchestrator whose outcome it cannot choose. *)
Record Env := {
  RustMicCapture : NativeClass;
  SystemAudioCapture_ctor : option string -> Res (option Monitor);
  GoogleSTT_ctor : Role -> Res unit;
  Date_now : nat -> Z;
  intelligence_stopMeeting : Res unit;
  db_getRecentMeetings : Z -> Res (list Meeting);
  db_getMeetingDetails : string -> Res (option Meeting);
  rag_processMeeting :
    string -> list TranscriptRow -> option string -> Res Z
}.

Record AppState := {
  systemAudioCapture : option SystemAudioCapture.t;
  microphoneCapture : option MicrophoneCapture.t;
  googleSTT : option GoogleSTT.t;
  googleSTT_User : option GoogleSTT.t;
  ragManager : option RAGManager;
  windowHelper : WindowHelper;
  clockReads : nat
}.

Definition set_systemAudioCapture (v : option SystemAudioCapture.t)
    (w : AppState) : AppState :=
  {| systemAudioCapture := v; microphoneCapture := microphoneCapture w;
     googleSTT := googleSTT w; googleSTT_User := googleSTT_User w;
     ragManager := ragManager w; windowHelper := windowHelper w;
     clockReads := clockReads w |}.

Definition set_microphoneCapture (v : option MicrophoneCapture.t)
    (w : AppState) : AppState :=
  {| systemAudioCapture := systemAudioCapture w; microphoneCapture := v;
     googleSTT := googleSTT w; googleSTT_User := googleSTT_User w;
     ragManager := ragManager w; windowHelper := windowHelper w;
     clockReads := clockReads w |}.

Definition set_googleSTT (v : option GoogleSTT.t) (w : AppState) : AppState :=
  {| systemAudioCapture := systemAudioCapture w;
     microphoneCapture := microphoneCapture w;
     googleSTT := v; googleSTT_User := googleSTT_User w;
     ragManager := ragManager w; windowHelper := windowHelper w;
     clockReads := clockReads w |}.

Definition set_googleSTT_User (v : option GoogleSTT.t) (w : AppState)
  : AppState :=
  {| systemAudioCapture := systemAudioCapture w;
     microphoneCapture := microphoneCapture w;
     googleSTT := googleSTT w; googleSTT_User := v;
     ragManager := ragManager w; windowHelper := windowHelper w;
     clockReads := clockReads w |}.

Definition tick (w : AppState) : AppState :=
  {| systemAudioCapture := systemAudioCapture w;
     microphoneCapture := microphoneCapture w;
     googleSTT := googleSTT w; googleSTT_User := googleSTT_User w;
     ragManager := ragManager w; windowHelper := windowHelper w;
     clockReads := S (clockReads w) |}.

(** A field of [AppState] that holds a handle or null. *)
Record Field (H : Type) := {
  fget : AppState -> option H;
  fset : option H -> AppState -> AppState;
  fwrap : HEffect -> Effect
}.
Arguments fget {H} f w.
Arguments fset {H} f v w.
Arguments fwrap {H} f e.

Definition F_systemAudioCapture : Field SystemAudioCapture.t :=
  {| fget := systemAudioCapture; fset := set_systemAudioCapture;
     fwrap := ECapture SystemAudio |}.

Definition F_microphoneCapture : Field MicrophoneCapture.t :=
  {| fget := microphoneCapture; fset := set_microphoneCapture;
     fwrap := ECapture Microphone |}.

(** [googleSTT] serves the system audio, [googleSTT_User] the microphone. *)
Definition F_stt (r : Role) : Field GoogleSTT.t :=
  match r with
  | SystemAudio =>
      {| fget := googleSTT; fset := set_googleSTT; fwrap := EStt SystemAudio |}
  | Microphone =>
      {| fget := googleSTT_User; fset := set_googleSTT_User;
         fwrap := EStt Microphone |}
  end.

Definition log (l : Level) (msg : string) : M Effect AppState unit :=
  tell (ELog l msg).

(** [Date.now()] *)
Definition now (env : Env) : M Effect AppState Z :=
  w <- get ;; modify tick ;; ret (Date_now env (clockReads w)).

(** [win?.webContents.send(channel, payload)] *)
Definition send (win : option BrowserWindow) (channel : string)
    (payload : Segment) : M Effect AppState unit :=
  match win with
  | Some b => tell (ESend b channel payload)
  | None => ret tt
  end.

(** The ['transcript'] listener of [googleSTT] (main.ts 238-257). *)
Definition onTranscript_interviewer (env : Env) (segment : TranscriptEvent)
  : M Effect AppState unit :=
  t1 <- now env ;;
  tell (EHandleTranscript
          {| speaker := interviewer; text := ev_text segment;
             timestamp := t1; final := ev_isFinal segment;
             confidence := ev_confidence segment |}) ;;
  w <- get ;;
  let helper := windowHelper w in
  t2 <- now env ;;
  let payload :=
    {| speaker := interviewer; text := ev_text segment;
       timestamp := t2; final := ev_isFinal segment;
       confidence := ev_confidence segment |} in
  send (getLauncherWindow helper) "native-audio-transcript" payload ;;
  send (getOverlayWindow helper) "native-audio-transcript" payload.

(** The ['transcript'] listener of [googleSTT_User] (main.ts 274-294). *)
Definition onTranscript_user (env : Env) (segment : TranscriptEvent)
  : M Effect AppState unit :=
  t1 <- now env ;;
  tell (EHandleTranscript
          {| speaker := user; text := ev_text segment;
             timestamp := t1; final := ev_isFinal segment;
             confidence := ev_confidence segment |}) ;;
  w <- get ;;
  let helper := windowHelper w in
  t2 <- now env ;;
  let payload :=
    {| speaker := user; text := ev_text segment;
       timestamp := t2; final := ev_isFinal segment;
       confidence := ev_confidence segment |} in
  send (getLauncherWindow helper) "native-audio-transcript" payload ;;
  send (getOverlayWindow helper) "native-audio-transcript" payload.

(** [this.googleSTT?.write(chunk)] and [this.googleSTT_User?.write(chunk)] *)
Definition writeSTT (r : Role) (chunk : Buffer) : M Effect AppState unit :=
  fun w =>
    match fget (F_stt r) w with
    | None => (Ok tt, w, [])
    | Some s =>
        match GoogleSTT.write chunk s with
        | (res, s', es) =>
            (res, fset (F_stt r) (Some s') w, map (fwrap (F_stt r)) es)
        end
    end.

(** The body of a registered closure, run when the emitter calls it. *)
Definition runListener (env : Env) (l : Listener) (p : Payload)
  : M Effect AppState unit :=
  match l, p with
  | L_writeSTT r, PChunk chunk => writeSTT r chunk
  | L_logError tag, _ => log Error tag
  | L_transcript_interviewer, PTranscript segment =>
      onTranscript_interviewer env segment
  | L_transcript_user, PTranscript segment => onTranscript_user env segment
  | _, _ => ret tt
  end.

(** The effects of a method of a handle, in order, each listener call
    followed by what the listener does. *)
Fixpoint dispatch (env : Env) (wrap : HEffect -> Effect) (es : list HEffect)
  : M Effect AppState unit :=
  match es with
  | [] => ret tt
  | e :: es' =>
      tell (wrap e) ;;
      match e with
      | HInvoke l p => runListener env l p
      | _ => ret tt
      end ;;
      dispatch env wrap es'
  end.

(** [this.f.m()]: a call on null is a TypeError. *)
Definition invoke {H A} (env : Env) (f : Field H) (m : M HEffect H A)
  : M Effect AppState A :=
  fun w =>
    match fget f w with
    | None => (Throw "TypeError: Cannot read properties of null", w, [])
    | Some h =>
        match m h with
        | (r, h', es) =>
            (dispatch env (fwrap f) es ;; liftRes r) (fset f (Some h') w)
        end
    end.

(** [this.f?.m()] *)
Definition invoke_opt {H A} (env : Env) (f : Field H) (m : M HEffect H A)
  : M Effect AppState unit :=
  w <- get ;;
  match fget f w with
  | None => ret tt
  | Some _ => _ <- invoke env f m ;; ret tt
  end.

(** [this.f = new C(...)]: the field is assigned only when the constructor
    returns. *)
Definition construct {H} (f : Field H) (c : Res H * list HEffect)
  : M Effect AppState unit :=
  fun w =>
    match c with
    | (Ok h, es) => (Ok tt, fset f (Some h) w, map (fwrap f) es)
    | (Throw e, es) => (Throw e, w, map (fwrap f) es)
    end.

(** ** main.ts: the audio pipeline methods of [AppState] *)

(** The fields as declared, before the constructor runs the setup. *)
Definition initialState (rag : option RAGManager) (wh : WindowHelper)
  : AppState :=
  {| systemAudioCapture := None; microphoneCapture := None;
     googleSTT := None; googleSTT_User := None;
     ragManager := rag; windowHelper := wh; clockReads := 0 |}.

Definition setupSystemAudioPipeline (env : Env) : M Effect AppState unit :=
  tryCatch
    (construct F_systemAudioCapture
       (SystemAudioCapture.new (SystemAudioCapture_ctor env) None) ;;
     construct F_microphoneCapture
       (MicrophoneCapture.new (RustMicCapture env) None) ;;
     construct (F_stt SystemAudio)
       (GoogleSTT.new (GoogleSTT_ctor env SystemAudio)) ;;
     construct (F_stt Microphone)
       (GoogleSTT.new (GoogleSTT_ctor env Microphone)) ;;
     invoke_opt env F_systemAudioCapture
       (on "data" (L_writeSTT SystemAudio)) ;;
     invoke_opt env F_systemAudioCapture
       (on "error" (L_logError "[Main] SystemAudioCapture Error:")) ;;
     invoke_opt env (F_stt SystemAudio)
       (on "transcript" L_transcript_interviewer) ;;
     invoke_opt env (F_stt SystemAudio)
       (on "error" (L_logError "[Main] GoogleSTT (Interviewer) Error:")) ;;
     invoke_opt env F_microphoneCapture
       (on "data" (L_writeSTT Microphone)) ;;
     invoke_opt env F_microphoneCapture
       (on "error" (L_logError "[Main] MicrophoneCapture Error:")) ;;
     invoke_opt env (F_stt Microphone)
       (on "transcript" L_transcript_user) ;;
     invoke_opt env (F_stt Microphone)
       (on "error" (L_logError "[Main] GoogleSTT (User) Error:")) ;;
     log Info "[Main] Full Audio Pipeline (System + Mic) Initialized (Paused)")
    (fun err => log Error "[Main] Failed to setup System Audio Pipeline:").

(** [reconfigureAudio], 1. System Audio: the existing capture is stopped and
    dropped (main.ts 313-317). *)
Definition discardSystemAudio (env : Env) : M Effect AppState unit :=
  w <- get ;;
  match systemAudioCapture w with
  | Some _ =>
      invoke env F_systemAudioCapture SystemAudioCapture.stop ;;
      modify (set_systemAudioCapture None)
  | None => ret tt
  end.

(** [reconfigureAudio], 1. System Audio: a capture is constructed for the
    preferred device, then for the default one (main.ts 319-351). *)
Definition installSystemAudio (env : Env) (outputDeviceId : option string)
  : M Effect AppState unit :=
  tryCatch
    (log Info "[Main] Initializing SystemAudioCapture..." ;;
     construct F_systemAudioCapture
       (SystemAudioCapture.new (SystemAudioCapture_ctor env)
          (or_undefined outputDeviceId)) ;;
     rate <- invoke env F_systemAudioCapture SystemAudioCapture.getSampleRate ;;
     log Info "[Main] SystemAudioCapture rate:" ;;
     invoke_opt env (F_stt SystemAudio) (GoogleSTT.setSampleRate rate) ;;
     invoke env F_systemAudioCapture (on "data" (L_writeSTT SystemAudio)) ;;
     invoke env F_systemAudioCapture
       (on "error" (L_logError "[Main] SystemAudioCapture Error:")) ;;
     log Info "[Main] SystemAudioCapture initialized.")
    (fun err =>
       log Warn "[Main] Failed to initialize SystemAudioCapture with preferred ID. Falling back to default." ;;
       tryCatch
         (construct F_systemAudioCapture
            (SystemAudioCapture.new (SystemAudioCapture_ctor env) None) ;;
          rate <- invoke env F_systemAudioCapture
                    SystemAudioCapture.getSampleRate ;;
          log Info "[Main] SystemAudioCapture (Default) rate:" ;;
          invoke_opt env (F_stt SystemAudio) (GoogleSTT.setSampleRate rate) ;;
          invoke env F_systemAudioCapture
            (on "data" (L_writeSTT SystemAudio)) ;;
          invoke env F_systemAudioCapture
            (on "error"
               (L_logError "[Main] SystemAudioCapture (Default) Error:")))
         (fun err2 =>
            log Error "[Main] Failed to initialize SystemAudioCapture (Default):")).

Definition reconfigureSystemAudio (env : Env) (outputDeviceId : option string)
  : M Effect AppState unit :=
  discardSystemAudio env ;; installSystemAudio env outputDeviceId.

(** [reconfigureAudio], 2. Microphone: the existing capture is stopped and
    dropped (main.ts 353-357). *)
Definition discardMicrophone (env : Env) : M Effect AppState unit :=
  w <- get ;;
  match microphoneCapture w with
  | Some _ =>
      invoke env F_microphoneCapture MicrophoneCapture.stop ;;
      modify (set_microphoneCapture None)
  | None => ret tt
  end.

(** [reconfigureAudio], 2. Microphone: a capture is constructed for the
    preferred device, then for the default one (main.ts 359-391). *)
Definition installMicrophone (env : Env) (inputDeviceId : option string)
  : M Effect AppState unit :=
  tryCatch
    (log Info "[Main] Initializing MicrophoneCapture..." ;;
     construct F_microphoneCapture
       (MicrophoneCapture.new (RustMicCapture env)
          (or_undefined inputDeviceId)) ;;
     rate <- invoke env F_microphoneCapture MicrophoneCapture.getSampleRate ;;
     log Info "[Main] MicrophoneCapture rate:" ;;
     invoke_opt env (F_stt Microphone) (GoogleSTT.setSampleRate rate) ;;
     invoke env F_microphoneCapture (on "data" (L_writeSTT Microphone)) ;;
     invoke env F_microphoneCapture
       (on "error" (L_logError "[Main] MicrophoneCapture Error:")) ;;
     log Info "[Main] MicrophoneCapture initialized.")
    (fun err =>
       log Warn "[Main] Failed to initialize MicrophoneCapture with preferred ID. Falling back to default." ;;
       tryCatch
         (construct F_microphoneCapture
            (MicrophoneCapture.new (RustMicCapture env) None) ;;
          rate <- invoke env F_microphoneCapture
                    MicrophoneCapture.getSampleRate ;;
          log Info "[Main] MicrophoneCapture (Default) rate:" ;;
          invoke_opt env (F_stt Microphone) (GoogleSTT.setSampleRate rate) ;;
          invoke env F_microphoneCapture (on "data" (L_writeSTT Microphone)) ;;
          invoke env F_microphoneCapture
            (on "error"
               (L_logError "[Main] MicrophoneCapture (Default) Error:")))
         (fun err2 =>
            log Error "[Main] Failed to initialize MicrophoneCapture (Default):")).

Definition reconfigureMicrophone (env : Env) (inputDeviceId : option string)
  : M Effect AppState unit :=
  discardMicrophone env ;; installMicrophone env inputDeviceId.

Definition reconfigureAudio (env : Env)
    (inputDeviceId outputDeviceId : option string) : M Effect AppState unit :=
  log Info "[Main] Reconfiguring Audio:" ;;
  reconfigureSystemAudio env outputDeviceId ;;
  reconfigureMicrophone env inputDeviceId.

Definition startMeeting (env : Env) (metadata : option Metadata)
  : M Effect AppState unit :=
  log Info "[Main] Starting Meeting..." ;;
  match metadata with
  | Some md =>
      tell (ESetMeetingMetadata md) ;;
      match audio md with
      | Some a => reconfigureAudio env (inputDeviceId a) (outputDeviceId a)
      | None => ret tt
      end
  | None => ret tt
  end ;;
  invoke_opt env F_systemAudioCapture SystemAudioCapture.start ;;
  invoke_opt env (F_stt SystemAudio) GoogleSTT.start ;;
  invoke_opt env F_microphoneCapture MicrophoneCapture.start ;;
  invoke_opt env (F_stt Microphone) GoogleSTT.start.

(** [`Action: ${a}`] *)
Definition action (a : string) : string := ("Action: " ++ a)%string.

Definition summaryOf (d : DetailedSummary) : string :=
  String.concat ". "
    (match keyPoints d with Some k => k | None => [] end
     ++ map action (match actionItems d with Some a => a | None => [] end)).

Definition processCompletedMeetingForRAG (env : Env)
  : M Effect AppState unit :=
  w <- get ;;
  match ragManager w with
  | None => ret tt
  | Some _ =>
      tryCatch
        (tell (EGetRecentMeetings 1) ;;
         meetings <- liftRes (db_getRecentMeetings env 1) ;;
         match meetings with
         | [] => ret tt
         | m0 :: _ =>
             tell (EGetMeetingDetails (meeting_id m0)) ;;
             found <- liftRes (db_getMeetingDetails env (meeting_id m0)) ;;
             match found with
             | None => ret tt
             | Some meeting =>
                 match transcript meeting with
                 | None => ret tt
                 | Some [] => ret tt
                 | Some rows =>
                     let segments :=
                       map (fun t => {| row_speaker := stored_speaker t;
                                        row_text := stored_text t;
                                        row_timestamp := stored_timestamp t |})
                           rows in
                     let summary :=
                       option_map summaryOf (detailedSummary meeting) in
                     tell (EProcessMeeting (meeting_id meeting)
                                           segments summary) ;;
                     result <- liftRes (rag_processMeeting env
                                          (meeting_id meeting)
                                          segments summary) ;;
                     log Info "[AppState] RAG processed meeting"
                 end
             end
         end)
        (fun error =>
           log Error "[AppState] Failed to process meeting for RAG:")
  end.

Definition endMeeting (env : Env) : M Effect AppState unit :=
  log Info "[Main] Ending Meeting..." ;;
  invoke_opt env F_systemAudioCapture SystemAudioCapture.stop ;;
  invoke_opt env (F_stt SystemAudio) GoogleSTT.stop ;;
  invoke_opt env F_microphoneCapture MicrophoneCapture.stop ;;
  invoke_opt env (F_stt Microphone) GoogleSTT.stop ;;
  tell EStopMeeting ;;
  liftRes (intelligence_stopMeeting env) ;;
  processCompletedMeetingForRAG env.

(** ** What the outside world does to the pipeline *)

(** The native layer hands a chunk to the callback of the role's capture. *)
Definition nativeChunk (env : Env) (r : Role) (chunk : option Buffer)
  : M Effect AppState unit :=
  match r with
  | Microphone =>
      invoke_opt env F_microphoneCapture (MicrophoneCapture.onChunk chunk)
  | SystemAudio =>
      match chunk with
      | Some c =>
          invoke_opt env F_systemAudioCapture (SystemAudioCapture.onChunk c)
      | None => ret tt
      end
  end.

(** The transcription stream of a role produces a result. *)
Definition transcriptResult (env : Env) (r : Role) (segment : TranscriptEvent)
  : M Effect AppState unit :=
  invoke_opt env (F_stt r) (GoogleSTT.onResult segment).

(** ** Histories of a microphone handle *)

(** What its owner and the native layer can do to a handle. *)
Inductive MicOp :=
| DoStart
| DoStop
| DoGetSampleRate
| DoOn (name : string) (l : Listener)
| DoNativeChunk (chunk : option Buffer).

Definition runMicOp (op : MicOp) : M HEffect MicrophoneCapture.t unit :=
  match op with
  | DoStart => MicrophoneCapture.start
  | DoStop => MicrophoneCapture.stop
  | DoGetSampleRate => _ <- MicrophoneCapture.getSampleRate ;; ret tt
  | DoOn name l => on name l
  | DoNativeChunk chunk => MicrophoneCapture.onChunk chunk
  end.

(** Each operation is a call of its own: an exception of one does not
    prevent the next. *)
Fixpoint runMicOps (ops : list MicOp) (h : MicrophoneCapture.t)
  : MicrophoneCapture.t * list HEffect :=
  match ops with
  | [] => (h, [])
  | op :: ops' =>
      let o := runMicOp op h in
      let o' := runMicOps ops' (state o) in
      (fst o', trace o ++ snd o')
  end.

(** A ['data'] event, and every call of a listener with a chunk, carries a
    chunk of positive length. *)
Definition carriesAudio (e : HEffect) : bool :=
  match e with
  | HEmit name p =>
      if String.eqb name "data"
      then match p with
           | PChunk c => (0 <? Z.of_nat (List.length c))
           | _ => false
           end
      else true
  | HInvoke _ (PChunk c) => (0 <? Z.of_nat (List.length c))
  | _ => true
  end.

Definition isEmit (name : string) (e : HEffect) : bool :=
  match e with
  | HEmit n _ => String.eqb n name
  | _ => false
  end.


(** What [stop] leaves in the trace of a recording handle. *)
Definition stopTrace (h : MicrophoneCapture.t) : list HEffect :=
  HLog Info "[MicrophoneCapture] Stopping capture..."
  :: match MicrophoneCapture.monitor h with
     | Some m =>
         HNative NStop
         :: match mon_stop m with
            | Ok _ => []
            | Throw _ => [HLog Error "[MicrophoneCapture] Error stopping:"]
            end
     | None => []
     end
  ++ HEmit "stop" PNone
  :: map (fun l => HInvoke l PNone)
         (listenersFor "stop" (MicrophoneCapture.emitter h)).

Definition stopped (h : MicrophoneCapture.t) : MicrophoneCapture.t :=
  MicrophoneCapture.set_isRecording false
    (MicrophoneCapture.set_monitor None h).

(** What [start] leaves in the trace when the native call returns, and when
    it throws [e]. *)
Definition startTrace (h : MicrophoneCapture.t) : list HEffect :=
  [HLog Info "[MicrophoneCapture] Starting native capture...";
   HNative NStart; HEmit "start" PNone]
  ++ map (fun l => HInvoke l PNone)
         (listenersFor "start" (MicrophoneCapture.emitter h)).

Definition startFailureTrace (e : Err) (h : MicrophoneCapture.t)
  : list HEffect :=
  [HLog Info "[MicrophoneCapture] Starting native capture...";
   HNative NStart;
   HLog Error "[MicrophoneCapture] Failed to start:";
   HEmit "error" (PError e)]
  ++ map (fun l => HInvoke l (PError e))
         (listenersFor "error" (MicrophoneCapture.emitter h)).

(** ** Sample native objects and handles *)

Definition workingMonitor : Monitor :=
  {| mon_getSampleRate := Ok 48000; mon_start := Ok tt; mon_stop := Ok tt |}.

(** A device that is found but can neither report its rate nor start. *)
Definition brokenMonitor : Monitor :=
  {| mon_getSampleRate := Throw "rate unavailable";
     mon_start := Throw "start failed";
     mon_stop := Ok tt |}.

(** A handle as [main.ts] wires it, over the monitor [m]. *)
Definition wiredMic (m : option Monitor) (recording : bool)
  : MicrophoneCapture.t :=
  {| MicrophoneCapture.monitor := m;
     MicrophoneCapture.isRecording := recording;
     MicrophoneCapture.deviceId := None;
     MicrophoneCapture.emitter :=
       [("data", L_writeSTT Microphone);
        ("error", L_logError "[Main] MicrophoneCapture Error:")] |}.

(** ** Calls that reach no audio or transcript listener *)

(** A listener of [main.ts] called without a chunk and without a transcript
    can at most log. *)
Definition quietEffect (e : HEffect) : bool :=
  match e with
  | HInvoke _ (PChunk _) => false
  | HInvoke _ (PTranscript _) => false
  | _ => true
  end.

Definition quiet (es : list HEffect) : bool := forallb quietEffect es.

(** The trace that such effects leave at the level of [AppState]. *)
Definition quietTrace (wrap : HEffect -> Effect) (es : list HEffect)
  : list Effect :=
  flat_map (fun e =>
              wrap e
              :: match e with
                 | HInvoke (L_logError tag) _ => [ELog Error tag]
                 | _ => []
                 end) es.

(** [f] applied to the handle held by a field, if there is one. *)
Definition applyTo {H} (f : Field H) (g : H -> H) (w : AppState) : AppState :=
  match fget f w with
  | Some h => fset f (Some (g h)) w
  | None => w
  end.

Definition voidRes {A} (r : Res A) : Res unit :=
  match r with Ok _ => Ok tt | Throw e => Throw e end.

(** ** Observations on traces and states *)

(** An effect inside a capture handle or a transcription stream. *)
Definition isHandleEffect (e : Effect) : bool :=
  match e with
  | ECapture _ _ => true
  | EStt _ _ => true
  | _ => false
  end.

Definition isLog (e : Effect) : bool :=
  match e with
  | ELog _ _ => true
  | _ => false
  end.

Definition isProcessMeeting (e : Effect) : bool :=
  match e with
  | EProcessMeeting _ _ _ => true
  | _ => false
  end.

(** How many times [ragManager.processMeeting] is called. *)
Definition processCalls (tr : list Effect) : nat :=
  List.length (filter isProcessMeeting tr).

(** The transcript that storage holds for its most recent meeting. *)
Definition storedTranscript (env : Env) : option (list StoredRow) :=
  match db_getRecentMeetings env 1 with
  | Ok (m0 :: _) =>
      match db_getMeetingDetails env (meeting_id m0) with
      | Ok (Some meeting) => transcript meeting
      | _ => None
      end
  | _ => None
  end.

Definition nonEmpty {A} (l : option (list A)) : bool :=
  match l with
  | Some (_ :: _) => true
  | _ => false
  end.

Definition isSome {A} (o : option A) : bool :=
  match o with Some _ => true | None => false end.

Definition listening (h : GoogleSTT.t) : bool :=
  match GoogleSTT.st h with
  | GoogleSTT.Listening => true
  | _ => false
  end.

(** No capture is running and no stream is listening. *)
Definition allStopped (w : AppState) : bool :=
  match systemAudioCapture w with
  | Some h => negb (SystemAudioCapture.active h)
  | None => true
  end
  && match microphoneCapture w with
     | Some h => negb (MicrophoneCapture.isRecording h)
     | None => true
     end
  && match googleSTT w with
     | Some h => negb (listening h)
     | None => true
     end
  && match googleSTT_User w with
     | Some h => negb (listening h)
     | None => true
     end.

(** The trace of a quiet method called on the handle of a field. *)
Definition handleTrace {H A} (f : Field H) (m : M HEffect H A) (w : AppState)
  : list Effect :=
  match fget f w with
  | Some h => quietTrace (fwrap f) (trace (m h))
  | None => []
  end.

(** The state after the four stop calls of [endMeeting]. *)
Definition stopAll (w : AppState) : AppState :=
  applyTo (F_stt Microphone) (fun h => state (GoogleSTT.stop h))
    (applyTo F_microphoneCapture (fun h => state (MicrophoneCapture.stop h))
       (applyTo (F_stt SystemAudio) (fun h => state (GoogleSTT.stop h))
          (applyTo F_systemAudioCapture
             (fun h => state (SystemAudioCapture.stop h)) w))).

(** The trace of the four stop calls of [endMeeting]. *)
Definition teardownTrace (w : AppState) : list Effect :=
  handleTrace F_systemAudioCapture SystemAudioCapture.stop w
  ++ handleTrace (F_stt SystemAudio) GoogleSTT.stop w
  ++ handleTrace F_microphoneCapture MicrophoneCapture.stop w
  ++ handleTrace (F_stt Microphone) GoogleSTT.stop w.

(** ** Routed segments *)

Definition roleToSpeaker (r : Role) : Speaker :=
  match r with
  | SystemAudio => interviewer
  | Microphone => user
  end.

(** The listener that the setup registers on the stream of a role. *)
Definition transcriptListener (r : Role) : Listener :=
  match r with
  | SystemAudio => L_transcript_interviewer
  | Microphone => L_transcript_user
  end.

(** The segment built from a transcript event, a speaker and a clock
    reading. *)
Definition routed (sp : Speaker) (ev : TranscriptEvent) (ts : Z) : Segment :=
  {| speaker := sp; text := ev_text ev; timestamp := ts;
     final := ev_isFinal ev; confidence := ev_confidence ev |}.

(** One payload sent to the windows that exist, launcher first. *)
Definition sends (wh : WindowHelper) (payload : Segment) : list Effect :=
  match getLauncherWindow wh with
  | Some b => [ESend b "native-audio-transcript" payload]
  | None => []
  end
  ++ match getOverlayWindow wh with
     | Some b => [ESend b "native-audio-transcript" payload]
     | None => []
     end.

(** The segments handed to the intelligence manager, and all the segments
    delivered to any sink. *)
Definition intelligenceDeliveries (tr : list Effect) : list Segment :=
  flat_map (fun e => match e with
                     | EHandleTranscript s => [s]
                     | _ => []
                     end) tr.

Definition deliveries (tr : list Effect) : list Segment :=
  flat_map (fun e => match e with
                     | EHandleTranscript s => [s]
                     | ESend _ _ s => [s]
                     | _ => []
                     end) tr.

Definition speakerIs (sp : Speaker) (s : Segment) : bool :=
  match sp, speaker s with
  | interviewer, interviewer => true
  | user, user => true
  | _, _ => false
  end.

(** ** Histories of the pipeline *)

(** A turn of the event loop that reaches the audio pipeline. *)
Inductive Action :=
| AStartMeeting (metadata : option Metadata)
| AEndMeeting
| ANativeChunk (r : Role) (chunk : option Buffer)
| ATranscript (r : Role) (ev : TranscriptEvent).

Definition act (env : Env) (a : Action) : M Effect AppState unit :=
  match a with
  | AStartMeeting metadata => startMeeting env metadata
  | AEndMeeting => endMeeting env
  | ANativeChunk r chunk => nativeChunk env r chunk
  | ATranscript r ev => transcriptResult env r ev
  end.

(** Each turn runs on the state the previous one left, whether it returned
    or threw. *)
Fixpoint run (env : Env) (actions : list Action) (w : AppState)
  : AppState * list Effect :=
  match actions with
  | [] => (w, [])
  | a :: rest =>
      let o := act env a w in
      let o' := run env rest (state o) in
      (fst o', trace o ++ snd o')
  end.

(** All four handles could be constructed by the setup. *)
Definition setupCompletes (env : Env) : bool :=
  is_ok (SystemAudioCapture_ctor env None)
  && match RustMicCapture env with
     | Some ctor => is_ok (ctor None)
     | None => true
     end
  && is_ok (GoogleSTT_ctor env SystemAudio)
  && is_ok (GoogleSTT_ctor env Microphone).

(** The listeners of the two streams. *)
Definition sttEmitters (w : AppState)
  : option (list (string * Listener)) * option (list (string * Listener)) :=
  (option_map GoogleSTT.emitter (googleSTT w),
   option_map GoogleSTT.emitter (googleSTT_User w)).

(** A computation that leaves an observation of the state as it found it. *)
Definition Keeps {X A} (obs : AppState -> X) (m : M Effect AppState A)
  : Prop :=
  forall w, obs (state (m w)) = obs w.

(** ** A sample environment *)

Definition sampleEnv : Env :=
  {| RustMicCapture := Some (fun _ => Ok workingMonitor);
     SystemAudioCapture_ctor := fun _ => Ok (Some workingMonitor);
     GoogleSTT_ctor := fun _ => Ok tt;
     Date_now := fun n => 1000 + Z.of_nat n;
     intelligence_stopMeeting := Ok tt;
     db_getRecentMeetings := fun _ => Ok [];
     db_getMeetingDetails := fun _ => Ok None;
     rag_processMeeting := fun _ _ _ => Ok 0 |}.

Definition sampleWindows : WindowHelper :=
  {| getLauncherWindow := Some 1%nat; getOverlayWindow := None |}.

(** The pipeline as the constructor of [AppState] leaves it. *)
Definition pausedPipeline : AppState :=
  state (setupSystemAudioPipeline sampleEnv
           (initialState (Some TheRAGManager) sampleWindows)).

Definition helloWorld : TranscriptEvent :=
  {| ev_text := "hello world"; ev_isFinal := true;
     ev_confidence := 0.75%float |}.

(** The ['transcript'] listeners of the stream of a role, if it exists. *)
Definition wiring (w : AppState) (r : Role) : option (list Listener) :=
  option_map (fun e => listenersFor "transcript" e)
    match r with
    | SystemAudio => fst (sttEmitters w)
    | Microphone => snd (sttEmitters w)
    end.

(** ** Sample rates along a trace *)

Definition role_eqb (a b : Role) : bool :=
  match a, b with
  | SystemAudio, SystemAudio => true
  | Microphone, Microphone => true
  | _, _ => false
  end.

(** For each ['data'] subscription on the capture of role [r] in a trace,
    the rate configured on the stream of [r] at that moment: [current] until
    the trace sets another one. *)
Fixpoint ratesAtSubscription (r : Role) (current : option Z)
    (tr : list Effect) : list (option Z) :=
  match tr with
  | [] => []
  | EStt r' (HStt (SSetSampleRate n)) :: tr' =>
      ratesAtSubscription r (if role_eqb r r' then Some n else current) tr'
  | ECapture r' (HOn name _) :: tr' =>
      if role_eqb r r' && String.eqb name "data"
      then current :: ratesAtSubscription r current tr'
      else ratesAtSubscription r current tr'
  | _ :: tr' => ratesAtSubscription r current tr'
  end.

(** The chunks written to the stream of role [r], each with the rate
    configured when it was written. *)
Definition writes (r : Role) (tr : list Effect) : list (Z * Buffer) :=
  flat_map (fun e => match e with
                     | EStt r' (HStt (SWrite rate chunk)) =>
                         if role_eqb r r' then [(rate, chunk)] else []
                     | _ => []
                     end) tr.

(** An effect that neither sets the rate of the stream of [r] nor
    subscribes to the capture of [r]. *)
Definition besideRate (r : Role) (e : Effect) : bool :=
  match e with
  | EStt r' (HStt (SSetSampleRate _)) => negb (role_eqb r r')
  | ECapture r' (HOn _ _) => negb (role_eqb r r')
  | _ => true
  end.

(** The capture of a role, as far as the router sees it: its ['data']
    listeners. *)
Definition dataListeners (r : Role) (w : AppState) : option (list Listener) :=
  match r with
  | SystemAudio =>
      option_map (fun h => listenersFor "data" (SystemAudioCapture.emitter h))
                 (systemAudioCapture w)
  | Microphone =>
      option_map (fun h => listenersFor "data" (MicrophoneCapture.emitter h))
                 (microphoneCapture w)
  end.

(** The rate that the capture of a role reports, when it has one. *)
Definition reportedRate (r : Role) (w : AppState) : option (Res Z) :=
  match r with
  | SystemAudio =>
      option_map (fun h => result (SystemAudioCapture.getSampleRate h))
                 (systemAudioCapture w)
  | Microphone =>
      option_map (fun h => result (MicrophoneCapture.getSampleRate h))
                 (microphoneCapture w)
  end.

(** The rate configured on the stream of a role, when there is one. *)
Definition configuredRate (r : Role) (w : AppState) : option Z :=
  option_map GoogleSTT.sampleRate (fget (F_stt r) w).


(** What the ['data'] listeners [ls] of the capture of role [r] write to the
    stream of [r] when they receive [chunk]. *)
Definition forwarded (r : Role) (rate : option Z) (chunk : Buffer)
    (ls : list Listener) : list (Z * Buffer) :=
  flat_map (fun l => match l, rate with
                     | L_writeSTT r', Some n =>
                         if role_eqb r r' then [(n, chunk)] else []
                     | _, _ => []
                     end) ls.

(** The devices for which a capture of role [r] was constructed, or
    attempted, along a trace: [None] is the system default. *)
Definition attempts (r : Role) (tr : list Effect) : list (option string) :=
  flat_map (fun e => match e with
                     | ECapture r' (HNative (NNew d)) =>
                         if role_eqb r r' then [d] else []
                     | _ => []
                     end) tr.

Definition isNew (e : HEffect) : bool :=
  match e with
  | HNative (NNew _) => true
  | _ => false
  end.

(** An environment without any output device, and one without any input
    device. *)
Definition noOutputEnv : Env :=
  {| RustMicCapture := RustMicCapture sampleEnv;
     SystemAudioCapture_ctor := fun _ => Throw "no output device";
     GoogleSTT_ctor := GoogleSTT_ctor sampleEnv;
     Date_now := Date_now sampleEnv;
     intelligence_stopMeeting := intelligence_stopMeeting sampleEnv;
     db_getRecentMeetings := db_getRecentMeetings sampleEnv;
     db_getMeetingDetails := db_getMeetingDetails sampleEnv;
     rag_processMeeting := rag_processMeeting sampleEnv |}.

Definition noInputEnv : Env :=
  {| RustMicCapture := Some (fun _ => Throw "no input device");
     SystemAudioCapture_ctor := SystemAudioCapture_ctor sampleEnv;
     GoogleSTT_ctor := GoogleSTT_ctor sampleEnv;
     Date_now := Date_now sampleEnv;
     intelligence_stopMeeting := intelligence_stopMeeting sampleEnv;
     db_getRecentMeetings := db_getRecentMeetings sampleEnv;
     db_getMeetingDetails := db_getMeetingDetails sampleEnv;
     rag_processMeeting := rag_processMeeting sampleEnv |}.

(** An environment in which the default input device has gone, and the
    device "mic-2" is found but can neither report its rate nor start. *)
Definition flakyInputEnv : Env :=
  {| RustMicCapture :=
       Some (fun d => match d with
                      | Some _ => Ok brokenMonitor
                      | None => Throw "no default input device"
                      end);
     SystemAudioCapture_ctor := SystemAudioCapture_ctor sampleEnv;
     GoogleSTT_ctor := GoogleSTT_ctor sampleEnv;
     Date_now := Date_now sampleEnv;
     intelligence_stopMeeting := intelligence_stopMeeting sampleEnv;
     db_getRecentMeetings := db_getRecentMeetings sampleEnv;
     db_getMeetingDetails := db_getMeetingDetails sampleEnv;
     rag_processMeeting := rag_processMeeting sampleEnv |}.

(** [{ audio: { inputDeviceId: "mic-2" } }] *)
Definition preferMic2 : Metadata :=
  {| title := None;
     audio := Some {| inputDeviceId := Some "mic-2";
                      outputDeviceId := None |} |}.

(** Storage that holds a meeting of two segments. *)
Definition recordedMeeting : Meeting :=
  {| meeting_id := "m-1";
     transcript :=
       Some [{| stored_speaker := "user"; stored_text := "hello";
                stored_timestamp := 1000; stored_final := false;
                stored_confidence := 0.5%float |};
             {| stored_speaker := "user"; stored_text := "hello world";
                stored_timestamp := 1002; stored_final := true;
                stored_confidence := 0.75%float |}];
     detailedSummary := None |}.

Definition recordedEnv : Env :=
  {| RustMicCapture := RustMicCapture sampleEnv;
     SystemAudioCapture_ctor := SystemAudioCapture_ctor sampleEnv;
     GoogleSTT_ctor := GoogleSTT_ctor sampleEnv;
     Date_now := Date_now sampleEnv;
     intelligence_stopMeeting := Ok tt;
     db_getRecentMeetings := fun _ => Ok [recordedMeeting];
     db_getMeetingDetails := fun _ => Ok (Some recordedMeeting);
     rag_processMeeting := fun _ _ _ => Ok 2 |}.

(** What decides how the chunks of a role are forwarded: the ['data']
    listeners of its capture and the rate configured on its stream. *)
Definition forwarding (r : Role) (w : AppState)
  : option (list Listener) * option Z :=
  (dataListeners r w, configuredRate r w).

(** A turn that does not reconfigure the devices. *)
Definition keepsDevices (a : Action) : bool :=
  match a with
  | AStartMeeting (Some md) => negb (isSome (audio md))
  | _ => true
  end.

(** ** Counting along the history of a microphone handle *)

Definition isNativeStart (e : HEffect) : bool :=
  match e with
  | HNative NStart => true
  | _ => false
  end.

Definition isNativeStop (e : HEffect) : bool :=
  match e with
  | HNative NStop => true
  | _ => false
  end.

Definition isErrorLog (e : HEffect) : bool :=
  match e with
  | HLog Error _ => true
  | _ => false
  end.

Definition count {A} (p : A -> bool) (l : list A) : nat :=
  List.length (filter p l).

(** The listeners that a history registers, in order. *)
Definition registrations (ops : list MicOp) : list (string * Listener) :=
  flat_map (fun op => match op with
                      | DoOn name l => [(name, l)]
                      | _ => []
                      end) ops.

(** A handle that records has a native monitor. *)
Definition monitored (h : MicrophoneCapture.t) : bool :=
  negb (MicrophoneCapture.isRecording h)
  || isSome (MicrophoneCapture.monitor h).

(** How many ['start'] events, ['stop'] events and native stops a handle can
    still produce. *)
Definition startsLeft (h : MicrophoneCapture.t) : nat :=
  if MicrophoneCapture.isRecording h then 0
  else if isSome (MicrophoneCapture.monitor h) then 1 else 0.

Definition stopsLeft (h : MicrophoneCapture.t) : nat :=
  if MicrophoneCapture.isRecording h then 1
  else if isSome (MicrophoneCapture.monitor h) then 1 else 0.

Definition nativeStopsLeft (h : MicrophoneCapture.t) : nat :=
  if isSome (MicrophoneCapture.monitor h) then 1 else 0.

Definition b2n (b : bool) : nat := if b then 1%nat else 0%nat.

(** The same handle over another native monitor. *)
Definition overMonitor (m : Monitor) (h : MicrophoneCapture.t)
  : MicrophoneCapture.t :=
  MicrophoneCapture.set_monitor (Some m) h.

Definition throws {A} (r : Res A) : bool := negb (is_ok r).

(** ** Storage access along a trace *)




(** A meeting with a summary object and no transcript problem. *)
Definition summarisedMeeting : Meeting :=
  {| meeting_id := "m-2";
     transcript :=
       Some [{| stored_speaker := "interviewer";
                stored_text := "tell me more"; stored_timestamp := 2000;
                stored_final := true; stored_confidence := 0.75%float |}];
     detailedSummary :=
       Some {| keyPoints := Some ["scope agreed"; "deadline moved"];
               actionItems := Some ["send notes"] |} |}.

Definition summarisedEnv : Env :=
  {| RustMicCapture := RustMicCapture sampleEnv;
     SystemAudioCapture_ctor := SystemAudioCapture_ctor sampleEnv;
     GoogleSTT_ctor := GoogleSTT_ctor sampleEnv;
     Date_now := Date_now sampleEnv;
     intelligence_stopMeeting := Ok tt;
     db_getRecentMeetings := fun _ => Ok [recordedMeeting];
     db_getMeetingDetails := fun _ => Ok (Some summarisedMeeting);
     rag_processMeeting := fun _ _ _ => Throw "embedding failed" |}.

(** What the RAG manager is given of a stored row. *)
Definition ragSegment (t : StoredRow) : TranscriptRow :=
  {| row_speaker := stored_speaker t; row_text := stored_text t;
     row_timestamp := stored_timestamp t |}.

(** What [processCompletedMeetingForRAG] leaves in the trace when there is a
    RAG manager. *)
Definition processingTrace (env : Env) : list Effect :=
  EGetRecentMeetings 1
  :: match db_getRecentMeetings env 1 with
     | Throw _ => [ELog Error "[AppState] Failed to process meeting for RAG:"]
     | Ok [] => []
     | Ok (m0 :: _) =>
         EGetMeetingDetails (meeting_id m0)
         :: match db_getMeetingDetails env (meeting_id m0) with
            | Throw _ =>
                [ELog Error "[AppState] Failed to process meeting for RAG:"]
            | Ok None => []
            | Ok (Some meeting) =>
                match transcript meeting with
                | None | Some [] => []
                | Some rows =>
                    let summary :=
                      option_map summaryOf (detailedSummary meeting) in
                    [EProcessMeeting (meeting_id meeting)
                       (map ragSegment rows) summary;
                     match rag_processMeeting env (meeting_id meeting)
                             (map ragSegment rows) summary with
                     | Ok _ => ELog Info "[AppState] RAG processed meeting"
                     | Throw _ =>
                         ELog Error
                           "[AppState] Failed to process meeting for RAG:"
                     end]
                end
            end
     end.

(** ** Routing of chunks *)

(** The chunk that the capture of a role emits for what the native layer
    hands over: the microphone drops null and empty chunks. *)
Definition emitted (r : Role) (chunk : option Buffer) : option Buffer :=
  match r, chunk with
  | Microphone, Some (b :: c) => Some (b :: c)
  | Microphone, _ => None
  | SystemAudio, c => c
  end.

(** The capture of role [r] has no ['data'] listener, or the single one that
    writes to the stream of [r]. *)
Definition routedHome (r : Role) (w : AppState) : bool :=
  match dataListeners r w with
  | None => true
  | Some [] => true
  | Some [L_writeSTT r'] => role_eqb r r'
  | Some _ => false
  end.

Definition wellRouted (w : AppState) : bool :=
  routedHome SystemAudio w && routedHome Microphone w.

Definition otherRole (r : Role) : Role :=
  match r with
  | SystemAudio => Microphone
  | Microphone => SystemAudio
  end.



(** ** main.ts: [initializeRAGManager] *)

Definition set_ragManager (v : option RAGManager) (w : AppState) : AppState :=
  {| systemAudioCapture := systemAudioCapture w;
     microphoneCapture := microphoneCapture w;
     googleSTT := googleSTT w; googleSTT_User := googleSTT_User w;
     ragManager := v; windowHelper := windowHelper w;
     clockReads := clockReads w |}.

(** The SQLite handle that the database manager holds. *)
Inductive Sqlite := TheSqlite.

(** What [initializeRAGManager] meets outside [AppState]:
    [DatabaseManager.getInstance()] with the [db] field of what it returns
    (absent while the database is not ready), the two environment variables,
    the constructor of [RAGManager] and its [setLLMHelper]. *)
Record RagEnv := {
  DatabaseManager_db : Res (option Sqlite);
  GOOGLE_API_KEY : option string;
  GEMINI_API_KEY : option string;
  RAGManager_ctor : Sqlite -> option string -> Res RAGManager;
  rag_setLLMHelper : Res unit
}.

Inductive InitEffect :=
| INewRAGManager (db : Sqlite) (apiKey : option string)
| ISetLLMHelper
| ILog (l : Level) (msg : string).

(** [a || b] on two strings that may be undefined. *)
Definition or_string (a b : option string) : option string :=
  match a with
  | Some s => if String.eqb s "" then b else Some s
  | None => b
  end.

Definition initializeRAGManager (env : RagEnv) : M InitEffect AppState unit :=
  tryCatch
    (sqliteDb <- liftRes (DatabaseManager_db env) ;;
     match sqliteDb with
     | Some db =>
         let apiKey := or_string (GOOGLE_API_KEY env) (GEMINI_API_KEY env) in
         tell (INewRAGManager db apiKey) ;;
         rag <- liftRes (RAGManager_ctor env db apiKey) ;;
         modify (set_ragManager (Some rag)) ;;
         tell ISetLLMHelper ;;
         liftRes (rag_setLLMHelper env) ;;
         tell (ILog Info "[AppState] RAGManager initialized")
     | None => ret tt
     end)
    (fun error =>
       tell (ILog Error "[AppState] Failed to initialize RAGManager:")).

(** The RAG manager could be constructed. *)
Definition ragReady (env : RagEnv) : bool :=
  match DatabaseManager_db env with
  | Ok (Some db) =>
      is_ok (RAGManager_ctor env db
               (or_string (GOOGLE_API_KEY env) (GEMINI_API_KEY env)))
  | _ => false
  end.

Definition isInitError (e : InitEffect) : bool :=
  match e with
  | ILog Error _ => true
  | _ => false
  end.



(** ** main.ts: [setupIntelligenceEvents] *)

(** A value in a payload sent to a renderer. *)
Inductive Value :=
| VString (s : string)
| VNumber (x : float).

(** An object literal: its properties in order. *)
Definition Obj := list (string * Value).

(** An [Error] object. *)
Record JsError := {
  error_name : string;
  error_message : string
}.

(** The windows as the handlers find them: [this.getMainWindow()] and
    [this.getWindowHelper()]. *)
Record Windows := {
  getMainWindow : option BrowserWindow;
  getWindowHelper : WindowHelper
}.

Inductive UiEffect :=
| UiLog (l : Level) (msg : string)
| UiSend (w : BrowserWindow) (channel : string) (payload : option Obj).

(** [win?.webContents.send(channel, payload)] and
    [if (win) win.webContents.send(channel, payload)] *)
Definition sendTo {S} (win : option BrowserWindow) (channel : string)
    (payload : option Obj) : M UiEffect S unit :=
  match win with
  | Some b => tell (UiSend b channel payload)
  | None => ret tt
  end.

Module Intelligence.

(** The events of the intelligence manager for which
    [setupIntelligenceEvents] registers a listener, with the arguments the
    listener takes. *)
Inductive Event :=
| assist_update (insight : string)
| suggested_answer (answer question : string) (confidence : float)
| suggested_answer_token (token question : string) (confidence : float)
| refined_answer_token (token intent : string)
| refined_answer (answer intent : string)
| recap (summary : string)
| recap_token (token : string)
| follow_up_questions_update (questions : string)
| follow_up_questions_token (token : string)
| manual_answer_started
| manual_answer_result (answer question : string)
| mode_changed (mode : string)
| error (err : JsError) (mode : string).

(** The name under which the listener is registered. *)
Definition name (ev : Event) : string :=
  match ev with
  | assist_update _ => "assist_update"
  | suggested_answer _ _ _ => "suggested_answer"
  | suggested_answer_token _ _ _ => "suggested_answer_token"
  | refined_answer_token _ _ => "refined_answer_token"
  | refined_answer _ _ => "refined_answer"
  | recap _ => "recap"
  | recap_token _ => "recap_token"
  | follow_up_questions_update _ => "follow_up_questions_update"
  | follow_up_questions_token _ => "follow_up_questions_token"
  | manual_answer_started => "manual_answer_started"
  | manual_answer_result _ _ => "manual_answer_result"
  | mode_changed _ => "mode_changed"
  | error _ _ => "error"
  end.

End Intelligence.

(** The listeners registered by [setupIntelligenceEvents], by the event
    they are registered for. *)
Definition setupIntelligenceEvents (ev : Intelligence.Event)
  : M UiEffect Windows unit :=
  ws <- get ;;
  let mainWindow := getMainWindow ws in
  match ev with
  | Intelligence.assist_update insight =>
      let helper := getWindowHelper ws in
      sendTo (getLauncherWindow helper) "intelligence-assist-update"
        (Some [("insight", VString insight)]) ;;
      sendTo (getOverlayWindow helper) "intelligence-assist-update"
        (Some [("insight", VString insight)])
  | Intelligence.suggested_answer answer question confidence =>
      sendTo mainWindow "intelligence-suggested-answer"
        (Some [("answer", VString answer); ("question", VString question);
               ("confidence", VNumber confidence)])
  | Intelligence.suggested_answer_token token question confidence =>
      sendTo mainWindow "intelligence-suggested-answer-token"
        (Some [("token", VString token); ("question", VString question);
               ("confidence", VNumber confidence)])
  | Intelligence.refined_answer_token token intent =>
      sendTo mainWindow "intelligence-refined-answer-token"
        (Some [("token", VString token); ("intent", VString intent)])
  | Intelligence.refined_answer answer intent =>
      sendTo mainWindow "intelligence-refined-answer"
        (Some [("answer", VString answer); ("intent", VString intent)])
  | Intelligence.recap summary =>
      sendTo mainWindow "intelligence-recap"
        (Some [("summary", VString summary)])
  | Intelligence.recap_token token =>
      sendTo mainWindow "intelligence-recap-token"
        (Some [("token", VString token)])
  | Intelligence.follow_up_questions_update questions =>
      sendTo mainWindow "intelligence-follow-up-questions-update"
        (Some [("questions", VString questions)])
  | Intelligence.follow_up_questions_token token =>
      sendTo mainWindow "intelligence-follow-up-questions-token"
        (Some [("token", VString token)])
  | Intelligence.manual_answer_started =>
      sendTo mainWindow "intelligence-manual-started" None
  | Intelligence.manual_answer_result answer question =>
      sendTo mainWindow "intelligence-manual-result"
        (Some [("answer", VString answer); ("question", VString question)])
  | Intelligence.mode_changed mode =>
      sendTo mainWindow "intelligence-mode-changed"
        (Some [("mode", VString mode)])
  | Intelligence.error err mode =>
      tell (UiLog Error "[IntelligenceManager] Error in") ;;
      sendTo mainWindow "intelligence-error"
        (Some [("error", VString (error_message err));
               ("mode", VString mode)])
  end.

(** The messages of a trace: channel and payload, whatever the window. *)
Definition messages (tr : list UiEffect) : list (string * option Obj) :=
  flat_map (fun e => match e with
                     | UiSend _ channel payload => [(channel, payload)]
                     | UiLog _ _ => []
                     end) tr.

(** The windows that receive a message in a trace. *)
Definition recipients (tr : list UiEffect) : list BrowserWindow :=
  flat_map (fun e => match e with
                     | UiSend b _ _ => [b]
                     | UiLog _ _ => []
                     end) tr.

Definition toList {A} (o : option A) : list A :=
  match o with Some a => [a] | None => [] end.

Definition isAssistUpdate (ev : Intelligence.Event) : bool :=
  match ev with
  | Intelligence.assist_update _ => true
  | _ => false
  end.

(** An event name with its underscores turned into hyphens. *)
Fixpoint hyphenated (s : string) : string :=
  match s with
  | EmptyString => EmptyString
  | String c s' =>
      ((if String.eqb (String c EmptyString) "_"
        then "-" else String c EmptyString) ++ hyphenated s')%string
  end.

(** Two events that differ at most in what an [Error] object holds besides
    its message. *)
Definition sameUpToErrorDetails (a b : Intelligence.Event) : Prop :=
  a = b
  \/ exists e1 e2 mode,
      a = Intelligence.error e1 mode /\ b = Intelligence.error e2 mode
      /\ error_message e1 = error_message e2.

(** All three windows exist. *)
Definition allWindows : Windows :=
  {| getMainWindow := Some 0%nat;
     getWindowHelper := {| getLauncherWindow := Some 1%nat;
                           getOverlayWindow := Some 2%nat |} |}.

(** ** main.ts: [setupAutoUpdater] *)

Module Updater.

(** [UpdateInfo] and [ProgressInfo] of electron-updater, as far as the
    listeners read them. *)
Record UpdateInfo := { version : string }.

Record ProgressInfo := {
  bytesPerSecond : Z;
  percent : Z;
  transferred : Z;
  total : Z
}.

(** The events of [autoUpdater] for which a listener is registered. *)
Inductive Event :=
| checking_for_update
| update_available (info : UpdateInfo)
| update_not_available (info : UpdateInfo)
| error (err : JsError)
| download_progress (progressObj : ProgressInfo)
| update_downloaded (info : UpdateInfo).

Definition name (ev : Event) : string :=
  match ev with
  | checking_for_update => "checking-for-update"
  | update_available _ => "update-available"
  | update_not_available _ => "update-not-available"
  | error _ => "error"
  | download_progress _ => "download-progress"
  | update_downloaded _ => "update-downloaded"
  end.

(** What is sent along with a channel. *)
Inductive Sent :=
| Nothing
| Info (info : UpdateInfo)
| Message (s : string).

Inductive Effect :=
| Log (l : Level) (msg : string)
| On (name : string)
| CheckForUpdatesAndNotify
| Send (w : BrowserWindow) (channel : string) (payload : Sent).

(** [autoUpdater] with its two settings and the names it has listeners for,
    and the [updateAvailable] field of [AppState]. *)
Record t := {
  autoDownload : bool;
  autoInstallOnAppQuit : bool;
  listening : list string;
  updateAvailable : bool
}.

Definition set_autoDownload (b : bool) (u : t) : t :=
  {| autoDownload := b; autoInstallOnAppQuit := autoInstallOnAppQuit u;
     listening := listening u; updateAvailable := updateAvailable u |}.

Definition set_autoInstallOnAppQuit (b : bool) (u : t) : t :=
  {| autoDownload := autoDownload u; autoInstallOnAppQuit := b;
     listening := listening u; updateAvailable := updateAvailable u |}.

Definition set_updateAvailable (b : bool) (u : t) : t :=
  {| autoDownload := autoDownload u;
     autoInstallOnAppQuit := autoInstallOnAppQuit u;
     listening := listening u; updateAvailable := b |}.

(** [autoUpdater.on(name, ...)] *)
Definition on (name : string) : M Effect t unit :=
  tell (On name) ;;
  modify (fun u =>
            {| autoDownload := autoDownload u;
               autoInstallOnAppQuit := autoInstallOnAppQuit u;
               listening := listening u ++ [name];
               updateAvailable := updateAvailable u |}).

Definition send (win : option BrowserWindow) (channel : string)
    (payload : Sent) : M Effect t unit :=
  match win with
  | Some b => tell (Send b channel payload)
  | None => ret tt
  end.

(** What [setupAutoUpdater] meets outside: [process.env.NODE_ENV] and the
    promise of [autoUpdater.checkForUpdatesAndNotify()], resolved or
    rejected. *)
Record Env := {
  NODE_ENV : option string;
  checkForUpdatesAndNotify : Res unit
}.

End Updater.

(** The body of the listener that [setupAutoUpdater] registers for an event;
    [mainWindow] is what [this.getMainWindow()] returns when it runs. *)
Definition updaterListener (mainWindow : option BrowserWindow)
    (ev : Updater.Event) : M Updater.Effect Updater.t unit :=
  match ev with
  | Updater.checking_for_update =>
      tell (Updater.Log Info "[AutoUpdater] Checking for update...") ;;
      Updater.send mainWindow "update-checking" Updater.Nothing
  | Updater.update_available info =>
      tell (Updater.Log Info "[AutoUpdater] Update available:") ;;
      modify (Updater.set_updateAvailable true) ;;
      Updater.send mainWindow "update-available" (Updater.Info info)
  | Updater.update_not_available info =>
      tell (Updater.Log Info "[AutoUpdater] Update not available:") ;;
      Updater.send mainWindow "update-not-available" (Updater.Info info)
  | Updater.error err =>
      tell (Updater.Log Error "[AutoUpdater] Error:") ;;
      Updater.send mainWindow "update-error"
        (Updater.Message (error_message err))
  | Updater.download_progress progressObj =>
      tell (Updater.Log Info "[AutoUpdater] Download speed:")
  | Updater.update_downloaded info =>
      tell (Updater.Log Info "[AutoUpdater] Update downloaded:") ;;
      Updater.send mainWindow "update-downloaded" (Updater.Info info)
  end.

(** [process.env.NODE_ENV === "development"] *)
Definition inDevelopment (env : Updater.Env) : bool :=
  match Updater.NODE_ENV env with
  | Some s => String.eqb s "development"
  | None => false
  end.

Definition setupAutoUpdater (env : Updater.Env)
  : M Updater.Effect Updater.t unit :=
  modify (Updater.set_autoDownload true) ;;
  modify (Updater.set_autoInstallOnAppQuit true) ;;
  Updater.on "checking-for-update" ;;
  Updater.on "update-available" ;;
  Updater.on "update-not-available" ;;
  Updater.on "error" ;;
  Updater.on "download-progress" ;;
  Updater.on "update-downloaded" ;;
  if inDevelopment env
  then
    tell (Updater.Log Info
            "[AutoUpdater] Skipping automatic update check in development mode")
  else
    tell Updater.CheckForUpdatesAndNotify ;;
    match Updater.checkForUpdatesAndNotify env with
    | Ok _ => ret tt
    | Throw err =>
        tell (Updater.Log Error "[AutoUpdater] Failed to check for updates:")
    end.

(** [autoUpdater] emits an event: each listener registered under its name
    runs, in order. *)
Fixpoint callListeners (mainWindow : option BrowserWindow)
    (ev : Updater.Event) (names : list string)
  : M Updater.Effect Updater.t unit :=
  match names with
  | [] => ret tt
  | n :: names' =>
      (if String.eqb n (Updater.name ev)
       then updaterListener mainWindow ev else ret tt) ;;
      callListeners mainWindow ev names'
  end.

Definition emitUpdater (mainWindow : option BrowserWindow)
    (ev : Updater.Event) : M Updater.Effect Updater.t unit :=
  u <- get ;; callListeners mainWindow ev (Updater.listening u).

(** A history of updater events, each with the main window of its time. *)
Fixpoint runUpdater (events : list (option BrowserWindow * Updater.Event))
    (u : Updater.t) : Updater.t * list Updater.Effect :=
  match events with
  | [] => (u, [])
  | (win, ev) :: rest =>
      let o := emitUpdater win ev u in
      let o' := runUpdater rest (state o) in
      (fst o', trace o ++ snd o')
  end.

(** [autoUpdater] and the flag before the constructor of [AppState] runs. *)
Definition freshUpdater : Updater.t :=
  {| Updater.autoDownload := false; Updater.autoInstallOnAppQuit := false;
     Updater.listening := []; Updater.updateAvailable := false |}.

Definition isUpdateAvailable (ev : Updater.Event) : bool :=
  match ev with
  | Updater.update_available _ => true
  | _ => false
  end.

Definition isDownloadProgress (ev : Updater.Event) : bool :=
  match ev with
  | Updater.download_progress _ => true
  | _ => false
  end.

Definition isCheck (e : Updater.Effect) : bool :=
  match e with
  | Updater.CheckForUpdatesAndNotify => true
  | _ => false
  end.

Definition isUpdaterError (e : Updater.Effect) : bool :=
  match e with
  | Updater.Log Error _ => true
  | _ => false
  end.

Definition updaterRecipients (tr : list Updater.Effect)
  : list (BrowserWindow * string) :=
  flat_map (fun e => match e with
                     | Updater.Send b channel _ => [(b, channel)]
                     | _ => []
                     end) tr.

(** The names for which [setupAutoUpdater] registers a listener. *)
Definition updaterEvents : list string :=
  ["checking-for-update"; "update-available"; "update-not-available";
   "error"; "download-progress"; "update-downloaded"].

(** ** main.ts: screenshots from the tray *)

Module Screenshot.

(** What the screenshot methods meet outside [AppState]: what
    [getMainWindow()] returns at its n-th call, and the outcomes of the two
    promises of the screenshot helper that the tray uses. *)
Record Env := {
  mainWindowAt : nat -> option BrowserWindow;
  helper_takeScreenshot : Res string;
  helper_getImagePreview : string -> Res string
}.

Inductive Effect :=
| Log (l : Level) (msg : string)
| TakeScreenshot
| GetImagePreview (filepath : string)
| Send (w : BrowserWindow) (channel : string) (path preview : string).

End Screenshot.

(** [this.getMainWindow()]; the state counts the calls. *)
Definition readMainWindow (env : Screenshot.Env)
  : M Screenshot.Effect nat (option BrowserWindow) :=
  n <- get ;; modify S ;; ret (Screenshot.mainWindowAt env n).

(** [takeScreenshot()]: the helper is handed the two callbacks that hide and
    show the main window; what it does with them is its own affair, and the
    outcome of its promise is the outcome of the method. *)
Definition takeScreenshot (env : Screenshot.Env)
  : M Screenshot.Effect nat string :=
  win <- readMainWindow env ;;
  match win with
  | None => throw "No main window available"
  | Some _ =>
      tell Screenshot.TakeScreenshot ;;
      liftRes (Screenshot.helper_takeScreenshot env)
  end.

(** [getImagePreview(filepath)] *)
Definition getImagePreview (env : Screenshot.Env) (filepath : string)
  : M Screenshot.Effect nat string :=
  tell (Screenshot.GetImagePreview filepath) ;;
  liftRes (Screenshot.helper_getImagePreview env filepath).

(** The [click] handler of the tray entry "Take Screenshot" in
    [createTray]. *)
Definition trayTakeScreenshot (env : Screenshot.Env)
  : M Screenshot.Effect nat unit :=
  tryCatch
    (screenshotPath <- takeScreenshot env ;;
     preview <- getImagePreview env screenshotPath ;;
     mainWindow <- readMainWindow env ;;
     match mainWindow with
     | Some b =>
         tell (Screenshot.Send b "screenshot-taken" screenshotPath preview)
     | None => ret tt
     end)
    (fun error =>
       tell (Screenshot.Log Error "Error taking screenshot from tray:")).

Definition isHelperCall (e : Screenshot.Effect) : bool :=
  match e with
  | Screenshot.TakeScreenshot => true
  | Screenshot.GetImagePreview _ => true
  | _ => false
  end.

Definition isScreenshotError (e : Screenshot.Effect) : bool :=
  match e with
  | Screenshot.Log Error _ => true
  | _ => false
  end.

Definition isScreenshotSend (e : Screenshot.Effect) : bool :=
  match e with
  | Screenshot.Send _ _ _ _ => true
  | _ => false
  end.

(** A screenshot is taken and previewed while the window closes. *)
Definition closingWindow : Screenshot.Env :=
  {| Screenshot.mainWindowAt :=
       fun n => match n with O => Some 7%nat | _ => None end;
     Screenshot.helper_takeScreenshot := Ok "/tmp/shot.png";
     Screenshot.helper_getImagePreview := fun _ => Ok "data:image/png" |}.

(** ** The wiring as a whole *)

(** The listeners of the two captures, where they exist. *)
Definition captureEmitters (w : AppState)
  : option (list (string * Listener)) * option (list (string * Listener)) :=
  (option_map SystemAudioCapture.emitter (systemAudioCapture w),
   option_map MicrophoneCapture.emitter (microphoneCapture w)).

(** A handle that is missing or has no listener. *)
Definition bare (o : option (list (string * Listener))) : bool :=
  match o with
  | Some (_ :: _) => false
  | _ => true
  end.

Definition isMainError (e : Effect) : bool :=
  match e with
  | ELog Error _ => true
  | _ => false
  end.

Definition isStartEffect (e : Effect) : bool :=
  match e with
  | ECapture _ (HNative NStart) => true
  | EStt _ (HStt SStart) => true
  | _ => false
  end.

(** The microphone capture, if there is one, has an ['error'] listener. *)
Definition micGuarded (w : AppState) : bool :=
  match microphoneCapture w with
  | Some h => negb (Nat.eqb (listenerCount "error" h) 0)
  | None => true
  end.

(** An environment whose microphone is found but fails to start. *)
Definition deafEnv : Env :=
  {| RustMicCapture := Some (fun _ => Ok brokenMonitor);
     SystemAudioCapture_ctor := SystemAudioCapture_ctor sampleEnv;
     GoogleSTT_ctor := GoogleSTT_ctor sampleEnv;
     Date_now := Date_now sampleEnv;
     intelligence_stopMeeting := intelligence_stopMeeting sampleEnv;
     db_getRecentMeetings := db_getRecentMeetings sampleEnv;
     db_getMeetingDetails := db_getMeetingDetails sampleEnv;
     rag_processMeeting := rag_processMeeting sampleEnv |}.

(** [{ title, calendarEventId, source: 'calendar' }]: a meeting requested
    from a calendar notification carries no audio preferences. *)
Definition fromCalendar (eventTitle : string) : Metadata :=
  {| title := Some eventTitle; audio := None |}.

(** A call of the native stop of the microphone. *)
Definition isMicNativeStop (e : Effect) : bool :=
  match e with
  | ECapture Microphone (HNative NStop) => true
  | _ => false
  end.

(** The microphone capture runs on a native monitor. *)
Definition micRunning (w : AppState) : bool :=
  match microphoneCapture w with
  | Some h =>
      MicrophoneCapture.isRecording h && isSome (MicrophoneCapture.monitor h)
  | None => false
  end.

(** The microphone capture, if there is one, is not recording. *)
Definition micIdle (w : AppState) : bool :=
  match microphoneCapture w with
  | Some h => negb (MicrophoneCapture.isRecording h)
  | None => true
  end.

(** A meeting is running on the sample devices. *)
Definition runningPipeline : AppState :=
  state (startMeeting sampleEnv None pausedPipeline).

(** ** Storage that holds a meeting: two more situations *)

(** Storage holds a meeting and the finalization fails. *)
Definition unsavedEnv : Env :=
  {| RustMicCapture := RustMicCapture recordedEnv;
     SystemAudioCapture_ctor := SystemAudioCapture_ctor recordedEnv;
     GoogleSTT_ctor := GoogleSTT_ctor recordedEnv;
     Date_now := Date_now recordedEnv;
     intelligence_stopMeeting := Throw "save failed";
     db_getRecentMeetings := db_getRecentMeetings recordedEnv;
     db_getMeetingDetails := db_getMeetingDetails recordedEnv;
     rag_processMeeting := rag_processMeeting recordedEnv |}.

(** The pipeline as the constructor of [AppState] leaves it when no RAG
    manager could be made. *)
Definition pausedWithoutRag : AppState :=
  state (setupSystemAudioPipeline recordedEnv
           (initialState None sampleWindows)).

(** * Properties *)

(** ** The monad and the emitter *)

(** An event other than ['error'] never throws. *)
Lemma emit_plain {S} `{EventEmitter S} (name : string) (p : Payload) (s : S) :
  String.eqb name "error" = false ->
  emit name p s
  = (Ok (negb (Nat.eqb (listenerCount name s) 0)), s,
     HEmit name p
     :: map (fun l => HInvoke l p) (listenersFor name (listeners s))).
Proof.
  intros Hn. unfold emit, listenerCount. rewrite Hn.
  destruct (listenersFor name (listeners s)); reflexivity.
Qed.

(** ** MicrophoneCapture *)

Lemma mic_stop_idle (h : MicrophoneCapture.t) :
  MicrophoneCapture.isRecording h = false ->
  MicrophoneCapture.stop h = (Ok tt, h, []).
Proof.
  intros Hr. unfold MicrophoneCapture.stop, bind, get. rewrite Hr. reflexivity.
Qed.

Lemma mic_stop_recording (h : MicrophoneCapture.t) :
  MicrophoneCapture.isRecording h = true ->
  MicrophoneCapture.stop h = (Ok tt, stopped h, stopTrace h).
Proof.
  intros Hr. unfold MicrophoneCapture.stop, stopTrace, stopped.
  unfold bind at 1. unfold get at 1. rewrite Hr. cbn [negb].
  destruct h as [mon rec dev em]. cbn in Hr. subst rec.
  destruct mon as [m|]; [destruct (mon_stop m) as [[]|e] eqn:Hs|];
    unfold bind, tryCatch, console, native, tell, liftRes, modify, ret;
    cbn; rewrite ?Hs; cbn;
    rewrite emit_plain by reflexivity; cbn; rewrite ?app_nil_r; reflexivity.
Qed.

Lemma emit_error {S} `{EventEmitter S} (p : Payload) (s : S) :
  emit "error" p s
  = (if Nat.eqb (listenerCount "error" s) 0
     then Throw (payload_err p) else Ok true,
     s,
     HEmit "error" p
     :: map (fun l => HInvoke l p) (listenersFor "error" (listeners s))).
Proof.
  unfold emit, listenerCount.
  destruct (listenersFor "error" (listeners s)); reflexivity.
Qed.

Lemma mic_start_recording (h : MicrophoneCapture.t) :
  MicrophoneCapture.isRecording h = true ->
  MicrophoneCapture.start h = (Ok tt, h, []).
Proof.
  intros Hr. unfold MicrophoneCapture.start, bind, get. rewrite Hr. reflexivity.
Qed.

Lemma mic_start_no_monitor (h : MicrophoneCapture.t) :
  MicrophoneCapture.isRecording h = false ->
  MicrophoneCapture.monitor h = None ->
  MicrophoneCapture.start h
  = (Ok tt, h, [HLog Error "[MicrophoneCapture] Monitor not initialized"]).
Proof.
  intros Hr Hm. unfold MicrophoneCapture.start, bind, get.
  rewrite Hr, Hm. reflexivity.
Qed.

Lemma mic_start_native_ok (h : MicrophoneCapture.t) (m : Monitor) :
  MicrophoneCapture.isRecording h = false ->
  MicrophoneCapture.monitor h = Some m ->
  mon_start m = Ok tt ->
  MicrophoneCapture.start h
  = (Ok tt, MicrophoneCapture.set_isRecording true h, startTrace h).
Proof.
  intros Hr Hm Hs. unfold MicrophoneCapture.start, startTrace.
  unfold bind at 1. unfold get at 1. rewrite Hr, Hm.
  unfold bind, tryCatch, console, native, tell, liftRes, modify, ret.
  cbn. rewrite Hs. cbn.
  rewrite emit_plain by reflexivity. cbn. rewrite ?app_nil_r. reflexivity.
Qed.

Lemma mic_start_native_throws (h : MicrophoneCapture.t) (m : Monitor)
    (e : Err) :
  MicrophoneCapture.isRecording h = false ->
  MicrophoneCapture.monitor h = Some m ->
  mon_start m = Throw e ->
  MicrophoneCapture.start h
  = (if Nat.eqb (listenerCount "error" h) 0 then Throw e else Ok tt,
     h, startFailureTrace e h).
Proof.
  intros Hr Hm Hs. unfold MicrophoneCapture.start, startFailureTrace.
  unfold bind at 1. unfold get at 1. rewrite Hr, Hm.
  unfold bind, tryCatch, console, native, tell, liftRes, modify, ret.
  cbn. rewrite Hs. cbn.
  rewrite emit_error. unfold listenerCount.
  destruct (Nat.eqb _ 0); cbn; rewrite ?app_nil_r; reflexivity.
Qed.

Lemma carriesAudio_invocations (p : Payload) (ls : list Listener) :
  (forall c, p <> PChunk c) ->
  forallb carriesAudio (map (fun l => HInvoke l p) ls) = true.
Proof.
  intros Hp. induction ls as [|l ls IH]; [reflexivity|].
  cbn. rewrite IH. destruct p; try reflexivity. now elim (Hp chunk).
Qed.

Lemma carriesAudio_chunk_invocations (c : Buffer) (ls : list Listener) :
  (0 <? Z.of_nat (List.length c)) = true ->
  forallb carriesAudio (map (fun l => HInvoke l (PChunk c)) ls) = true.
Proof.
  intros Hc. induction ls as [|l ls IH]; [reflexivity|].
  cbn [map forallb carriesAudio]. now rewrite Hc, IH.
Qed.

Lemma mic_start_carriesAudio (h : MicrophoneCapture.t) :
  forallb carriesAudio (trace (MicrophoneCapture.start h)) = true.
Proof.
  destruct (MicrophoneCapture.isRecording h) eqn:Hr.
  - now rewrite mic_start_recording.
  - destruct (MicrophoneCapture.monitor h) as [m|] eqn:Hm.
    + destruct (mon_start m) as [[]|e] eqn:Hs.
      * rewrite (mic_start_native_ok h m Hr Hm Hs). cbn.
        now apply carriesAudio_invocations.
      * rewrite (mic_start_native_throws h m e Hr Hm Hs). cbn.
        now apply carriesAudio_invocations.
    + now rewrite mic_start_no_monitor.
Qed.

Lemma mic_stop_carriesAudio (h : MicrophoneCapture.t) :
  forallb carriesAudio (trace (MicrophoneCapture.stop h)) = true.
Proof.
  destruct (MicrophoneCapture.isRecording h) eqn:Hr.
  - rewrite (mic_stop_recording h Hr). unfold stopTrace, trace. cbn [snd].
    cbn [forallb carriesAudio andb]. rewrite forallb_app.
    apply andb_true_intro; split.
    + destruct (MicrophoneCapture.monitor h) as [m|]; [|reflexivity].
      now destruct (mon_stop m).
    + cbn. now apply carriesAudio_invocations.
  - now rewrite mic_stop_idle.
Qed.

Lemma mic_onChunk_eq (chunk : option Buffer) (h : MicrophoneCapture.t) :
  MicrophoneCapture.onChunk chunk h
  = match chunk with
    | Some (b :: c) =>
        (Ok tt, h,
         HEmit "data" (PChunk (b :: c))
         :: map (fun l => HInvoke l (PChunk (b :: c)))
                (listenersFor "data" (MicrophoneCapture.emitter h)))
    | _ => (Ok tt, h, [])
    end.
Proof.
  destruct chunk as [[|b c]|]; try reflexivity.
  unfold MicrophoneCapture.onChunk.
  replace (0 <? Z.of_nat (List.length (b :: c))) with true
    by (symmetry; apply Z.ltb_lt; cbn [List.length]; lia).
  unfold bind. rewrite emit_plain by reflexivity. cbn.
  rewrite ?app_nil_r. reflexivity.
Qed.

Lemma mic_op_carriesAudio (op : MicOp) (h : MicrophoneCapture.t) :
  forallb carriesAudio (trace (runMicOp op h)) = true.
Proof.
  destruct op as [| | |name l|chunk]; cbn [runMicOp].
  - apply mic_start_carriesAudio.
  - apply mic_stop_carriesAudio.
  - unfold MicrophoneCapture.getSampleRate, bind, get, native, tell, liftRes.
    destruct (MicrophoneCapture.monitor h) as [m|]; [|reflexivity].
    now destruct (mon_getSampleRate m).
  - reflexivity.
  - rewrite mic_onChunk_eq. destruct chunk as [[|b c]|]; try reflexivity.
    unfold trace. cbn [snd forallb]. 
    assert (Hc : (0 <? Z.of_nat (List.length (b :: c))) = true)
      by (apply Z.ltb_lt; cbn [List.length]; lia).
    cbn [carriesAudio String.eqb Ascii.eqb Bool.eqb]. rewrite Hc.
    now apply carriesAudio_chunk_invocations.
Qed.

(** C10. In every history of a microphone handle (any handle, any sequence
    of start, stop, getSampleRate, listener registration and chunks handed
    over by the native layer, null and empty ones included), each ['data']
    event and each listener call with a chunk carries a chunk of positive
    length; a null or empty chunk produces no event at all, and a non-empty
    one is emitted as it is. *)
Theorem data_events_carry_audio :
  (forall (ops : list MicOp) (h : MicrophoneCapture.t),
      forallb carriesAudio (snd (runMicOps ops h)) = true)
  /\ (forall h, trace (MicrophoneCapture.onChunk None h) = [])
  /\ (forall h, trace (MicrophoneCapture.onChunk (Some []) h) = [])
  /\ (forall h b c,
         existsb (isEmit "data")
                 (trace (MicrophoneCapture.onChunk (Some (b :: c)) h)) = true).
Proof.
  repeat split.
  - induction ops as [|op ops IH]; intros h; [reflexivity|].
    cbn [runMicOps snd]. rewrite forallb_app, mic_op_carriesAudio.
    apply IH.
  - intros h b c. now rewrite mic_onChunk_eq.
Qed.

(** C5 (the code departs from the claim). Once a recording handle has been
    stopped its monitor is gone: the next [start()] only logs
    "Monitor not initialized", makes no native call, hands no callback to
    the native layer and leaves the handle not recording. *)
Theorem restart_after_stop_stays_idle (h : MicrophoneCapture.t) :
  MicrophoneCapture.isRecording h = true ->
  let h1 := state (MicrophoneCapture.stop h) in
  MicrophoneCapture.start h1
  = (Ok tt, h1, [HLog Error "[MicrophoneCapture] Monitor not initialized"])
  /\ MicrophoneCapture.isRecording h1 = false
  /\ MicrophoneCapture.monitor h1 = None.
Proof.
  intros Hr h1. subst h1. rewrite (mic_stop_recording h Hr).
  unfold state. cbn [fst snd].
  split; [|split; reflexivity].
  now apply mic_start_no_monitor.
Qed.

Lemma restart_after_stop_stays_idle_witness :
  let h := state (MicrophoneCapture.start (wiredMic (Some workingMonitor) false)) in
  MicrophoneCapture.isRecording h = true
  /\ MicrophoneCapture.isRecording
       (state (MicrophoneCapture.start (state (MicrophoneCapture.stop h))))
     = false.
Proof.
  split; [reflexivity|].
  destruct (restart_after_stop_stays_idle
              (state (MicrophoneCapture.start
                        (wiredMic (Some workingMonitor) false)))
              eq_refl) as [Hs [Hr _]].
  rewrite Hs. exact Hr.
Defined.

(** C6, as stated, fails where the monitor is unavailable: [start()] leaves
    the handle idle and emits no ['error'] event, whoever listens. *)
Lemma start_without_monitor_emits_no_error :
  let h0 := wiredMic None false in
  MicrophoneCapture.isRecording (state (MicrophoneCapture.start h0)) = false
  /\ existsb (isEmit "error") (trace (MicrophoneCapture.start h0)) = false.
Proof. split; reflexivity. Qed.

(** C6, amended. On a handle that is not recording: when the monitor is
    unavailable, [start()] logs an error and returns, with no event and no
    change of state; when the native start throws [e], [start()] leaves the
    state unchanged, emits ['error'] with [e], and returns normally as soon
    as an ['error'] listener is registered. *)
Theorem start_failure_paths (h : MicrophoneCapture.t) :
  MicrophoneCapture.isRecording h = false ->
  (MicrophoneCapture.monitor h = None ->
   MicrophoneCapture.start h
   = (Ok tt, h, [HLog Error "[MicrophoneCapture] Monitor not initialized"]))
  /\ (forall m e,
         MicrophoneCapture.monitor h = Some m ->
         mon_start m = Throw e ->
         state (MicrophoneCapture.start h) = h
         /\ In (HEmit "error" (PError e)) (trace (MicrophoneCapture.start h))
         /\ (listenerCount "error" h <> 0%nat ->
             result (MicrophoneCapture.start h) = Ok tt)).
Proof.
  intros Hr. split.
  - intros Hm. now apply mic_start_no_monitor.
  - intros m e Hm Hs. rewrite (mic_start_native_throws h m e Hr Hm Hs).
    split; [reflexivity|]. split.
    + unfold trace, startFailureTrace. cbn. tauto.
    + intros Hc. unfold result. cbn [fst].
      destruct (Nat.eqb_spec (listenerCount "error" h) 0); [contradiction|].
      reflexivity.
Qed.

Lemma start_failure_paths_witness :
  let h := wiredMic (Some brokenMonitor) false in
  result (MicrophoneCapture.start h) = Ok tt
  /\ state (MicrophoneCapture.start h) = h
  /\ In (HEmit "error" (PError "start failed"))
        (trace (MicrophoneCapture.start h))
  /\ MicrophoneCapture.start (wiredMic None false)
     = (Ok tt, wiredMic None false,
        [HLog Error "[MicrophoneCapture] Monitor not initialized"]).
Proof.
  destruct (start_failure_paths (wiredMic (Some brokenMonitor) false) eq_refl)
    as [_ Hthrow].
  destruct (Hthrow brokenMonitor "start failed" eq_refl eq_refl)
    as [Hstate [Hemit Hres]].
  destruct (start_failure_paths (wiredMic None false) eq_refl) as [Hnone _].
  split; [apply Hres; cbn; discriminate|].
  split; [exact Hstate|]. split; [exact Hemit|].
  apply Hnone. reflexivity.
Defined.

(** ** Calls on the handles of [AppState] *)

Lemma bind_ok {E S A B} (m : M E S A) (k : A -> M E S B) (s s1 : S)
    (a : A) (t1 : list E) :
  m s = (Ok a, s1, t1) ->
  bind m k s = (result (k a s1), state (k a s1), t1 ++ trace (k a s1)).
Proof.
  intros Hm. unfold bind. rewrite Hm.
  destruct (k a s1) as [[r s2] t2]. reflexivity.
Qed.

Lemma state_triple {E S A} (r : Res A) (s : S) (t : list E) :
  state (r, s, t) = s.
Proof. reflexivity. Qed.

Lemma trace_triple {E S A} (r : Res A) (s : S) (t : list E) :
  trace (r, s, t) = t.
Proof. reflexivity. Qed.

Lemma runListener_quiet (env : Env) (l : Listener) (p : Payload)
    (w : AppState) :
  quietEffect (HInvoke l p) = true ->
  runListener env l p w
  = (Ok tt, w, match l with L_logError tag => [ELog Error tag] | _ => [] end).
Proof.
  destruct l, p; cbn; intros Hq; try discriminate; reflexivity.
Qed.

Lemma dispatch_quiet (env : Env) (wrap : HEffect -> Effect)
    (es : list HEffect) (w : AppState) :
  quiet es = true ->
  dispatch env wrap es w = (Ok tt, w, quietTrace wrap es).
Proof.
  induction es as [|e es IH]; intros Hq; [reflexivity|].
  cbn in Hq. apply andb_prop in Hq. destruct Hq as [He Hes].
  cbn [dispatch quietTrace flat_map]. unfold bind, tell.
  destruct e as [lv msg|c|c|name l|name p|l p]; cbn;
    try (rewrite (IH Hes); reflexivity).
  rewrite (runListener_quiet env l p w He). rewrite (IH Hes).
  destruct l; reflexivity.
Qed.

Lemma invoke_quiet {H A} (env : Env) (f : Field H) (m : M HEffect H A)
    (w : AppState) (h : H) :
  fget f w = Some h ->
  quiet (trace (m h)) = true ->
  invoke env f m w
  = (result (m h), fset f (Some (state (m h))) w,
     quietTrace (fwrap f) (trace (m h))).
Proof.
  intros Hf Hq. unfold invoke. rewrite Hf.
  destruct (m h) as [[r h'] es]. unfold trace in Hq. cbn [snd] in Hq.
  unfold bind. rewrite (dispatch_quiet env (fwrap f) es _ Hq).
  unfold liftRes, result, state, trace. cbn. now rewrite app_nil_r.
Qed.

Lemma invoke_opt_quiet {H A} (env : Env) (f : Field H) (m : M HEffect H A)
    (w : AppState) :
  (forall h, quiet (trace (m h)) = true) ->
  invoke_opt env f m w
  = (match fget f w with
     | Some h => voidRes (result (m h))
     | None => Ok tt
     end,
     applyTo f (fun h => state (m h)) w,
     match fget f w with
     | Some h => quietTrace (fwrap f) (trace (m h))
     | None => []
     end).
Proof.
  intros Hq. unfold invoke_opt, applyTo. unfold bind at 1. unfold get.
  destruct (fget f w) as [h|] eqn:Hf; [|reflexivity].
  unfold bind. rewrite (invoke_quiet env f m w h Hf (Hq h)).
  unfold ret. cbn. destruct (result (m h)); cbn; now rewrite ?app_nil_r.
Qed.

(** ** The handle methods used by the lifecycle are quiet *)

Lemma quiet_invocations (p : Payload) (ls : list Listener) :
  quietEffect (HInvoke L_transcript_user p) = true ->
  quiet (map (fun l => HInvoke l p) ls) = true.
Proof.
  intros Hp. induction ls as [|l ls IH]; [reflexivity|].
  cbn. unfold quiet in IH. rewrite IH. now destruct p.
Qed.

Lemma quiet_app (a b : list HEffect) :
  quiet (a ++ b) = quiet a && quiet b.
Proof. apply forallb_app. Qed.

Lemma quiet_mic_stop (h : MicrophoneCapture.t) :
  quiet (trace (MicrophoneCapture.stop h)) = true.
Proof.
  destruct (MicrophoneCapture.isRecording h) eqn:Hr.
  - rewrite (mic_stop_recording h Hr). unfold trace, stopTrace. cbn [snd].
    change (?a :: ?b ++ ?c) with ((a :: b) ++ c). rewrite quiet_app.
    apply andb_true_intro; split.
    + destruct (MicrophoneCapture.monitor h) as [m|]; [|reflexivity].
      now destruct (mon_stop m).
    + cbn. now apply quiet_invocations.
  - now rewrite mic_stop_idle.
Qed.

Lemma quiet_mic_start (h : MicrophoneCapture.t) :
  quiet (trace (MicrophoneCapture.start h)) = true.
Proof.
  destruct (MicrophoneCapture.isRecording h) eqn:Hr.
  - now rewrite mic_start_recording.
  - destruct (MicrophoneCapture.monitor h) as [m|] eqn:Hm.
    + destruct (mon_start m) as [[]|e] eqn:Hs.
      * rewrite (mic_start_native_ok h m Hr Hm Hs). cbn.
        now apply quiet_invocations.
      * rewrite (mic_start_native_throws h m e Hr Hm Hs). cbn.
        now apply quiet_invocations.
    + now rewrite mic_start_no_monitor.
Qed.

Lemma quiet_mic_getSampleRate (h : MicrophoneCapture.t) :
  quiet (trace (MicrophoneCapture.getSampleRate h)) = true.
Proof.
  unfold MicrophoneCapture.getSampleRate, bind, get, native, tell, liftRes.
  destruct (MicrophoneCapture.monitor h) as [m|]; [|reflexivity].
  now destruct (mon_getSampleRate m).
Qed.

Lemma sys_stop_eq (h : SystemAudioCapture.t) :
  SystemAudioCapture.stop h
  = (Ok tt,
     if SystemAudioCapture.active h
     then SystemAudioCapture.set_active false h else h,
     if SystemAudioCapture.active h
     then match SystemAudioCapture.monitor h with
          | Some m =>
              HNative NStop
              :: match mon_stop m with
                 | Ok _ => []
                 | Throw _ => [HLog Error "[SystemAudioCapture] Error stopping:"]
                 end
          | None => []
          end
     else []).
Proof.
  unfold SystemAudioCapture.stop. unfold bind at 1. unfold get at 1.
  destruct (SystemAudioCapture.active h); [|reflexivity]. cbn [negb].
  destruct (SystemAudioCapture.monitor h) as [m|];
    [destruct (mon_stop m) as [[]|e] eqn:Hs|];
    unfold bind, tryCatch, console, native, tell, liftRes, modify, ret;
    cbn; rewrite ?Hs; cbn; reflexivity.
Qed.

Lemma quiet_sys_stop (h : SystemAudioCapture.t) :
  quiet (trace (SystemAudioCapture.stop h)) = true.
Proof.
  rewrite sys_stop_eq. unfold trace. cbn [snd].
  destruct (SystemAudioCapture.active h); [|reflexivity].
  destruct (SystemAudioCapture.monitor h) as [m|]; [|reflexivity].
  now destruct (mon_stop m).
Qed.

(** The start of the system capture never throws; it becomes active exactly
    when the underlying start returns. *)
Lemma sys_start_eq (h : SystemAudioCapture.t) :
  exists t,
    SystemAudioCapture.start h
    = (Ok tt,
       if SystemAudioCapture.active h then h
       else match SystemAudioCapture.monitor h with
            | Some {| mon_start := Ok _ |} =>
                SystemAudioCapture.set_active true h
            | _ => h
            end,
       t)
    /\ quiet t = true.
Proof.
  unfold SystemAudioCapture.start. unfold bind at 1. unfold get at 1.
  destruct (SystemAudioCapture.active h); [now exists []|].
  destruct (SystemAudioCapture.monitor h) as [[gr [[]|e] sp]|].
  - eexists; split; [reflexivity|reflexivity].
  - unfold bind, tryCatch, native, tell, liftRes, modify, ret. cbn.
    rewrite emit_error.
    destruct (Nat.eqb _ 0); cbn; eexists; (split; [reflexivity|]);
      cbn; rewrite ?app_nil_r; try reflexivity;
      now apply quiet_invocations.
  - unfold bind, tryCatch, native, tell, liftRes, modify, ret.
    rewrite emit_error.
    destruct (Nat.eqb _ 0); cbn; eexists; (split; [reflexivity|]);
      cbn; rewrite ?app_nil_r; try reflexivity;
      now apply quiet_invocations.
Qed.

Lemma quiet_sys_start (h : SystemAudioCapture.t) :
  quiet (trace (SystemAudioCapture.start h)) = true.
Proof. destruct (sys_start_eq h) as [t [Heq Hq]]. now rewrite Heq. Qed.

Lemma quiet_sys_getSampleRate (h : SystemAudioCapture.t) :
  quiet (trace (SystemAudioCapture.getSampleRate h)) = true.
Proof.
  unfold SystemAudioCapture.getSampleRate, bind, get, ret.
  destruct (SystemAudioCapture.monitor h) as [m|]; [|reflexivity].
  now destruct (mon_getSampleRate m).
Qed.

Lemma quiet_stt_stop (h : GoogleSTT.t) :
  quiet (trace (GoogleSTT.stop h)) = true.
Proof. unfold GoogleSTT.stop, bind, get. now destruct (GoogleSTT.st h). Qed.

Lemma quiet_stt_start (h : GoogleSTT.t) :
  quiet (trace (GoogleSTT.start h)) = true.
Proof. unfold GoogleSTT.start, bind, get. now destruct (GoogleSTT.st h). Qed.

Lemma quiet_stt_setSampleRate (n : Z) (h : GoogleSTT.t) :
  quiet (trace (GoogleSTT.setSampleRate n h)) = true.
Proof. reflexivity. Qed.

Create HintDb quiet.
#[local] Hint Resolve quiet_mic_stop quiet_mic_start quiet_mic_getSampleRate
  quiet_sys_stop quiet_sys_start quiet_sys_getSampleRate
  quiet_stt_stop quiet_stt_start quiet_stt_setSampleRate : quiet.

(** ** Post-session processing *)

Lemma process_spec (env : Env) (w : AppState) :
  exists t,
    processCompletedMeetingForRAG env w = (Ok tt, w, t)
    /\ processCalls t
       = (if isSome (ragManager w) && nonEmpty (storedTranscript env)
          then 1 else 0)%nat
    /\ forallb (fun e => negb (isHandleEffect e)) t = true.
Proof.
  unfold processCompletedMeetingForRAG, storedTranscript.
  unfold bind at 1. unfold get at 1.
  destruct (ragManager w) as [rag|]; [|now exists []].
  unfold tryCatch, bind, tell, liftRes, log, ret. cbn.
  destruct (db_getRecentMeetings env 1) as [[|m0 ms]|e1]; cbn;
    try (eexists; split; [reflexivity|split; reflexivity]).
  destruct (db_getMeetingDetails env (meeting_id m0)) as [[meeting|]|e2]; cbn;
    try (eexists; split; [reflexivity|split; reflexivity]).
  destruct (transcript meeting) as [[|row rows]|]; cbn;
    try (eexists; split; [reflexivity|split; reflexivity]).
  destruct (rag_processMeeting env _ _ _) as [n|e3]; cbn;
    eexists; (split; [reflexivity|split; reflexivity]).
Qed.

(** ** endMeeting *)

Lemma invoke_opt_total {H A} (env : Env) (f : Field H) (m : M HEffect H A)
    (w : AppState) :
  (forall h, quiet (trace (m h)) = true) ->
  (forall h, is_ok (result (m h)) = true) ->
  invoke_opt env f m w
  = (Ok tt, applyTo f (fun h => state (m h)) w, handleTrace f m w).
Proof.
  intros Hq Hok. rewrite (invoke_opt_quiet env f m w Hq). unfold handleTrace.
  destruct (fget f w) as [h|]; [|reflexivity].
  specialize (Hok h). now destruct (result (m h)).
Qed.

Lemma mic_stop_ok (h : MicrophoneCapture.t) :
  is_ok (result (MicrophoneCapture.stop h)) = true.
Proof.
  destruct (MicrophoneCapture.isRecording h) eqn:Hr.
  - now rewrite mic_stop_recording.
  - now rewrite mic_stop_idle.
Qed.

Lemma sys_stop_ok (h : SystemAudioCapture.t) :
  is_ok (result (SystemAudioCapture.stop h)) = true.
Proof. now rewrite sys_stop_eq. Qed.

Lemma stt_stop_ok (h : GoogleSTT.t) :
  is_ok (result (GoogleSTT.stop h)) = true.
Proof. unfold GoogleSTT.stop, bind, get. now destruct (GoogleSTT.st h). Qed.

Lemma fget_applyTo_other {H H'} (f : Field H) (f' : Field H')
    (g : H' -> H') (w : AppState) :
  (forall v w0, fget f (fset f' v w0) = fget f w0) ->
  fget f (applyTo f' g w) = fget f w.
Proof. intros Hi. unfold applyTo. destruct (fget f' w); [apply Hi|reflexivity]. Qed.

Lemma handleTrace_applyTo {H H' A} (f : Field H) (f' : Field H')
    (m : M HEffect H A) (g : H' -> H') (w : AppState) :
  (forall v w0, fget f (fset f' v w0) = fget f w0) ->
  handleTrace f m (applyTo f' g w) = handleTrace f m w.
Proof. intros Hi. unfold handleTrace. now rewrite fget_applyTo_other. Qed.

Lemma endMeeting_eq (env : Env) (w : AppState) :
  endMeeting env w
  = match intelligence_stopMeeting env with
    | Ok _ =>
        (Ok tt, stopAll w,
         ELog Info "[Main] Ending Meeting..."
         :: teardownTrace w
         ++ EStopMeeting
         :: trace (processCompletedMeetingForRAG env (stopAll w)))
    | Throw e =>
        (Throw e, stopAll w,
         ELog Info "[Main] Ending Meeting..."
         :: teardownTrace w ++ [EStopMeeting])
    end.
Proof.
  unfold endMeeting, bind, log, tell.
  rewrite (invoke_opt_total env F_systemAudioCapture _ w
             quiet_sys_stop sys_stop_ok).
  rewrite (invoke_opt_total env (F_stt SystemAudio) _ _
             quiet_stt_stop stt_stop_ok).
  rewrite (invoke_opt_total env F_microphoneCapture _ _
             quiet_mic_stop mic_stop_ok).
  rewrite (invoke_opt_total env (F_stt Microphone) _ _
             quiet_stt_stop stt_stop_ok).
  fold (stopAll w). unfold liftRes.
  rewrite !handleTrace_applyTo by reflexivity.
  unfold teardownTrace.
  destruct (intelligence_stopMeeting env) as [[]|e].
  - destruct (process_spec env (stopAll w)) as [t [Hp _]]. rewrite Hp.
    unfold trace. cbn [snd]. cbn [app]. now rewrite <- !app_assoc.
  - cbn [app]. now rewrite <- !app_assoc.
Qed.

Lemma mic_stop_not_recording (h : MicrophoneCapture.t) :
  MicrophoneCapture.isRecording (state (MicrophoneCapture.stop h)) = false.
Proof.
  destruct (MicrophoneCapture.isRecording h) eqn:Hr.
  - now rewrite mic_stop_recording.
  - now rewrite mic_stop_idle.
Qed.

Lemma sys_stop_inactive (h : SystemAudioCapture.t) :
  SystemAudioCapture.active (state (SystemAudioCapture.stop h)) = false.
Proof.
  rewrite sys_stop_eq. unfold state. cbn [fst snd].
  now destruct (SystemAudioCapture.active h) eqn:Ha.
Qed.

Lemma stt_stop_not_listening (h : GoogleSTT.t) :
  listening (state (GoogleSTT.stop h)) = false.
Proof.
  unfold GoogleSTT.stop, bind, get, listening.
  now destruct (GoogleSTT.st h) eqn:Hs; cbn; rewrite ?Hs.
Qed.

Lemma allStopped_stopAll (w : AppState) : allStopped (stopAll w) = true.
Proof.
  destruct w as [sa mc g1 g2 rag wh ck].
  unfold stopAll, applyTo, allStopped.
  destruct sa as [a|], mc as [m|], g1 as [s1|], g2 as [s2|];
    cbn -[MicrophoneCapture.stop SystemAudioCapture.stop GoogleSTT.stop];
    rewrite ?sys_stop_inactive, ?mic_stop_not_recording,
      ?stt_stop_not_listening; reflexivity.
Qed.

Lemma ragManager_stopAll (w : AppState) :
  ragManager (stopAll w) = ragManager w.
Proof.
  destruct w as [sa mc g1 g2 rag wh ck]. unfold stopAll, applyTo.
  destruct sa, mc, g1, g2; reflexivity.
Qed.

Lemma quietTrace_handles (wrap : HEffect -> Effect) (es : list HEffect) :
  (forall e, isHandleEffect (wrap e) = true) ->
  forallb (fun e => isHandleEffect e || isLog e) (quietTrace wrap es) = true.
Proof.
  intros Hw. induction es as [|e es IH]; [reflexivity|].
  cbn [quietTrace flat_map]. rewrite forallb_app.
  apply andb_true_intro; split; [|exact IH].
  cbn. rewrite Hw. destruct e as [| | | | |[] p]; reflexivity.
Qed.

Lemma handleTrace_handles {H A} (f : Field H) (m : M HEffect H A)
    (w : AppState) :
  (forall e, isHandleEffect (fwrap f e) = true) ->
  forallb (fun e => isHandleEffect e || isLog e) (handleTrace f m w) = true.
Proof.
  intros Hw. unfold handleTrace.
  destruct (fget f w); [now apply quietTrace_handles|reflexivity].
Qed.

Lemma teardownTrace_handles (w : AppState) :
  forallb (fun e => isHandleEffect e || isLog e) (teardownTrace w) = true.
Proof.
  unfold teardownTrace. rewrite !forallb_app.
  rewrite !handleTrace_handles; reflexivity.
Qed.

(** C9. [endMeeting] leaves the trace: the four stop calls, then the
    finalization [stopMeeting], then post-session processing. When the
    finalization is over both captures are stopped and both streams closed.
    [processMeeting] is called once when the finalization returned, the RAG
    manager exists and storage holds a non-empty transcript for its most
    recent meeting, and not at all otherwise; skipping it raises nothing:
    the outcome of [endMeeting] is the outcome of the finalization. *)
Theorem endMeeting_stops_finalizes_then_processes (env : Env) (w : AppState) :
  exists t_post,
    trace (endMeeting env w)
    = ELog Info "[Main] Ending Meeting..."
      :: teardownTrace w ++ EStopMeeting :: t_post
    /\ forallb (fun e => isHandleEffect e || isLog e) (teardownTrace w) = true
    /\ forallb (fun e => negb (isHandleEffect e)) t_post = true
    /\ allStopped (state (endMeeting env w)) = true
    /\ processCalls t_post
       = (if is_ok (intelligence_stopMeeting env) && isSome (ragManager w)
             && nonEmpty (storedTranscript env)
          then 1 else 0)%nat
    /\ result (endMeeting env w) = intelligence_stopMeeting env.
Proof.
  rewrite endMeeting_eq.
  destruct (process_spec env (stopAll w)) as [t [Hp [Hc Hh]]].
  rewrite ragManager_stopAll in Hc.
  destruct (intelligence_stopMeeting env) as [[]|e].
  - exists t. rewrite Hp. unfold trace, state, result. cbn [fst snd is_ok andb].
    repeat split; auto using teardownTrace_handles, allStopped_stopAll.
  - exists []. unfold trace, state, result. cbn [fst snd is_ok andb].
    repeat split; auto using teardownTrace_handles, allStopped_stopAll.
Qed.

(** A meeting of two segments ends: one call of [processMeeting], after the
    finalization. *)
Lemma endMeeting_stops_finalizes_then_processes_witness :
  let w := fst (run recordedEnv [AStartMeeting None] pausedPipeline) in
  exists t_post,
    trace (endMeeting recordedEnv w)
    = ELog Info "[Main] Ending Meeting..."
      :: teardownTrace w ++ EStopMeeting :: t_post
    /\ processCalls t_post = 1%nat
    /\ result (endMeeting recordedEnv w) = Ok tt.
Proof.
  destruct (endMeeting_stops_finalizes_then_processes recordedEnv
              (fst (run recordedEnv [AStartMeeting None] pausedPipeline)))
    as [t_post [Htrace [_ [_ [_ [Hcalls Hres]]]]]].
  exists t_post. split; [exact Htrace|]. split; [exact Hcalls|exact Hres].
Defined.

(** Post-session processing is neither once per session nor decided by the
    stored transcript alone: with a non-empty stored transcript it is
    skipped when there is no RAG manager and when the finalization throws,
    and a second [endMeeting] after one meeting processes the stored meeting
    a second time. *)
Lemma processing_is_per_call_and_needs_rag_manager :
  nonEmpty (storedTranscript recordedEnv) = true
  /\ result (endMeeting recordedEnv pausedWithoutRag) = Ok tt
  /\ processCalls (trace (endMeeting recordedEnv pausedWithoutRag)) = 0%nat
  /\ processCalls (trace (endMeeting unsavedEnv pausedPipeline)) = 0%nat
  /\ processCalls
       (snd (run recordedEnv [AStartMeeting None; AEndMeeting; AEndMeeting]
               pausedPipeline)) = 2%nat.
Proof. repeat split; reflexivity. Qed.

(** ** Idle pipelines *)

Lemma stopAll_idle (w : AppState) :
  allStopped w = true -> stopAll w = w /\ teardownTrace w = [].
Proof.
  assert (Ha : forall a, negb (SystemAudioCapture.active a) = true ->
                         SystemAudioCapture.stop a = (Ok tt, a, [])).
  { intros a Hn. rewrite sys_stop_eq.
    now destruct (SystemAudioCapture.active a). }
  assert (Hm : forall m, negb (MicrophoneCapture.isRecording m) = true ->
                         MicrophoneCapture.stop m = (Ok tt, m, [])).
  { intros m Hn. apply mic_stop_idle.
    now destruct (MicrophoneCapture.isRecording m). }
  assert (Hg : forall s, negb (listening s) = true ->
                         GoogleSTT.stop s = (Ok tt, s, [])).
  { intros s Hn. unfold GoogleSTT.stop, bind, get. unfold listening in Hn.
    now destruct (GoogleSTT.st s). }
  destruct w as [sa mc g1 g2 rag wh ck].
  unfold allStopped, stopAll, teardownTrace, handleTrace, applyTo.
  destruct sa as [a|], mc as [m|], g1 as [s1|], g2 as [s2|];
    cbn -[MicrophoneCapture.stop SystemAudioCapture.stop GoogleSTT.stop];
    intros Hs; repeat (apply andb_prop in Hs; destruct Hs as [Hs ?]);
    rewrite ?Ha, ?Hm, ?Hg by assumption; split; reflexivity.
Qed.

Lemma filter_none {A} (p : A -> bool) (l : list A) :
  forallb (fun x => negb (p x)) l = true -> filter p l = [].
Proof.
  induction l as [|x l IH]; [reflexivity|].
  cbn. intros Hf. apply andb_prop in Hf. destruct Hf as [Hx Hl].
  destruct (p x); [discriminate|auto].
Qed.

Lemma setup_allStopped (env : Env) (rag : option RAGManager)
    (wh : WindowHelper) :
  allStopped (state (setupSystemAudioPipeline env (initialState rag wh)))
  = true.
Proof.
  destruct env as [rmc sctor gctor nowf stopm rec det proc].
  unfold setupSystemAudioPipeline, SystemAudioCapture.new,
    MicrophoneCapture.new, GoogleSTT.new.
  cbn [RustMicCapture SystemAudioCapture_ctor GoogleSTT_ctor or_undefined].
  destruct (sctor None) as [m|e]; [|reflexivity].
  destruct rmc as [c|]; [destruct (c None) as [m'|e']; [|reflexivity]|];
    (destruct (gctor SystemAudio) as [[]|e1]; [|reflexivity]);
    (destruct (gctor Microphone) as [[]|e2]; reflexivity).
Qed.

(** C4. A second [stop()] on a handle that has just been stopped returns
    without any effect and without changing the handle, and the first one
    never throws. On a pipeline in which nothing runs, [endMeeting] performs
    no teardown: its trace has no effect inside a capture or a stream and
    the state is unchanged. It is not free of errors or of other effects:
    its outcome is that of the finalization, and post-session processing
    runs as after any meeting, calling [processMeeting] once when the
    finalization returned, the RAG manager exists and storage holds a
    non-empty transcript for its most recent meeting. A pipeline in which
    nothing runs is what the setup leaves (whatever could be constructed,
    before any [startMeeting]) and what any [endMeeting] leaves. *)
Theorem stop_and_endMeeting_idempotent :
  (forall h : MicrophoneCapture.t,
      result (MicrophoneCapture.stop h) = Ok tt
      /\ MicrophoneCapture.stop (state (MicrophoneCapture.stop h))
         = (Ok tt, state (MicrophoneCapture.stop h), []))
  /\ (forall env w,
         allStopped w = true ->
         filter isHandleEffect (trace (endMeeting env w)) = []
         /\ state (endMeeting env w) = w
         /\ result (endMeeting env w) = intelligence_stopMeeting env
         /\ processCalls (trace (endMeeting env w))
            = (if is_ok (intelligence_stopMeeting env)
                  && isSome (ragManager w)
                  && nonEmpty (storedTranscript env)
               then 1 else 0)%nat)
  /\ (forall env rag wh,
         allStopped
           (state (setupSystemAudioPipeline env (initialState rag wh)))
         = true)
  /\ (forall env w, allStopped (state (endMeeting env w)) = true).
Proof.
  split; [|split; [|split]].
  - intros h. split.
    + pose proof (mic_stop_ok h) as Hok.
      destruct (result (MicrophoneCapture.stop h)) as [[]|e];
        [reflexivity|discriminate].
    + apply mic_stop_idle, mic_stop_not_recording.
  - intros env w Hs. destruct (stopAll_idle w Hs) as [Hw Ht].
    rewrite endMeeting_eq, Hw, Ht.
    destruct (process_spec env w) as [t [Hp [Hc Hh]]]. rewrite Hp.
    destruct (intelligence_stopMeeting env) as [[]|e];
      unfold trace, state, result;
      cbn [fst snd app filter isHandleEffect is_ok andb];
      (split; [first [reflexivity|now apply filter_none]|]);
      (split; [reflexivity|]);
      (split; [reflexivity|]).
    + exact Hc.
    + reflexivity.
  - apply setup_allStopped.
  - intros env w. rewrite endMeeting_eq.
    destruct (intelligence_stopMeeting env) as [[]|e].
    + destruct (process_spec env (stopAll w)) as [t [Hp _]].
      unfold state. cbn [fst snd]. apply allStopped_stopAll.
    + apply allStopped_stopAll.
Qed.

Lemma stop_and_endMeeting_idempotent_witness :
  allStopped pausedPipeline = true
  /\ filter isHandleEffect (trace (endMeeting sampleEnv pausedPipeline)) = []
  /\ state (endMeeting sampleEnv pausedPipeline) = pausedPipeline.
Proof.
  split; [reflexivity|].
  destruct stop_and_endMeeting_idempotent as [_ [Hidle _]].
  destruct (Hidle sampleEnv pausedPipeline eq_refl) as [Ht [Hs _]].
  split; assumption.
Defined.

(** [endMeeting] before any [startMeeting] is not without error nor without
    effect: it throws when the finalization throws, and when storage holds
    a meeting it hands that meeting to the RAG manager. *)
Lemma endMeeting_without_start_throws_and_processes :
  allStopped pausedPipeline = true
  /\ result (endMeeting unsavedEnv pausedPipeline) = Throw "save failed"
  /\ result (endMeeting recordedEnv pausedPipeline) = Ok tt
  /\ processCalls (trace (endMeeting recordedEnv pausedPipeline)) = 1%nat.
Proof. repeat split; reflexivity. Qed.

(** ** The transcript listeners *)

Lemma send_eq (win : option BrowserWindow) (payload : Segment)
    (w : AppState) :
  send win "native-audio-transcript" payload w
  = (Ok tt, w,
     match win with
     | Some b => [ESend b "native-audio-transcript" payload]
     | None => []
     end).
Proof. now destruct win. Qed.

Lemma onTranscript_interviewer_eq (env : Env) (ev : TranscriptEvent)
    (w : AppState) :
  onTranscript_interviewer env ev w
  = (Ok tt, tick (tick w),
     EHandleTranscript (routed interviewer ev (Date_now env (clockReads w)))
     :: sends (windowHelper w)
          (routed interviewer ev (Date_now env (S (clockReads w))))).
Proof.
  unfold onTranscript_interviewer, now, bind, get, modify, tell, ret.
  cbn. rewrite !send_eq. cbn. unfold sends, routed. reflexivity.
Qed.

Lemma onTranscript_user_eq (env : Env) (ev : TranscriptEvent)
    (w : AppState) :
  onTranscript_user env ev w
  = (Ok tt, tick (tick w),
     EHandleTranscript (routed user ev (Date_now env (clockReads w)))
     :: sends (windowHelper w)
          (routed user ev (Date_now env (S (clockReads w))))).
Proof.
  unfold onTranscript_user, now, bind, get, modify, tell, ret.
  cbn. rewrite !send_eq. cbn. unfold sends, routed. reflexivity.
Qed.

Lemma fset_fget_stt (r : Role) (s : GoogleSTT.t) (w : AppState) :
  fget (F_stt r) w = Some s -> fset (F_stt r) (Some s) w = w.
Proof. destruct w, r; cbn; intros ->; reflexivity. Qed.

Lemma onResult_eq (ev : TranscriptEvent) (s : GoogleSTT.t) :
  GoogleSTT.onResult ev s
  = (Ok tt, s,
     HEmit "transcript" (PTranscript ev)
     :: map (fun l => HInvoke l (PTranscript ev))
            (listenersFor "transcript" (GoogleSTT.emitter s))).
Proof.
  unfold GoogleSTT.onResult, bind. rewrite emit_plain by reflexivity.
  cbn. now rewrite app_nil_r.
Qed.

(** A transcript event on a stream that carries its listener. *)
Lemma transcriptResult_wired (env : Env) (r : Role) (ev : TranscriptEvent)
    (w : AppState) (s : GoogleSTT.t) :
  fget (F_stt r) w = Some s ->
  listenersFor "transcript" (GoogleSTT.emitter s) = [transcriptListener r] ->
  transcriptResult env r ev w
  = (Ok tt, tick (tick w),
     EStt r (HEmit "transcript" (PTranscript ev))
     :: EStt r (HInvoke (transcriptListener r) (PTranscript ev))
     :: EHandleTranscript
          (routed (roleToSpeaker r) ev (Date_now env (clockReads w)))
     :: sends (windowHelper w)
          (routed (roleToSpeaker r) ev (Date_now env (S (clockReads w))))).
Proof.
  intros Hf Hl. unfold transcriptResult, invoke_opt.
  unfold bind at 1. unfold get at 1. rewrite Hf.
  unfold bind, invoke. rewrite Hf, onResult_eq, Hl.
  rewrite (fset_fget_stt r s w Hf).
  destruct r; cbn -[onTranscript_interviewer onTranscript_user];
    unfold bind, tell, ret, liftRes;
    rewrite ?onTranscript_interviewer_eq, ?onTranscript_user_eq;
    cbn; rewrite ?app_nil_r; reflexivity.
Qed.

(** A transcript event on a stream without listener, or without stream. *)
Lemma transcriptResult_unwired (env : Env) (r : Role) (ev : TranscriptEvent)
    (w : AppState) :
  match fget (F_stt r) w with
  | Some s => listenersFor "transcript" (GoogleSTT.emitter s) = []
  | None => True
  end ->
  deliveries (trace (transcriptResult env r ev w)) = [].
Proof.
  unfold transcriptResult, invoke_opt.
  unfold bind at 1. unfold get at 1.
  destruct (fget (F_stt r) w) as [s|] eqn:Hf; [|reflexivity].
  intros Hl. unfold bind, invoke. rewrite Hf, onResult_eq, Hl.
  destruct r; reflexivity.
Qed.

(** C7, as stated, fails when the clock advances between the two reads of
    [Date.now()]: the intelligence manager receives timestamp 1000 and the
    launcher window 1001. *)
Lemma ui_payload_differs_from_intelligence_segment :
  let tr := trace (transcriptResult sampleEnv Microphone helloWorld
                     pausedPipeline) in
  In (EHandleTranscript (routed user helloWorld 1000)) tr
  /\ In (ESend 1%nat "native-audio-transcript" (routed user helloWorld 1001))
        tr
  /\ routed user helloWorld 1000 <> routed user helloWorld 1001.
Proof.
  split; [|split].
  - cbn. tauto.
  - cbn. tauto.
  - unfold routed. intros Heq. discriminate Heq.
Qed.

(** C7, amended. For every transcript event, either listener hands the
    intelligence manager one segment stamped with a first clock reading, and
    then sends one payload, stamped with a second clock reading, to the
    launcher window and to the overlay window, each only if it exists. The
    segment and the payload agree in speaker, text, final flag and
    confidence; the listener never throws. An event of a stream that carries
    its listener is delivered in exactly this way. *)
Theorem transcript_fanout (env : Env) (ev : TranscriptEvent) (w : AppState) :
  onTranscript_interviewer env ev w
  = (Ok tt, tick (tick w),
     EHandleTranscript (routed interviewer ev (Date_now env (clockReads w)))
     :: sends (windowHelper w)
          (routed interviewer ev (Date_now env (S (clockReads w)))))
  /\ onTranscript_user env ev w
     = (Ok tt, tick (tick w),
        EHandleTranscript (routed user ev (Date_now env (clockReads w)))
        :: sends (windowHelper w)
             (routed user ev (Date_now env (S (clockReads w)))))
  /\ (forall r s,
         fget (F_stt r) w = Some s ->
         listenersFor "transcript" (GoogleSTT.emitter s)
         = [transcriptListener r] ->
         deliveries (trace (transcriptResult env r ev w))
         = routed (roleToSpeaker r) ev (Date_now env (clockReads w))
           :: deliveries
                (sends (windowHelper w)
                   (routed (roleToSpeaker r) ev
                      (Date_now env (S (clockReads w)))))).
Proof.
  split; [apply onTranscript_interviewer_eq|].
  split; [apply onTranscript_user_eq|].
  intros r s Hf Hl. rewrite (transcriptResult_wired env r ev w s Hf Hl).
  reflexivity.
Qed.

Lemma transcript_fanout_witness :
  deliveries (trace (transcriptResult sampleEnv Microphone helloWorld
                       pausedPipeline))
  = [routed user helloWorld 1000; routed user helloWorld 1001].
Proof.
  destruct (transcript_fanout sampleEnv helloWorld pausedPipeline)
    as [_ [_ Hstream]].
  destruct (googleSTT_User pausedPipeline) as [s|] eqn:Hs;
    [|discriminate Hs].
  rewrite (Hstream Microphone s Hs);
    [reflexivity|].
  injection Hs as <-. reflexivity.
Defined.

(** ** Frame rules: what a computation leaves untouched *)

Section Frame.

Context {X : Type} (obs : AppState -> X).
Hypothesis obs_tick : forall w, obs (tick w) = obs w.

Lemma keeps_ret {A} (a : A) : Keeps obs (ret a).
Proof. intros w. reflexivity. Qed.

Lemma keeps_tell (e : Effect) : Keeps obs (tell e).
Proof. intros w. reflexivity. Qed.

Lemma keeps_get : Keeps obs get.
Proof. intros w. reflexivity. Qed.

Lemma keeps_liftRes {A} (r : Res A) : Keeps obs (liftRes r).
Proof. intros w. reflexivity. Qed.

Lemma keeps_modify (f : AppState -> AppState) :
  (forall w, obs (f w) = obs w) -> Keeps obs (modify f).
Proof. intros Hf w. apply Hf. Qed.

Lemma keeps_bind {A B} (m : M Effect AppState A)
    (k : A -> M Effect AppState B) :
  Keeps obs m -> (forall a, Keeps obs (k a)) -> Keeps obs (bind m k).
Proof.
  intros Hm Hk w. specialize (Hm w). unfold bind.
  destruct (m w) as [[[a|e] s1] t1]; [|exact Hm].
  specialize (Hk a s1). destruct (k a s1) as [[r s2] t2].
  unfold state in *. cbn [fst snd] in *. congruence.
Qed.

Lemma keeps_tryCatch {A} (m : M Effect AppState A)
    (h : Err -> M Effect AppState A) :
  Keeps obs m -> (forall e, Keeps obs (h e)) -> Keeps obs (tryCatch m h).
Proof.
  intros Hm Hh w. specialize (Hm w). unfold tryCatch.
  destruct (m w) as [[[a|e] s1] t1]; [exact Hm|].
  specialize (Hh e s1). destruct (h e s1) as [[r s2] t2].
  unfold state in *. cbn [fst snd] in *. congruence.
Qed.

Lemma writeSTT_state (r : Role) (chunk : Buffer) (w : AppState) :
  state (writeSTT r chunk w) = w.
Proof.
  unfold writeSTT. destruct (fget (F_stt r) w) as [s|] eqn:Hf;
    [|reflexivity].
  unfold GoogleSTT.write, bind, get, tell. cbn.
  now apply fset_fget_stt.
Qed.

Lemma keeps_runListener (env : Env) (l : Listener) (p : Payload) :
  Keeps obs (runListener env l p).
Proof.
  intros w. destruct l, p; try reflexivity; cbn [runListener].
  - now rewrite writeSTT_state.
  - rewrite onTranscript_interviewer_eq. unfold state. cbn [fst snd].
    now rewrite !obs_tick.
  - rewrite onTranscript_user_eq. unfold state. cbn [fst snd].
    now rewrite !obs_tick.
Qed.

Lemma keeps_dispatch (env : Env) (wrap : HEffect -> Effect)
    (es : list HEffect) :
  Keeps obs (dispatch env wrap es).
Proof.
  induction es as [|e es IH]; [apply keeps_ret|].
  cbn [dispatch]. apply keeps_bind; [apply keeps_tell|intros _].
  apply keeps_bind; [|intros _; exact IH].
  destruct e; try apply keeps_ret. apply keeps_runListener.
Qed.

(** A call on the handle of a field that the observation does not see. *)
Lemma keeps_invoke {H A} (env : Env) (f : Field H) (m : M HEffect H A) :
  (forall v w, obs (fset f v w) = obs w) -> Keeps obs (invoke env f m).
Proof.
  intros Hi w. unfold invoke. destruct (fget f w) as [h|]; [|reflexivity].
  destruct (m h) as [[r h'] es].
  pose proof (keeps_bind (dispatch env (fwrap f) es)
                (fun _ => liftRes r)
                (keeps_dispatch env (fwrap f) es)
                (fun _ => keeps_liftRes r)) as Hk.
  rewrite Hk. apply Hi.
Qed.

Lemma keeps_invoke_opt_of {H A} (env : Env) (f : Field H)
    (m : M HEffect H A) :
  Keeps obs (invoke env f m) -> Keeps obs (invoke_opt env f m).
Proof.
  intros Hk. unfold invoke_opt. apply keeps_bind; [apply keeps_get|].
  intros w0. destruct (fget f w0); [|apply keeps_ret].
  apply keeps_bind; [exact Hk|intros _; apply keeps_ret].
Qed.

Lemma keeps_construct {H} (f : Field H) (c : Res H * list HEffect) :
  (forall v w, obs (fset f v w) = obs w) -> Keeps obs (construct f c).
Proof.
  intros Hi w. unfold construct. destruct c as [[h|e] es];
    [apply Hi|reflexivity].
Qed.

End Frame.

(** A call on a stream that keeps the listeners of the stream. *)
Lemma keeps_sttEmitters_invoke {A} (env : Env) (r : Role)
    (m : M HEffect GoogleSTT.t A) :
  (forall h, GoogleSTT.emitter (state (m h)) = GoogleSTT.emitter h) ->
  Keeps sttEmitters (invoke env (F_stt r) m).
Proof.
  intros Hm w. unfold invoke.
  destruct (fget (F_stt r) w) as [h|] eqn:Hf; [|reflexivity].
  specialize (Hm h). destruct (m h) as [[res h'] es].
  pose proof (keeps_bind sttEmitters (dispatch env (fwrap (F_stt r)) es)
                (fun _ => liftRes res)
                (keeps_dispatch sttEmitters (fun _ => eq_refl) env _ es)
                (fun _ => keeps_liftRes sttEmitters res)) as Hk.
  rewrite Hk. unfold state in Hm. cbn [fst snd] in Hm.
  destruct w, r; cbn in *; rewrite Hf; unfold sttEmitters; cbn;
    now rewrite Hm.
Qed.

(** ** The listeners of the streams are fixed by the setup *)

Ltac stt_handle_keeps_emitter :=
  let h := fresh "h" in
  intros h;
  first
    [ rewrite onResult_eq; reflexivity
    | unfold GoogleSTT.setSampleRate, GoogleSTT.start, GoogleSTT.stop,
        bind, get, tell, modify;
      try destruct (GoogleSTT.st h); reflexivity ].

Ltac frame_step :=
  first
    [ apply keeps_ret
    | apply keeps_tell
    | apply keeps_get
    | apply keeps_liftRes
    | apply keeps_bind; [|intros ?]
    | apply keeps_tryCatch; [|intros ?]
    | apply keeps_modify; intros; reflexivity
    | apply keeps_construct; intros; reflexivity
    | apply keeps_invoke_opt_of
    | apply keeps_invoke; intros; reflexivity
    | apply keeps_sttEmitters_invoke; stt_handle_keeps_emitter
    | match goal with
      | |- Keeps _ (match ?x with _ => _ end) => destruct x
      end ].

Lemma reconfigureAudio_keeps_sttEmitters (env : Env)
    (i o : option string) :
  Keeps sttEmitters (reconfigureAudio env i o).
Proof.
  unfold reconfigureAudio, reconfigureSystemAudio, reconfigureMicrophone,
    discardSystemAudio, installSystemAudio, discardMicrophone,
    installMicrophone, log.
  repeat frame_step.
Qed.

Lemma act_keeps_sttEmitters (env : Env) (a : Action) :
  Keeps sttEmitters (act env a).
Proof.
  destruct a as [md| |r chunk|r ev]; cbn [act].
  - unfold startMeeting, log.
    repeat first [apply reconfigureAudio_keeps_sttEmitters | frame_step].
  - unfold endMeeting, processCompletedMeetingForRAG, log.
    repeat frame_step.
  - unfold nativeChunk. destruct r; repeat frame_step.
  - unfold transcriptResult. destruct r; repeat frame_step.
Qed.

Lemma run_keeps_sttEmitters (env : Env) (actions : list Action)
    (w : AppState) :
  sttEmitters (fst (run env actions w)) = sttEmitters w.
Proof.
  revert w. induction actions as [|a rest IH]; intros w; [reflexivity|].
  cbn [run fst]. rewrite IH. apply act_keeps_sttEmitters.
Qed.

Lemma setup_wiring (env : Env) (rag : option RAGManager) (wh : WindowHelper)
    (r : Role) :
  let w0 := state (setupSystemAudioPipeline env (initialState rag wh)) in
  (setupCompletes env = true -> wiring w0 r = Some [transcriptListener r])
  /\ (wiring w0 r = Some [transcriptListener r]
      \/ wiring w0 r = Some [] \/ wiring w0 r = None).
Proof.
  destruct env as [rmc sctor gctor nowf stopm rec det proc].
  unfold setupSystemAudioPipeline, SystemAudioCapture.new,
    MicrophoneCapture.new, GoogleSTT.new, setupCompletes.
  cbn [RustMicCapture SystemAudioCapture_ctor GoogleSTT_ctor or_undefined].
  destruct (sctor None) as [m|e];
    (destruct rmc as [c|]; [destruct (c None) as [m'|e']|]);
    destruct (gctor SystemAudio) as [[]|e1];
    destruct (gctor Microphone) as [[]|e2];
    destruct r; cbn;
    (split; [intros Hc; first [discriminate Hc|reflexivity]|tauto]).
Qed.

Lemma wiring_fget (w : AppState) (r : Role) :
  wiring w r
  = option_map (fun s => listenersFor "transcript" (GoogleSTT.emitter s))
               (fget (F_stt r) w).
Proof.
  unfold wiring, sttEmitters.
  destruct r; cbn; [destruct (googleSTT w)|destruct (googleSTT_User w)];
    reflexivity.
Qed.

Lemma speakerIs_sends (r : Role) (ev : TranscriptEvent) (ts : Z)
    (wh : WindowHelper) :
  forallb (speakerIs (roleToSpeaker r))
          (deliveries (sends wh (routed (roleToSpeaker r) ev ts))) = true.
Proof.
  unfold sends.
  destruct (getLauncherWindow wh), (getOverlayWindow wh), r; reflexivity.
Qed.

(** C1. In every state that the pipeline reaches from the setup, through
    any sequence of meetings started (with or without device preferences)
    and ended, chunks and transcript events, a transcript event of the
    system-audio stream leads only to deliveries with speaker [interviewer]
    and one of the microphone stream only to deliveries with speaker
    [user], whatever its text, final flag and confidence. When the setup
    could construct all four handles, each such event does reach the
    intelligence manager, as one segment with that speaker. *)
Theorem attribution_by_origin (env : Env) (rag : option RAGManager)
    (wh : WindowHelper) (actions : list Action) (r : Role)
    (ev : TranscriptEvent) :
  let w := fst (run env actions
                  (state (setupSystemAudioPipeline env
                            (initialState rag wh)))) in
  let tr := trace (transcriptResult env r ev w) in
  forallb (speakerIs (roleToSpeaker r)) (deliveries tr) = true
  /\ (setupCompletes env = true ->
      intelligenceDeliveries tr
      = [routed (roleToSpeaker r) ev (Date_now env (clockReads w))]).
Proof.
  intros w tr. subst tr.
  assert (Hw : wiring w r
               = wiring (state (setupSystemAudioPipeline env
                                  (initialState rag wh))) r).
  { unfold wiring, w. now rewrite run_keeps_sttEmitters. }
  destruct (setup_wiring env rag wh r) as [Hcomplete Hcases].
  rewrite <- Hw in Hcomplete, Hcases. rewrite wiring_fget in Hcomplete, Hcases.
  assert (Hwired : forall s,
             fget (F_stt r) w = Some s ->
             listenersFor "transcript" (GoogleSTT.emitter s)
             = [transcriptListener r] ->
             forallb (speakerIs (roleToSpeaker r))
                     (deliveries (trace (transcriptResult env r ev w))) = true
             /\ intelligenceDeliveries (trace (transcriptResult env r ev w))
                = [routed (roleToSpeaker r) ev (Date_now env (clockReads w))]).
  { intros s Hf Hl. rewrite (transcriptResult_wired env r ev w s Hf Hl).
    unfold trace. cbn [snd]. split.
    - cbn [deliveries flat_map app forallb].
      fold (deliveries (sends (windowHelper w)
                          (routed (roleToSpeaker r) ev
                             (Date_now env (S (clockReads w)))))).
      rewrite speakerIs_sends. now destruct r.
    - unfold sends.
      destruct (getLauncherWindow (windowHelper w)),
        (getOverlayWindow (windowHelper w)); reflexivity. }
  split.
  - destruct (fget (F_stt r) w) as [s|] eqn:Hf.
    + destruct Hcases as [Hc|[Hc|Hc]]; cbn in Hc; try discriminate.
      * injection Hc as Hc. now apply (Hwired s).
      * injection Hc as Hc. rewrite transcriptResult_unwired; [reflexivity|].
        now rewrite Hf.
    + rewrite transcriptResult_unwired; [reflexivity|]. now rewrite Hf.
  - intros Hc. specialize (Hcomplete Hc).
    destruct (fget (F_stt r) w) as [s|] eqn:Hf; cbn in Hcomplete;
      [|discriminate].
    injection Hcomplete as Hl. now apply (Hwired s).
Qed.

Lemma attribution_by_origin_witness :
  setupCompletes sampleEnv = true
  /\ intelligenceDeliveries
       (trace (transcriptResult sampleEnv SystemAudio helloWorld
                 (fst (run sampleEnv [AStartMeeting None]
                         (state (setupSystemAudioPipeline sampleEnv
                                   (initialState None sampleWindows)))))))
     = [routed interviewer helloWorld 1000].
Proof.
  split; [reflexivity|].
  exact (proj2 (attribution_by_origin sampleEnv None sampleWindows
                  [AStartMeeting None] SystemAudio helloWorld) eq_refl).
Defined.

(** ** Device reconfiguration *)

Lemma unit_res_ok (r : Res unit) : is_ok r = true -> r = Ok tt.
Proof. destruct r as [[]|e]; [reflexivity|discriminate]. Qed.

Lemma discardMicrophone_eq (env : Env) (w : AppState) :
  discardMicrophone env w
  = (Ok tt, set_microphoneCapture None w,
     handleTrace F_microphoneCapture MicrophoneCapture.stop w).
Proof.
  unfold discardMicrophone, handleTrace. unfold bind at 1. unfold get at 1.
  cbn [fget F_microphoneCapture].
  destruct (microphoneCapture w) as [h|] eqn:Hf.
  - unfold bind.
    rewrite (invoke_quiet env F_microphoneCapture _ w h Hf (quiet_mic_stop h)).
    rewrite (unit_res_ok _ (mic_stop_ok h)). cbn. now rewrite app_nil_r.
  - destruct w; cbn in *; subst; reflexivity.
Qed.

Lemma discardSystemAudio_eq (env : Env) (w : AppState) :
  discardSystemAudio env w
  = (Ok tt, set_systemAudioCapture None w,
     handleTrace F_systemAudioCapture SystemAudioCapture.stop w).
Proof.
  unfold discardSystemAudio, handleTrace. unfold bind at 1. unfold get at 1.
  cbn [fget F_systemAudioCapture].
  destruct (systemAudioCapture w) as [h|] eqn:Hf.
  - unfold bind.
    rewrite (invoke_quiet env F_systemAudioCapture _ w h Hf (quiet_sys_stop h)).
    rewrite (unit_res_ok _ (sys_stop_ok h)). cbn. now rewrite app_nil_r.
  - destruct w; cbn in *; subst; reflexivity.
Qed.

Lemma or_undefined_idem (d : option string) :
  or_undefined (or_undefined d) = or_undefined d.
Proof.
  destruct d as [x|]; [|reflexivity]. cbn.
  destruct (String.eqb x "") eqn:Hx; [reflexivity|]. cbn. now rewrite Hx.
Qed.

(** Closes a goal about a freshly installed capture once every outcome of
    the environment is known. *)
Ltac installed :=
  cbn;
  repeat match goal with
         | H : _ <> 0%nat |- _ => solve [cbn in H; now elim H]
         | |- _ /\ _ => split
         | |- forall _, _ => intro
         | H : Some _ = Some _ |- _ => injection H as H; subst
         | H : None = Some _ |- _ => discriminate H
         | H : Ok _ = Throw _ |- _ => discriminate H
         | H : Throw _ = Ok _ |- _ => discriminate H
         | H : Some _ = None |- _ => discriminate H
         | H : ?x <> ?x |- _ => now elim H
         | |- exists _, _ => eexists
         | _ => reflexivity
         end.

Lemma installMicrophone_spec (env : Env) (i : option string) (w : AppState) :
  let out := installMicrophone env i (set_microphoneCapture None w) in
  result out = Ok tt
  /\ forallb (besideRate SystemAudio) (trace out) = true
  /\ systemAudioCapture (state out) = systemAudioCapture w
  /\ googleSTT (state out) = googleSTT w
  /\ (forall src,
         microphoneCapture (state out) = Some src ->
         listenerCount "data" src <> 0%nat ->
         dataListeners Microphone (state out) = Some [L_writeSTT Microphone]
         /\ exists R,
             reportedRate Microphone (state out) = Some (Ok R)
             /\ ratesAtSubscription Microphone (configuredRate Microphone w)
                  (trace out)
                = [option_map (fun _ => R) (googleSTT_User w)]
             /\ configuredRate Microphone (state out)
                = option_map (fun _ => R) (googleSTT_User w)).
Proof.
  destruct env as [rmc sctor gctor nowf stopm rec det proc].
  destruct w as [sa mc g1 g2 rag wh ck].
  unfold installMicrophone, MicrophoneCapture.new.
  cbn [RustMicCapture or_undefined].
  generalize (or_undefined (or_undefined i)). intros d.
  destruct rmc as [c|].
  - destruct (c d) as [[[r1|x1] st1 sp1]|e1];
      destruct (c None) as [[[r2|x2] st2 sp2]|e2];
      destruct g2 as [s|]; installed.
  - destruct g2 as [s|]; installed.
Qed.

Lemma installSystemAudio_spec (env : Env) (o : option string)
    (w : AppState) :
  let out := installSystemAudio env o (set_systemAudioCapture None w) in
  result out = Ok tt
  /\ forallb (besideRate Microphone) (trace out) = true
  /\ microphoneCapture (state out) = microphoneCapture w
  /\ googleSTT_User (state out) = googleSTT_User w
  /\ (forall src,
         systemAudioCapture (state out) = Some src ->
         listenerCount "data" src <> 0%nat ->
         dataListeners SystemAudio (state out) = Some [L_writeSTT SystemAudio]
         /\ exists R,
             reportedRate SystemAudio (state out) = Some (Ok R)
             /\ ratesAtSubscription SystemAudio (configuredRate SystemAudio w)
                  (trace out)
                = [option_map (fun _ => R) (googleSTT w)]
             /\ configuredRate SystemAudio (state out)
                = option_map (fun _ => R) (googleSTT w)).
Proof.
  destruct env as [rmc sctor gctor nowf stopm rec det proc].
  destruct w as [sa mc g1 g2 rag wh ck].
  unfold installSystemAudio, SystemAudioCapture.new.
  cbn [SystemAudioCapture_ctor].
  generalize (or_undefined o). intros d.
  destruct (sctor d) as [[[[r1|x1] st1 sp1]|]|e1];
    destruct (sctor None) as [[[[r2|x2] st2 sp2]|]|e2];
    destruct g1 as [s|]; installed.
Qed.

Lemma reconfigureMicrophone_eq (env : Env) (i : option string)
    (w : AppState) :
  reconfigureMicrophone env i w
  = (Ok tt,
     state (installMicrophone env i (set_microphoneCapture None w)),
     handleTrace F_microphoneCapture MicrophoneCapture.stop w
     ++ trace (installMicrophone env i (set_microphoneCapture None w))).
Proof.
  unfold reconfigureMicrophone.
  rewrite (bind_ok _ _ _ _ _ _ (discardMicrophone_eq env w)).
  now rewrite (proj1 (installMicrophone_spec env i w)).
Qed.

Lemma reconfigureSystemAudio_eq (env : Env) (o : option string)
    (w : AppState) :
  reconfigureSystemAudio env o w
  = (Ok tt,
     state (installSystemAudio env o (set_systemAudioCapture None w)),
     handleTrace F_systemAudioCapture SystemAudioCapture.stop w
     ++ trace (installSystemAudio env o (set_systemAudioCapture None w))).
Proof.
  unfold reconfigureSystemAudio.
  rewrite (bind_ok _ _ _ _ _ _ (discardSystemAudio_eq env w)).
  now rewrite (proj1 (installSystemAudio_spec env o w)).
Qed.

(** The reconfiguration is the system block followed by the microphone
    block, and it never throws. *)
Lemma reconfigureAudio_eq (env : Env) (i o : option string) (w : AppState) :
  reconfigureAudio env i o w
  = (Ok tt,
     state (installMicrophone env i
              (set_microphoneCapture None
                 (state (installSystemAudio env o
                           (set_systemAudioCapture None w))))),
     ELog Info "[Main] Reconfiguring Audio:"
     :: (handleTrace F_systemAudioCapture SystemAudioCapture.stop w
         ++ trace (installSystemAudio env o (set_systemAudioCapture None w)))
     ++ (handleTrace F_microphoneCapture MicrophoneCapture.stop
           (state (installSystemAudio env o (set_systemAudioCapture None w)))
         ++ trace (installMicrophone env i
                     (set_microphoneCapture None
                        (state (installSystemAudio env o
                                  (set_systemAudioCapture None w))))))).
Proof.
  unfold reconfigureAudio, bind, log, tell.
  rewrite reconfigureSystemAudio_eq. cbv beta iota.
  rewrite reconfigureMicrophone_eq. cbv beta iota. reflexivity.
Qed.

(** ** Rates and subscriptions along a trace *)










(** ** Forwarding of chunks *)

Lemma writeSTT_eq (r : Role) (chunk : Buffer) (w : AppState) :
  writeSTT r chunk w
  = (Ok tt, w,
     match configuredRate r w with
     | Some n => [EStt r (HStt (SWrite n chunk))]
     | None => []
     end).
Proof.
  unfold writeSTT, configuredRate.
  destruct (fget (F_stt r) w) as [s|] eqn:Hf; [|reflexivity].
  unfold GoogleSTT.write, bind, get, tell. cbn [fst snd app map option_map].
  rewrite (fset_fget_stt r s w Hf). now destruct r.
Qed.

Lemma dispatch_chunk (env : Env) (r r0 : Role) (chunk : Buffer)
    (ls : list Listener) (w : AppState) :
  result (dispatch env (ECapture r0)
            (map (fun l => HInvoke l (PChunk chunk)) ls) w) = Ok tt
  /\ state (dispatch env (ECapture r0)
              (map (fun l => HInvoke l (PChunk chunk)) ls) w) = w
  /\ writes r (trace (dispatch env (ECapture r0)
                        (map (fun l => HInvoke l (PChunk chunk)) ls) w))
     = forwarded r (configuredRate r w) chunk ls.
Proof.
  induction ls as [|l ls IH]; [repeat split; reflexivity|].
  destruct IH as [IHr [IHs IHw]].
  cbn [map dispatch]. unfold bind at 1 2 3. unfold tell at 1 2 3.
  assert (Hl : exists t,
             runListener env l (PChunk chunk) w = (Ok tt, w, t)
             /\ writes r t
                = forwarded r (configuredRate r w) chunk [l]).
  { destruct l as [r'| | |]; cbn [runListener];
      try (eexists; split; reflexivity).
    rewrite writeSTT_eq. eexists; split; [reflexivity|].
    unfold forwarded. cbn [flat_map]. rewrite app_nil_r.
    destruct r, r'; cbn [role_eqb];
      destruct (configuredRate SystemAudio w),
        (configuredRate Microphone w); reflexivity. }
  destruct Hl as [t [Hrun Hwr]].
  unfold bind. rewrite Hrun.
  destruct (dispatch env (ECapture r0)
              (map (fun l0 => HInvoke l0 (PChunk chunk)) ls) w)
    as [[rd wd] td].
  unfold result, state, trace in *. cbn [fst snd] in *. subst rd wd.
  repeat split. cbn [app]. unfold writes in *. cbn [flat_map].
  rewrite !flat_map_app. cbn [app]. 
  unfold forwarded in *. cbn [flat_map] in *.
  rewrite app_nil_r in Hwr. now rewrite Hwr, IHw.
Qed.

Lemma invoke_chunk_writes {H} `{EventEmitter H} (env : Env) (r r0 : Role)
    (f : Field H) (chunk : Buffer) (w : AppState) (h : H)
    (m : M HEffect H unit) :
  fwrap f = ECapture r0 ->
  (forall v w0, configuredRate r (fset f v w0) = configuredRate r w0) ->
  m h = (Ok tt, h,
         HEmit "data" (PChunk chunk)
         :: map (fun l => HInvoke l (PChunk chunk))
                (listenersFor "data" (listeners h))) ->
  fget f w = Some h ->
  writes r (trace (invoke_opt env f m w))
  = forwarded r (configuredRate r w) chunk (listenersFor "data" (listeners h)).
Proof.
  intros Hwrap Hrate Hm Hf. unfold invoke_opt.
  unfold bind at 1. unfold get at 1. rewrite Hf.
  unfold bind at 1. unfold invoke. rewrite Hf, Hm, Hwrap.
  cbn [dispatch]. unfold bind at 1 2 3. unfold tell at 1.
  unfold ret at 1.
  destruct (dispatch_chunk env r r0 chunk (listenersFor "data" (listeners h))
              (fset f (Some h) w)) as [Hr [Hs Hw]].
  destruct (dispatch env (ECapture r0) _ (fset f (Some h) w))
    as [[rd wd] td].
  unfold result, state, trace in *. cbn [fst snd] in *. subst rd wd.
  unfold liftRes, ret. cbn [fst snd app].
  unfold writes in *. cbn [flat_map app]. rewrite !flat_map_app.
  cbn [flat_map app]. rewrite !app_nil_r. rewrite Hw. now rewrite Hrate.
Qed.




Lemma forwarded_own (r : Role) (rate : option Z) (chunk : Buffer) :
  forwarded r rate chunk [L_writeSTT r]
  = match rate with Some n => [(n, chunk)] | None => [] end.
Proof. destruct r, rate; reflexivity. Qed.

(** ** Forwarding between two reconfigurations *)

Lemma mic_start_emitter (h : MicrophoneCapture.t) :
  MicrophoneCapture.emitter (state (MicrophoneCapture.start h))
  = MicrophoneCapture.emitter h.
Proof.
  destruct (MicrophoneCapture.isRecording h) eqn:Hr.
  - now rewrite mic_start_recording.
  - destruct (MicrophoneCapture.monitor h) as [m|] eqn:Hm.
    + destruct (mon_start m) as [[]|e] eqn:Hs.
      * now rewrite (mic_start_native_ok h m Hr Hm Hs).
      * now rewrite (mic_start_native_throws h m e Hr Hm Hs).
    + now rewrite mic_start_no_monitor.
Qed.

Lemma mic_stop_emitter (h : MicrophoneCapture.t) :
  MicrophoneCapture.emitter (state (MicrophoneCapture.stop h))
  = MicrophoneCapture.emitter h.
Proof.
  destruct (MicrophoneCapture.isRecording h) eqn:Hr.
  - now rewrite mic_stop_recording.
  - now rewrite mic_stop_idle.
Qed.

Lemma mic_onChunk_emitter (chunk : option Buffer) (h : MicrophoneCapture.t) :
  MicrophoneCapture.emitter (state (MicrophoneCapture.onChunk chunk h))
  = MicrophoneCapture.emitter h.
Proof. rewrite mic_onChunk_eq. now destruct chunk as [[|b c]|]. Qed.

Lemma sys_start_emitter (h : SystemAudioCapture.t) :
  SystemAudioCapture.emitter (state (SystemAudioCapture.start h))
  = SystemAudioCapture.emitter h.
Proof.
  destruct (sys_start_eq h) as [t [Heq _]]. rewrite Heq, state_triple.
  destruct (SystemAudioCapture.active h); [reflexivity|].
  destruct (SystemAudioCapture.monitor h) as [[gr [[]|e] sp]|]; reflexivity.
Qed.

Lemma sys_stop_emitter (h : SystemAudioCapture.t) :
  SystemAudioCapture.emitter (state (SystemAudioCapture.stop h))
  = SystemAudioCapture.emitter h.
Proof.
  rewrite sys_stop_eq, state_triple.
  now destruct (SystemAudioCapture.active h).
Qed.

Lemma sys_onChunk_emitter (chunk : Buffer) (h : SystemAudioCapture.t) :
  SystemAudioCapture.emitter (state (SystemAudioCapture.onChunk chunk h))
  = SystemAudioCapture.emitter h.
Proof.
  unfold SystemAudioCapture.onChunk, bind.
  now rewrite emit_plain by reflexivity.
Qed.

Lemma stt_start_rate (h : GoogleSTT.t) :
  GoogleSTT.sampleRate (state (GoogleSTT.start h)) = GoogleSTT.sampleRate h.
Proof. unfold GoogleSTT.start, bind, get. now destruct (GoogleSTT.st h). Qed.

Lemma stt_stop_rate (h : GoogleSTT.t) :
  GoogleSTT.sampleRate (state (GoogleSTT.stop h)) = GoogleSTT.sampleRate h.
Proof. unfold GoogleSTT.stop, bind, get. now destruct (GoogleSTT.st h). Qed.

Lemma stt_onResult_rate (ev : TranscriptEvent) (h : GoogleSTT.t) :
  GoogleSTT.sampleRate (state (GoogleSTT.onResult ev h))
  = GoogleSTT.sampleRate h.
Proof. now rewrite onResult_eq. Qed.

Lemma forwarding_tick (r : Role) (w : AppState) :
  forwarding r (tick w) = forwarding r w.
Proof. now destruct r. Qed.

Lemma keeps_forwarding_mic {A} (env : Env) (r : Role)
    (m : M HEffect MicrophoneCapture.t A) :
  (forall h, MicrophoneCapture.emitter (state (m h))
             = MicrophoneCapture.emitter h) ->
  Keeps (forwarding r) (invoke env F_microphoneCapture m).
Proof.
  intros Hm w. unfold invoke.
  destruct (fget F_microphoneCapture w) as [h|] eqn:Hf; [|reflexivity].
  specialize (Hm h). destruct (m h) as [[res h'] es].
  pose proof (keeps_bind (forwarding r)
                (dispatch env (fwrap F_microphoneCapture) es)
                (fun _ => liftRes res)
                (keeps_dispatch (forwarding r) (forwarding_tick r) env _ es)
                (fun _ => keeps_liftRes (forwarding r) res)) as Hk.
  rewrite Hk. rewrite state_triple in Hm.
  destruct w, r; cbn in *; rewrite Hf; unfold forwarding; cbn;
    now rewrite ?Hm.
Qed.

Lemma keeps_forwarding_sys {A} (env : Env) (r : Role)
    (m : M HEffect SystemAudioCapture.t A) :
  (forall h, SystemAudioCapture.emitter (state (m h))
             = SystemAudioCapture.emitter h) ->
  Keeps (forwarding r) (invoke env F_systemAudioCapture m).
Proof.
  intros Hm w. unfold invoke.
  destruct (fget F_systemAudioCapture w) as [h|] eqn:Hf; [|reflexivity].
  specialize (Hm h). destruct (m h) as [[res h'] es].
  pose proof (keeps_bind (forwarding r)
                (dispatch env (fwrap F_systemAudioCapture) es)
                (fun _ => liftRes res)
                (keeps_dispatch (forwarding r) (forwarding_tick r) env _ es)
                (fun _ => keeps_liftRes (forwarding r) res)) as Hk.
  rewrite Hk. rewrite state_triple in Hm.
  destruct w, r; cbn in *; rewrite Hf; unfold forwarding; cbn;
    now rewrite ?Hm.
Qed.

Lemma keeps_forwarding_stt {A} (env : Env) (r r' : Role)
    (m : M HEffect GoogleSTT.t A) :
  (forall h, GoogleSTT.sampleRate (state (m h)) = GoogleSTT.sampleRate h) ->
  Keeps (forwarding r) (invoke env (F_stt r') m).
Proof.
  intros Hm w. unfold invoke.
  destruct (fget (F_stt r') w) as [h|] eqn:Hf; [|reflexivity].
  specialize (Hm h). destruct (m h) as [[res h'] es].
  pose proof (keeps_bind (forwarding r)
                (dispatch env (fwrap (F_stt r')) es)
                (fun _ => liftRes res)
                (keeps_dispatch (forwarding r) (forwarding_tick r) env _ es)
                (fun _ => keeps_liftRes (forwarding r) res)) as Hk.
  rewrite Hk. rewrite state_triple in Hm.
  destruct w, r, r'; cbn in *; rewrite Hf; unfold forwarding, configuredRate;
    cbn; now rewrite ?Hm.
Qed.

Create HintDb handles.
#[local] Hint Resolve mic_start_emitter mic_stop_emitter mic_onChunk_emitter
  sys_start_emitter sys_stop_emitter sys_onChunk_emitter
  stt_start_rate stt_stop_rate stt_onResult_rate : handles.

Ltac forwarding_step :=
  first
    [ apply keeps_ret
    | apply keeps_tell
    | apply keeps_get
    | apply keeps_liftRes
    | apply keeps_bind; [|intros ?]
    | apply keeps_tryCatch; [|intros ?]
    | apply keeps_invoke_opt_of
    | apply keeps_forwarding_mic; solve [auto with handles]
    | apply keeps_forwarding_sys; solve [auto with handles]
    | apply keeps_forwarding_stt; solve [auto with handles]
    | match goal with
      | |- Keeps _ (match ?x with _ => _ end) => destruct x
      end ].

Lemma act_keeps_forwarding (env : Env) (r : Role) (a : Action) :
  keepsDevices a = true -> Keeps (forwarding r) (act env a).
Proof.
  destruct a as [[[ttl [au|]]|]| |r' chunk|r' ev]; cbn [act keepsDevices];
    intros Hk; try discriminate Hk.
  - unfold startMeeting, log. cbn [audio]. repeat forwarding_step.
  - unfold startMeeting, log. repeat forwarding_step.
  - unfold endMeeting, processCompletedMeetingForRAG, log.
    repeat forwarding_step.
  - unfold nativeChunk. destruct r'; repeat forwarding_step.
  - unfold transcriptResult. repeat forwarding_step.
Qed.




(** ** Fallback to the default device *)

Lemma attempts_app (r : Role) (t1 t2 : list Effect) :
  attempts r (t1 ++ t2) = attempts r t1 ++ attempts r t2.
Proof. apply flat_map_app. Qed.

Lemma quietTrace_attempts (r r' : Role) (es : list HEffect) :
  forallb (fun e => negb (isNew e)) es = true ->
  attempts r (quietTrace (ECapture r') es) = [].
Proof.
  induction es as [|e es IH]; [reflexivity|].
  cbn [forallb]. intros Hb. apply andb_prop in Hb. destruct Hb as [He Ht].
  cbn [quietTrace flat_map]. rewrite attempts_app.
  fold (quietTrace (ECapture r') es). rewrite (IH Ht), app_nil_r.
  destruct e as [|[]| | | |[] p]; try discriminate; reflexivity.
Qed.

Lemma no_new_invocations (p : Payload) (ls : list Listener) :
  forallb (fun e => negb (isNew e)) (map (fun l => HInvoke l p) ls) = true.
Proof. induction ls; [reflexivity|assumption]. Qed.

Lemma discard_mic_attempts (r : Role) (w : AppState) :
  attempts r (handleTrace F_microphoneCapture MicrophoneCapture.stop w) = [].
Proof.
  unfold handleTrace.
  destruct (fget F_microphoneCapture w) as [h|]; [|reflexivity].
  apply quietTrace_attempts.
  destruct (MicrophoneCapture.isRecording h) eqn:Hr.
  - rewrite (mic_stop_recording h Hr). unfold trace, stopTrace. cbn [snd].
    change (?a :: ?b ++ ?c) with ((a :: b) ++ c). rewrite forallb_app.
    apply andb_true_intro; split.
    + destruct (MicrophoneCapture.monitor h) as [m|]; [|reflexivity].
      now destruct (mon_stop m).
    + cbn. apply no_new_invocations.
  - now rewrite mic_stop_idle.
Qed.

Lemma discard_sys_attempts (r : Role) (w : AppState) :
  attempts r (handleTrace F_systemAudioCapture SystemAudioCapture.stop w) = [].
Proof.
  unfold handleTrace.
  destruct (fget F_systemAudioCapture w) as [h|]; [|reflexivity].
  apply quietTrace_attempts. rewrite sys_stop_eq. unfold trace. cbn [snd].
  destruct (SystemAudioCapture.active h); [|reflexivity].
  destruct (SystemAudioCapture.monitor h) as [m|]; [|reflexivity].
  now destruct (mon_stop m).
Qed.

Lemma installMicrophone_fallback (env : Env) (i : option string)
    (w : AppState) :
  let out := installMicrophone env i (set_microphoneCapture None w) in
  attempts SystemAudio (trace out) = []
  /\ forall e1,
      fst (MicrophoneCapture.new (RustMicCapture env) (or_undefined i))
      = Throw e1 ->
      attempts Microphone (trace out) = [or_undefined i; None]
      /\ forall e2,
          fst (MicrophoneCapture.new (RustMicCapture env) None) = Throw e2 ->
          state out = set_microphoneCapture None w.
Proof.
  destruct env as [rmc sctor gctor nowf stopm rec det proc].
  destruct w as [sa mc g1 g2 rag wh ck].
  unfold installMicrophone, MicrophoneCapture.new.
  cbn [RustMicCapture or_undefined]. rewrite !or_undefined_idem.
  generalize (or_undefined i). intros d.
  destruct rmc as [c|].
  - destruct (c d) as [[[r1|x1] st1 sp1]|e1];
      destruct (c None) as [[[r2|x2] st2 sp2]|e2];
      destruct g2 as [s|]; installed.
  - destruct g2 as [s|]; installed.
Qed.

Lemma installSystemAudio_fallback (env : Env) (o : option string)
    (w : AppState) :
  let out := installSystemAudio env o (set_systemAudioCapture None w) in
  attempts Microphone (trace out) = []
  /\ forall e1,
      fst (SystemAudioCapture.new (SystemAudioCapture_ctor env)
             (or_undefined o)) = Throw e1 ->
      attempts SystemAudio (trace out) = [or_undefined o; None]
      /\ forall e2,
          fst (SystemAudioCapture.new (SystemAudioCapture_ctor env) None)
          = Throw e2 ->
          state out = set_systemAudioCapture None w.
Proof.
  destruct env as [rmc sctor gctor nowf stopm rec det proc].
  destruct w as [sa mc g1 g2 rag wh ck].
  unfold installSystemAudio, SystemAudioCapture.new.
  cbn [SystemAudioCapture_ctor].
  generalize (or_undefined o). intros d.
  destruct (sctor d) as [[[[r1|x1] st1 sp1]|]|e1];
    destruct (sctor None) as [[[[r2|x2] st2 sp2]|]|e2];
    destruct g1 as [s|]; installed.
Qed.

(** The microphone block does not look at the system capture. *)
Lemma installMicrophone_frame (env : Env) (i : option string)
    (sa : option SystemAudioCapture.t) (w : AppState) :
  installMicrophone env i
    (set_microphoneCapture None (set_systemAudioCapture sa w))
  = (result (installMicrophone env i (set_microphoneCapture None w)),
     set_systemAudioCapture sa
       (state (installMicrophone env i (set_microphoneCapture None w))),
     trace (installMicrophone env i (set_microphoneCapture None w))).
Proof.
  destruct env as [rmc sctor gctor nowf stopm rec det proc].
  destruct w as [sa0 mc g1 g2 rag wh ck].
  unfold installMicrophone, MicrophoneCapture.new.
  cbn [RustMicCapture or_undefined].
  generalize (or_undefined (or_undefined i)). intros d.
  destruct rmc as [c|].
  - destruct (c d) as [[[r1|x1] st1 sp1]|e1];
      destruct (c None) as [[[r2|x2] st2 sp2]|e2];
      destruct g2 as [s|]; reflexivity.
  - destruct g2 as [s|]; reflexivity.
Qed.

(** C3. A device reconfiguration never throws. For either role, if the
    constructor throws for the requested device, a second construction is
    attempted with no device; if that throws as well, the capture field of
    the role ends null and the other role is reconfigured as if nothing had
    happened: when the system capture fails, the microphone pair and the
    trace of the microphone block are those of the microphone block run
    alone; when the microphone fails, the system pair is the one the system
    block produced. *)
Theorem fallback_and_isolation (env : Env) (i o : option string)
    (w : AppState) :
  let out := reconfigureAudio env i o w in
  result out = Ok tt
  /\ (forall e1,
         fst (SystemAudioCapture.new (SystemAudioCapture_ctor env)
                (or_undefined o)) = Throw e1 ->
         attempts SystemAudio (trace out) = [or_undefined o; None]
         /\ forall e2,
             fst (SystemAudioCapture.new (SystemAudioCapture_ctor env) None)
             = Throw e2 ->
             systemAudioCapture (state out) = None
             /\ microphoneCapture (state out)
                = microphoneCapture (state (reconfigureMicrophone env i w))
             /\ googleSTT_User (state out)
                = googleSTT_User (state (reconfigureMicrophone env i w))
             /\ exists t_sys,
                 trace out
                 = ELog Info "[Main] Reconfiguring Audio:"
                   :: t_sys ++ trace (reconfigureMicrophone env i w))
  /\ (forall e1,
         fst (MicrophoneCapture.new (RustMicCapture env) (or_undefined i))
         = Throw e1 ->
         attempts Microphone (trace out) = [or_undefined i; None]
         /\ forall e2,
             fst (MicrophoneCapture.new (RustMicCapture env) None)
             = Throw e2 ->
             microphoneCapture (state out) = None
             /\ systemAudioCapture (state out)
                = systemAudioCapture (state (reconfigureSystemAudio env o w))
             /\ googleSTT (state out)
                = googleSTT (state (reconfigureSystemAudio env o w))
             /\ exists t_mic,
                 trace out
                 = ELog Info "[Main] Reconfiguring Audio:"
                   :: trace (reconfigureSystemAudio env o w) ++ t_mic).
Proof.
  intros out. subst out.
  rewrite reconfigureAudio_eq, reconfigureMicrophone_eq,
    reconfigureSystemAudio_eq.
  rewrite !state_triple, !trace_triple.
  set (w1 := state (installSystemAudio env o (set_systemAudioCapture None w))).
  destruct (installSystemAudio_fallback env o w) as [Hsm Hsys].
  fold w1 in Hsys.
  destruct (installMicrophone_fallback env i w1) as [Hms Hmic].
  split; [reflexivity|]. split.
  - intros e1 H1. destruct (Hsys e1 H1) as [Hatt Hnull]. split.
    + change (ELog Info "[Main] Reconfiguring Audio:" :: ?a)
        with ([ELog Info "[Main] Reconfiguring Audio:"] ++ a).
      rewrite !attempts_app, discard_sys_attempts, discard_mic_attempts,
        Hatt, Hms. reflexivity.
    + intros e2 H2. specialize (Hnull e2 H2). rewrite Hnull.
      rewrite installMicrophone_frame. rewrite state_triple, trace_triple.
      repeat split. eexists. reflexivity.
  - intros e1 H1. destruct (Hmic e1 H1) as [Hatt Hnull]. split.
    + change (ELog Info "[Main] Reconfiguring Audio:" :: ?a)
        with ([ELog Info "[Main] Reconfiguring Audio:"] ++ a).
      rewrite !attempts_app, discard_sys_attempts, discard_mic_attempts,
        Hatt, Hsm. reflexivity.
    + intros e2 H2. specialize (Hnull e2 H2). rewrite Hnull.
      repeat split. eexists. reflexivity.
Qed.

Lemma fallback_and_isolation_witness :
  (let out := reconfigureAudio noOutputEnv (Some "mic-2") (Some "speakers")
                pausedPipeline in
   attempts SystemAudio (trace out) = [Some "speakers"; None]
   /\ systemAudioCapture (state out) = None
   /\ microphoneCapture (state out)
      = microphoneCapture
          (state (reconfigureMicrophone noOutputEnv (Some "mic-2")
                    pausedPipeline))
   /\ dataListeners Microphone (state out) = Some [L_writeSTT Microphone])
  /\ (let out := reconfigureAudio noInputEnv (Some "mic-2") (Some "speakers")
                   pausedPipeline in
      attempts Microphone (trace out) = [Some "mic-2"; None]
      /\ microphoneCapture (state out) = None
      /\ systemAudioCapture (state out)
         = systemAudioCapture
             (state (reconfigureSystemAudio noInputEnv (Some "speakers")
                       pausedPipeline))
      /\ dataListeners SystemAudio (state out)
         = Some [L_writeSTT SystemAudio]).
Proof.
  split.
  - destruct (fallback_and_isolation noOutputEnv (Some "mic-2")
                (Some "speakers") pausedPipeline) as [_ [Hsys _]].
    destruct (Hsys "no output device" eq_refl) as [Hatt Hboth].
    destruct (Hboth "no output device" eq_refl) as [Hnull [Hmic _]].
    split; [exact Hatt|]. split; [exact Hnull|]. split; [exact Hmic|].
    reflexivity.
  - destruct (fallback_and_isolation noInputEnv (Some "mic-2")
                (Some "speakers") pausedPipeline) as [_ [_ Hmic]].
    destruct (Hmic "no input device" eq_refl) as [Hatt Hboth].
    destruct (Hboth "no input device" eq_refl) as [Hnull [Hsys _]].
    split; [exact Hatt|]. split; [exact Hnull|]. split; [exact Hsys|].
    reflexivity.
Defined.

(** ** Exceptions that reach the caller *)

(** C8 (the code departs from the claim). The pipeline is set up normally;
    then the default input device disappears, and the device "mic-2" is
    found but cannot report its rate. [startMeeting] with a preference for
    "mic-2" leaves in [microphoneCapture] the handle of the first attempt,
    on which no listener was registered; starting it fails, [start()] emits
    ['error'] without a listener, and the exception leaves [startMeeting]:
    the stream of the microphone is never started. *)
Theorem startMeeting_propagates_unhandled_error :
  let out := startMeeting flakyInputEnv (Some preferMic2) pausedPipeline in
  result out = Throw "start failed"
  /\ option_map (listenerCount "error") (microphoneCapture (state out))
     = Some 0%nat
  /\ option_map listening (googleSTT_User (state out)) = Some false
  /\ result (reconfigureAudio flakyInputEnv (Some "mic-2") None
               pausedPipeline) = Ok tt.
Proof. repeat split. Qed.

(** The second meeting of a session, without device preferences: the system
    capture runs again, the microphone does not. *)
Example second_meeting_without_microphone :
  let w := fst (run sampleEnv
                  [AStartMeeting None; AEndMeeting; AStartMeeting None]
                  pausedPipeline) in
  option_map SystemAudioCapture.active (systemAudioCapture w) = Some true
  /\ option_map MicrophoneCapture.isRecording (microphoneCapture w)
     = Some false
  /\ option_map MicrophoneCapture.isRecording
       (microphoneCapture
          (fst (run sampleEnv [AStartMeeting None] pausedPipeline)))
     = Some true.
Proof. repeat split. Qed.

(** * Further properties of the code *)

(** ** MicrophoneCapture.ts: constructor and sample rate *)

(** X1. The constructor throws exactly when the native class exists and its
    constructor throws for the normalised device id; an empty device id is
    the default device; every handle it returns is idle, has no listener,
    carries the normalised device id, and lacks a monitor exactly when the
    native class is missing. *)
Theorem mic_constructor_outcome (cls : NativeClass) (dev : option string) :
  (forall e,
      fst (MicrophoneCapture.new cls dev) = Throw e
      <-> exists ctor, cls = Some ctor /\ ctor (or_undefined dev) = Throw e)
  /\ MicrophoneCapture.new cls (Some "") = MicrophoneCapture.new cls None
  /\ (forall h,
         fst (MicrophoneCapture.new cls dev) = Ok h ->
         MicrophoneCapture.isRecording h = false
         /\ MicrophoneCapture.emitter h = []
         /\ MicrophoneCapture.deviceId h = or_undefined dev
         /\ (MicrophoneCapture.monitor h = None <-> cls = None)).
Proof.
  unfold MicrophoneCapture.new. split; [|split].
  - intros e. split.
    + destruct cls as [ctor|]; [|discriminate].
      destruct (ctor (or_undefined dev)) as [m|e'] eqn:Hc; [discriminate|].
      cbn. intros [= <-]. now exists ctor.
    + intros [ctor [-> Hc]]. now rewrite Hc.
  - reflexivity.
  - intros h. destruct cls as [ctor|].
    + destruct (ctor (or_undefined dev)) as [m|e'] eqn:Hc; [|discriminate].
      cbn. intros [= <-]. cbn. repeat split; discriminate.
    + cbn. intros [= <-]. cbn. repeat split; reflexivity.
Qed.

Lemma mic_constructor_outcome_witness :
  (exists ctor : option string -> Res Monitor,
      Some (fun _ : option string => @Throw Monitor "no input device")
      = Some ctor
      /\ ctor (or_undefined (Some "mic-2")) = Throw "no input device")
  /\ fst (MicrophoneCapture.new
            (Some (fun _ => Throw "no input device")) (Some "mic-2"))
     = Throw "no input device"
  /\ MicrophoneCapture.deviceId (wiredMic None false) = None.
Proof.
  destruct (mic_constructor_outcome
              (Some (fun _ => Throw "no input device")) (Some "mic-2"))
    as [Hthrow _].
  assert (Hex : exists ctor : option string -> Res Monitor,
             Some (fun _ : option string => @Throw Monitor "no input device")
             = Some ctor
             /\ ctor (or_undefined (Some "mic-2")) = Throw "no input device")
    by (eexists; split; reflexivity).
  split; [exact Hex|]. split; [|reflexivity].
  exact (proj2 (Hthrow "no input device") Hex).
Defined.

Lemma mic_getSampleRate_eq (h : MicrophoneCapture.t) :
  MicrophoneCapture.getSampleRate h
  = match MicrophoneCapture.monitor h with
    | None => (Ok 16000, h, [])
    | Some m =>
        (match mon_getSampleRate m with
         | Ok r => Ok (or_16000 r)
         | Throw e => Throw e
         end, h, [HNative NGetSampleRate])
    end.
Proof.
  unfold MicrophoneCapture.getSampleRate, bind, get, native, tell, liftRes, ret.
  destruct (MicrophoneCapture.monitor h) as [m|]; [|reflexivity].
  now destruct (mon_getSampleRate m).
Qed.

(** X2. [getSampleRate()] never returns 0 and never changes the handle: it
    returns the rate of the native monitor, 16000 when that rate is 0, and
    16000 without any native call when there is no monitor; it throws only
    when the native call throws. *)
Theorem mic_getSampleRate_never_zero (h : MicrophoneCapture.t) :
  state (MicrophoneCapture.getSampleRate h) = h
  /\ (forall R, result (MicrophoneCapture.getSampleRate h) = Ok R -> R <> 0)
  /\ (forall m r,
         MicrophoneCapture.monitor h = Some m ->
         mon_getSampleRate m = Ok r ->
         result (MicrophoneCapture.getSampleRate h)
         = Ok (if r =? 0 then 16000 else r))
  /\ (MicrophoneCapture.monitor h = None ->
      MicrophoneCapture.getSampleRate h = (Ok 16000, h, []))
  /\ (forall e,
         result (MicrophoneCapture.getSampleRate h) = Throw e ->
         exists m, MicrophoneCapture.monitor h = Some m
                   /\ mon_getSampleRate m = Throw e).
Proof.
  rewrite mic_getSampleRate_eq.
  destruct (MicrophoneCapture.monitor h) as [m|] eqn:Hm.
  - split; [reflexivity|]. split; [|split; [|split]].
    + intros R. unfold result. cbn [fst].
      destruct (mon_getSampleRate m) as [r|e]; [|discriminate].
      intros [= <-]. unfold or_16000. destruct (Z.eqb_spec r 0); lia.
    + intros m' r [= <-] Hr. unfold result. cbn [fst]. now rewrite Hr.
    + discriminate.
    + intros e. unfold result. cbn [fst].
      destruct (mon_getSampleRate m) as [r|e'] eqn:Hr; [discriminate|].
      intros [= <-]. now exists m.
  - split; [reflexivity|]. split; [|split; [|split]].
    + intros R [= <-]. lia.
    + discriminate.
    + reflexivity.
    + discriminate.
Qed.

Lemma mic_getSampleRate_never_zero_witness :
  let silent := {| mon_getSampleRate := Ok 0; mon_start := Ok tt;
                   mon_stop := Ok tt |} in
  result (MicrophoneCapture.getSampleRate (wiredMic (Some silent) false))
  = Ok 16000
  /\ result (MicrophoneCapture.getSampleRate
               (wiredMic (Some workingMonitor) false)) = Ok 48000
  /\ MicrophoneCapture.getSampleRate (wiredMic None false)
     = (Ok 16000, wiredMic None false, []).
Proof.
  split; [|split].
  - exact (proj1 (proj2 (proj2 (mic_getSampleRate_never_zero
                                  (wiredMic (Some {| mon_getSampleRate := Ok 0;
                                                     mon_start := Ok tt;
                                                     mon_stop := Ok tt |})
                                            false))))
             _ 0 eq_refl eq_refl).
  - exact (proj1 (proj2 (proj2 (mic_getSampleRate_never_zero
                                  (wiredMic (Some workingMonitor) false))))
             _ 48000 eq_refl eq_refl).
  - exact (proj1 (proj2 (proj2 (proj2 (mic_getSampleRate_never_zero
                                         (wiredMic None false)))))
             eq_refl).
Defined.

(** X3. Once a recording handle is stopped it reports 16000, whatever rate
    its device had, and asks the native layer nothing. *)
Theorem stopped_handle_reports_fallback_rate (h : MicrophoneCapture.t) :
  MicrophoneCapture.isRecording h = true ->
  MicrophoneCapture.getSampleRate (state (MicrophoneCapture.stop h))
  = (Ok 16000, state (MicrophoneCapture.stop h), []).
Proof.
  intros Hr. rewrite (mic_stop_recording h Hr), state_triple.
  now rewrite mic_getSampleRate_eq.
Qed.

Lemma stopped_handle_reports_fallback_rate_witness :
  let h := wiredMic (Some workingMonitor) true in
  result (MicrophoneCapture.getSampleRate h) = Ok 48000
  /\ result (MicrophoneCapture.getSampleRate
               (state (MicrophoneCapture.stop h))) = Ok 16000.
Proof.
  split; [reflexivity|].
  now rewrite (stopped_handle_reports_fallback_rate
                 (wiredMic (Some workingMonitor) true) eq_refl).
Defined.

(** ** MicrophoneCapture.ts: the lifetime of a handle *)

Lemma count_app {A} (p : A -> bool) (l1 l2 : list A) :
  count p (l1 ++ l2) = (count p l1 + count p l2)%nat.
Proof. unfold count. now rewrite filter_app, length_app. Qed.

Lemma count_invocations (p : HEffect -> bool) (q : Payload)
    (ls : list Listener) :
  (forall l, p (HInvoke l q) = false) ->
  count p (map (fun l => HInvoke l q) ls) = 0%nat.
Proof.
  intros Hp. unfold count. induction ls as [|l ls IH]; [reflexivity|].
  cbn. now rewrite Hp.
Qed.

(** The four outcomes of [start] and the two of [stop]. *)
Lemma mic_start_cases (h : MicrophoneCapture.t) :
  MicrophoneCapture.start h = (Ok tt, h, [])
  /\ MicrophoneCapture.isRecording h = true
  \/ MicrophoneCapture.start h
     = (Ok tt, h, [HLog Error "[MicrophoneCapture] Monitor not initialized"])
     /\ MicrophoneCapture.isRecording h = false
     /\ MicrophoneCapture.monitor h = None
  \/ (exists m,
         MicrophoneCapture.start h
         = (Ok tt, MicrophoneCapture.set_isRecording true h, startTrace h)
         /\ MicrophoneCapture.isRecording h = false
         /\ MicrophoneCapture.monitor h = Some m
         /\ mon_start m = Ok tt)
  \/ (exists m e,
         MicrophoneCapture.start h
         = (if Nat.eqb (listenerCount "error" h) 0 then Throw e else Ok tt,
            h, startFailureTrace e h)
         /\ MicrophoneCapture.isRecording h = false
         /\ MicrophoneCapture.monitor h = Some m
         /\ mon_start m = Throw e).
Proof.
  destruct (MicrophoneCapture.isRecording h) eqn:Hr.
  - left. now rewrite mic_start_recording.
  - destruct (MicrophoneCapture.monitor h) as [m|] eqn:Hm.
    + destruct (mon_start m) as [[]|e] eqn:Hs.
      * right; right; left. exists m.
        now rewrite (mic_start_native_ok h m Hr Hm Hs).
      * right; right; right. exists m, e.
        now rewrite (mic_start_native_throws h m e Hr Hm Hs).
    + right; left. now rewrite mic_start_no_monitor.
Qed.

Lemma count_stopTrace (p : HEffect -> bool) (h : MicrophoneCapture.t) :
  (forall l q, p (HInvoke l q) = false) ->
  (forall l s, p (HLog l s) = false) ->
  count p (stopTrace h)
  = ((if isSome (MicrophoneCapture.monitor h)
      then count p [HNative NStop] else 0)
     + count p [HEmit "stop" PNone])%nat.
Proof.
  intros Hi Hl. unfold stopTrace.
  assert (Hinv : forall r,
             count p (r ++ HEmit "stop" PNone
                        :: map (fun l => HInvoke l PNone)
                             (listenersFor "stop" (MicrophoneCapture.emitter h)))
             = (count p r + count p [HEmit "stop" PNone])%nat).
  { intros r.
    change (HEmit "stop" PNone :: ?t) with ([HEmit "stop" PNone] ++ t).
    rewrite !count_app, (count_invocations p PNone _ (fun l => Hi l PNone)).
    change (count p []) with 0%nat. lia. }
  change (?x :: ?l ++ ?r) with ((x :: l) ++ r). rewrite Hinv.
  f_equal. unfold count. cbn [filter]. rewrite Hl.
  destruct (MicrophoneCapture.monitor h) as [m|]; cbn [isSome]; [|reflexivity].
  cbn [filter]. destruct (mon_stop m); cbn [filter]; rewrite ?Hl;
    destruct (p (HNative NStop)); reflexivity.
Qed.

Lemma count_startTrace (p : HEffect -> bool) (h : MicrophoneCapture.t) :
  (forall l q, p (HInvoke l q) = false) ->
  (forall l s, p (HLog l s) = false) ->
  count p (startTrace h)
  = (count p [HNative NStart] + count p [HEmit "start" PNone])%nat.
Proof.
  intros Hi Hl. unfold startTrace.
  rewrite count_app, (count_invocations p PNone _ (fun l => Hi l PNone)).
  unfold count. cbn [filter]. rewrite Hl.
  destruct (p (HNative NStart)), (p (HEmit "start" PNone)); cbn; lia.
Qed.

Lemma count_startFailureTrace (p : HEffect -> bool) (e : Err)
    (h : MicrophoneCapture.t) :
  (forall l q, p (HInvoke l q) = false) ->
  (forall l s, p (HLog l s) = false) ->
  count p (startFailureTrace e h)
  = (count p [HNative NStart] + count p [HEmit "error" (PError e)])%nat.
Proof.
  intros Hi Hl. unfold startFailureTrace.
  rewrite count_app, (count_invocations p _ _ (fun l => Hi l (PError e))).
  unfold count. cbn [filter]. rewrite !Hl.
  destruct (p (HNative NStart)), (p (HEmit "error" (PError e))); cbn; lia.
Qed.

(** One operation spends what it produces: ['start'] events, ['stop'] events
    and native stops are paid from what the handle has left. *)
Lemma runMicOp_budget (op : MicOp) (h : MicrophoneCapture.t) :
  (count (isEmit "start") (trace (runMicOp op h))
   + startsLeft (state (runMicOp op h)) <= startsLeft h)%nat
  /\ (count (isEmit "stop") (trace (runMicOp op h))
      + stopsLeft (state (runMicOp op h)) <= stopsLeft h)%nat
  /\ (count isNativeStop (trace (runMicOp op h))
      + nativeStopsLeft (state (runMicOp op h)) <= nativeStopsLeft h)%nat.
Proof.
  destruct op as [| | |name l|chunk]; cbn [runMicOp].
  - destruct (mic_start_cases h)
      as [[-> Hr]|[[-> [Hr Hm]]|[[m [-> [Hr [Hm Hs]]]]|[m [e [-> [Hr [Hm Hs]]]]]]]];
      unfold state, trace; cbn [fst snd];
      rewrite ?count_startTrace, ?count_startFailureTrace by reflexivity;
      unfold startsLeft, stopsLeft, nativeStopsLeft; cbn;
      rewrite ?Hr, ?Hm; cbn; lia.
  - destruct (MicrophoneCapture.isRecording h) eqn:Hr.
    + rewrite (mic_stop_recording h Hr). unfold state, trace. cbn [fst snd].
      rewrite !count_stopTrace by reflexivity.
      unfold startsLeft, stopsLeft, nativeStopsLeft. cbn. rewrite Hr.
      destruct (MicrophoneCapture.monitor h); cbn; lia.
    + rewrite (mic_stop_idle h Hr). cbn. lia.
  - unfold bind. rewrite mic_getSampleRate_eq.
    destruct (MicrophoneCapture.monitor h) as [m|] eqn:Hm;
      [destruct (mon_getSampleRate m)|]; cbn; lia.
  - unfold startsLeft, stopsLeft, nativeStopsLeft. cbn. lia.
  - rewrite mic_onChunk_eq.
    destruct chunk as [[|b c]|]; unfold state, trace; cbn [fst snd];
      try (cbn; lia).
    change (HEmit "data" ?q :: ?r) with ([HEmit "data" q] ++ r).
    rewrite !count_app, !count_invocations by reflexivity. cbn. lia.
Qed.

Lemma runMicOps_budget (ops : list MicOp) (h : MicrophoneCapture.t) :
  (count (isEmit "start") (snd (runMicOps ops h)) <= startsLeft h)%nat
  /\ (count (isEmit "stop") (snd (runMicOps ops h)) <= stopsLeft h)%nat
  /\ (count isNativeStop (snd (runMicOps ops h)) <= nativeStopsLeft h)%nat.
Proof.
  revert h. induction ops as [|op ops IH]; intros h.
  - cbn. lia.
  - cbn [runMicOps snd]. rewrite !count_app.
    destruct (runMicOp_budget op h) as [H1 [H2 H3]].
    destruct (IH (state (runMicOp op h))) as [I1 [I2 I3]]. lia.
Qed.

(** X4. A handle is good for one recording: over any history of starts,
    stops, rate queries, listener registrations and native chunks, and from
    any state of the handle, there is at most one ['start'] event, at most
    one ['stop'] event and at most one native stop call. *)
Theorem mic_handle_single_use (ops : list MicOp) (h : MicrophoneCapture.t) :
  (count (isEmit "start") (snd (runMicOps ops h)) <= 1)%nat
  /\ (count (isEmit "stop") (snd (runMicOps ops h)) <= 1)%nat
  /\ (count isNativeStop (snd (runMicOps ops h)) <= 1)%nat.
Proof.
  destruct (runMicOps_budget ops h) as [H1 [H2 H3]].
  unfold startsLeft, stopsLeft, nativeStopsLeft in *.
  destruct (MicrophoneCapture.isRecording h),
    (isSome (MicrophoneCapture.monitor h)); lia.
Qed.

Lemma runMicOp_balance (op : MicOp) (h : MicrophoneCapture.t) :
  (count (isEmit "start") (trace (runMicOp op h))
   + b2n (MicrophoneCapture.isRecording h)
   = count (isEmit "stop") (trace (runMicOp op h))
     + b2n (MicrophoneCapture.isRecording (state (runMicOp op h))))%nat.
Proof.
  destruct op as [| | |name l|chunk]; cbn [runMicOp].
  - destruct (mic_start_cases h)
      as [[-> Hr]|[[-> [Hr Hm]]|[[m [-> [Hr [Hm Hs]]]]|[m [e [-> [Hr [Hm Hs]]]]]]]];
      unfold state, trace; cbn [fst snd];
      rewrite ?count_startTrace, ?count_startFailureTrace by reflexivity;
      cbn; rewrite ?Hr; cbn; lia.
  - destruct (MicrophoneCapture.isRecording h) eqn:Hr.
    + rewrite (mic_stop_recording h Hr). unfold state, trace. cbn [fst snd].
      rewrite !count_stopTrace by reflexivity.
      destruct (MicrophoneCapture.monitor h); cbn; lia.
    + rewrite (mic_stop_idle h Hr). cbn. rewrite Hr. cbn. lia.
  - unfold bind. rewrite mic_getSampleRate_eq.
    destruct (MicrophoneCapture.monitor h) as [m|] eqn:Hm;
      [destruct (mon_getSampleRate m)|]; cbn; lia.
  - cbn. lia.
  - rewrite mic_onChunk_eq.
    destruct chunk as [[|b c]|]; unfold state, trace; cbn [fst snd];
      try (cbn; lia).
    change (HEmit "data" ?q :: ?r) with ([HEmit "data" q] ++ r).
    rewrite !count_app, !count_invocations by reflexivity. cbn. lia.
Qed.

(** X5. ['start'] and ['stop'] events bracket the recording state: over any
    history, from any state of the handle, the ['start'] events exceed the
    ['stop'] events by one when the handle goes from idle to recording, the
    reverse when it goes from recording to idle, and they are as many
    otherwise. *)
Theorem mic_events_bracket_recording (ops : list MicOp)
    (h : MicrophoneCapture.t) :
  (count (isEmit "start") (snd (runMicOps ops h))
   + b2n (MicrophoneCapture.isRecording h)
   = count (isEmit "stop") (snd (runMicOps ops h))
     + b2n (MicrophoneCapture.isRecording (fst (runMicOps ops h))))%nat.
Proof.
  revert h. induction ops as [|op ops IH]; intros h.
  - cbn. lia.
  - cbn [runMicOps fst snd]. rewrite !count_app.
    pose proof (runMicOp_balance op h) as H1.
    pose proof (IH (state (runMicOp op h))) as H2. lia.
Qed.

Lemma runMicOp_monitored (op : MicOp) (h : MicrophoneCapture.t) :
  monitored h = true ->
  monitored (state (runMicOp op h)) = true
  /\ count (isEmit "stop") (trace (runMicOp op h))
     = count isNativeStop (trace (runMicOp op h)).
Proof.
  unfold monitored. intros Hmon.
  destruct op as [| | |name l|chunk]; cbn [runMicOp].
  - destruct (mic_start_cases h)
      as [[-> Hr]|[[-> [Hr Hm]]|[[m [-> [Hr [Hm Hs]]]]|[m [e [-> [Hr [Hm Hs]]]]]]]];
      unfold state, trace; cbn [fst snd];
      rewrite ?count_startTrace, ?count_startFailureTrace by reflexivity;
      cbn; rewrite ?Hr, ?Hm in *; cbn; split; solve [reflexivity|assumption].
  - destruct (MicrophoneCapture.isRecording h) eqn:Hr.
    + rewrite (mic_stop_recording h Hr). unfold state, trace. cbn [fst snd].
      rewrite !count_stopTrace by reflexivity.
      destruct (MicrophoneCapture.monitor h); [|discriminate].
      cbn. split; reflexivity.
    + rewrite (mic_stop_idle h Hr). cbn. rewrite Hr. split; reflexivity.
  - unfold bind. rewrite mic_getSampleRate_eq.
    destruct (MicrophoneCapture.monitor h) as [m|] eqn:Hm;
      [destruct (mon_getSampleRate m)|]; cbn; rewrite ?Hm in *;
      split; solve [reflexivity|assumption].
  - cbn. split; [assumption|reflexivity].
  - rewrite mic_onChunk_eq.
    destruct chunk as [[|b c]|]; unfold state, trace; cbn [fst snd];
      try (split; [assumption|reflexivity]).
    change (HEmit "data" ?q :: ?r) with ([HEmit "data" q] ++ r).
    rewrite !count_app, !count_invocations by reflexivity.
    split; [assumption|reflexivity].
Qed.

(** X6. A handle made by the constructor never records without its native
    monitor, so each ['stop'] event follows a call of the native stop:
    over any history of such a handle there are as many ['stop'] events as
    native stop calls. *)
Theorem constructed_mic_stops_natively (cls : NativeClass)
    (dev : option string) (h0 : MicrophoneCapture.t) (ops : list MicOp) :
  fst (MicrophoneCapture.new cls dev) = Ok h0 ->
  monitored (fst (runMicOps ops h0)) = true
  /\ count (isEmit "stop") (snd (runMicOps ops h0))
     = count isNativeStop (snd (runMicOps ops h0)).
Proof.
  intros Hnew.
  assert (H0 : monitored h0 = true).
  { unfold MicrophoneCapture.new in Hnew. destruct cls as [ctor|].
    - destruct (ctor (or_undefined dev)); [|discriminate].
      cbn in Hnew. now injection Hnew as <-.
    - cbn in Hnew. now injection Hnew as <-. }
  clear Hnew. revert h0 H0. induction ops as [|op ops IH]; intros h H0.
  - now cbn.
  - cbn [runMicOps fst snd]. rewrite !count_app.
    destruct (runMicOp_monitored op h H0) as [H1 H2].
    destruct (IH _ H1) as [I1 I2]. split; [exact I1|]. now rewrite H2, I2.
Qed.

Lemma constructed_mic_stops_natively_witness :
  let h0 := {| MicrophoneCapture.monitor := Some workingMonitor;
               MicrophoneCapture.isRecording := false;
               MicrophoneCapture.deviceId := None;
               MicrophoneCapture.emitter := [] |} in
  let ops := [DoStart; DoNativeChunk (Some [x00%byte]); DoStop; DoStart;
              DoStop] in
  fst (MicrophoneCapture.new (Some (fun _ => Ok workingMonitor)) None) = Ok h0
  /\ count (isEmit "stop") (snd (runMicOps ops h0)) = 1%nat
  /\ count isNativeStop (snd (runMicOps ops h0)) = 1%nat.
Proof.
  cbv zeta. split; [reflexivity|].
  destruct (constructed_mic_stops_natively
              (Some (fun _ => Ok workingMonitor)) None
              {| MicrophoneCapture.monitor := Some workingMonitor;
                 MicrophoneCapture.isRecording := false;
                 MicrophoneCapture.deviceId := None;
                 MicrophoneCapture.emitter := [] |}
              [DoStart; DoNativeChunk (Some [x00%byte]); DoStop; DoStart;
               DoStop] eq_refl) as [_ Heq].
  split; [reflexivity|]. rewrite <- Heq. reflexivity.
Defined.

Lemma runMicOp_emitter (op : MicOp) (h : MicrophoneCapture.t) :
  MicrophoneCapture.emitter (state (runMicOp op h))
  = MicrophoneCapture.emitter h
    ++ match op with
       | DoOn name l => [(name, l)]
       | _ => []
       end.
Proof.
  destruct op as [| | |name l|chunk]; cbn [runMicOp]; rewrite ?app_nil_r.
  - destruct (mic_start_cases h)
      as [[-> Hr]|[[-> [Hr Hm]]|[[m [-> [Hr [Hm Hs]]]]|[m [e [-> [Hr [Hm Hs]]]]]]]];
      reflexivity.
  - destruct (MicrophoneCapture.isRecording h) eqn:Hr.
    + now rewrite (mic_stop_recording h Hr).
    + now rewrite (mic_stop_idle h Hr).
  - unfold bind. rewrite mic_getSampleRate_eq.
    destruct (MicrophoneCapture.monitor h) as [m|];
      [destruct (mon_getSampleRate m)|]; reflexivity.
  - reflexivity.
  - rewrite mic_onChunk_eq. destruct chunk as [[|b c]|]; reflexivity.
Qed.

(** X7. Listeners are only ever added, and only by [on]: after any history
    the listener list of a handle is the initial one followed by the
    registrations of the history, in order.  Starting, stopping (also a
    failed start or a stop that drops the monitor) and chunks remove none. *)
Theorem mic_listeners_only_grow (ops : list MicOp) (h : MicrophoneCapture.t) :
  MicrophoneCapture.emitter (fst (runMicOps ops h))
  = MicrophoneCapture.emitter h ++ registrations ops.
Proof.
  revert h. induction ops as [|op ops IH]; intros h.
  - cbn. now rewrite app_nil_r.
  - cbn [runMicOps fst]. rewrite IH, runMicOp_emitter.
    unfold registrations. cbn [flat_map]. now rewrite <- app_assoc.
Qed.

(** X8. A failure of the native stop changes nothing but the log: a recording
    handle ends in the same state, and leaves the same trace apart from error
    logs, whatever monitor it holds; the error is logged exactly when the
    native stop throws, and [stop] returns normally. *)
Theorem mic_stop_swallows_native_failure (h : MicrophoneCapture.t)
    (m m' : Monitor) :
  MicrophoneCapture.isRecording h = true ->
  MicrophoneCapture.monitor h = Some m ->
  result (MicrophoneCapture.stop h) = Ok tt
  /\ state (MicrophoneCapture.stop h)
     = state (MicrophoneCapture.stop (overMonitor m' h))
  /\ filter (fun e => negb (isErrorLog e)) (trace (MicrophoneCapture.stop h))
     = filter (fun e => negb (isErrorLog e))
         (trace (MicrophoneCapture.stop (overMonitor m' h)))
  /\ count isErrorLog (trace (MicrophoneCapture.stop h))
     = b2n (throws (mon_stop m)).
Proof.
  intros Hr Hm.
  rewrite (mic_stop_recording h Hr),
    (mic_stop_recording (overMonitor m' h) Hr).
  unfold result, state, trace. cbn [fst snd].
  split; [reflexivity|]. split; [reflexivity|].
  unfold stopTrace. rewrite Hm. cbn [overMonitor MicrophoneCapture.set_monitor
    MicrophoneCapture.monitor MicrophoneCapture.emitter].
  change (?x :: ?l ++ ?r) with ((x :: l) ++ r).
  rewrite !filter_app, count_app. split.
  - f_equal. destruct (mon_stop m), (mon_stop m'); reflexivity.
  - change (HEmit "stop" PNone :: ?r) with ([HEmit "stop" PNone] ++ r).
    rewrite count_app, count_invocations by reflexivity.
    destruct (mon_stop m); reflexivity.
Qed.

Lemma mic_stop_swallows_native_failure_witness :
  let unplugged := {| mon_getSampleRate := Ok 48000; mon_start := Ok tt;
                      mon_stop := Throw "device lost" |} in
  let h := wiredMic (Some unplugged) true in
  result (MicrophoneCapture.stop h) = Ok tt
  /\ state (MicrophoneCapture.stop h)
     = state (MicrophoneCapture.stop (overMonitor workingMonitor h))
  /\ count isErrorLog (trace (MicrophoneCapture.stop h)) = 1%nat.
Proof.
  cbv zeta.
  destruct (mic_stop_swallows_native_failure
              (wiredMic (Some {| mon_getSampleRate := Ok 48000;
                                 mon_start := Ok tt;
                                 mon_stop := Throw "device lost" |}) true)
              {| mon_getSampleRate := Ok 48000; mon_start := Ok tt;
                 mon_stop := Throw "device lost" |}
              workingMonitor eq_refl eq_refl) as [H1 [H2 [_ H4]]].
  split; [exact H1|]. split; [exact H2|]. rewrite H4. reflexivity.
Defined.

(** X9. [start()] throws exactly when the handle is idle, has a monitor whose
    native start throws, and no ['error'] listener is registered; the
    exception is then the native one.  It calls the native start once when
    the handle is idle with a monitor and never otherwise, and the handle
    records afterwards exactly when it did before or that call returned. *)
Theorem mic_start_outcome (h : MicrophoneCapture.t) :
  (forall e,
      result (MicrophoneCapture.start h) = Throw e
      <-> MicrophoneCapture.isRecording h = false
          /\ listenerCount "error" h = 0%nat
          /\ exists m, MicrophoneCapture.monitor h = Some m
                       /\ mon_start m = Throw e)
  /\ count isNativeStart (trace (MicrophoneCapture.start h))
     = b2n (negb (MicrophoneCapture.isRecording h)
            && isSome (MicrophoneCapture.monitor h))
  /\ MicrophoneCapture.isRecording (state (MicrophoneCapture.start h))
     = (MicrophoneCapture.isRecording h
        || match MicrophoneCapture.monitor h with
           | Some m => is_ok (mon_start m)
           | None => false
           end).
Proof.
  destruct (mic_start_cases h)
    as [[-> Hr]|[[-> [Hr Hm]]|[[m [-> [Hr [Hm Hs]]]]|[m [e [-> [Hr [Hm Hs]]]]]]]];
    unfold result, state, trace; cbn [fst snd];
    rewrite ?count_startTrace, ?count_startFailureTrace by reflexivity;
    rewrite Hr, ?Hm, ?Hs; cbn.
  - repeat split; try discriminate. intros [? _]. discriminate.
  - repeat split; try discriminate. intros [_ [_ [m [? _]]]]. discriminate.
  - repeat split; try discriminate.
    intros [_ [_ [m' [[= <-] Hs']]]]. congruence.
  - split; [|split; reflexivity]. intros e'. split.
    + match goal with
      | |- context [Nat.eqb ?x 0] => destruct (Nat.eqb_spec x 0) as [Hc|Hc]
      end; [|discriminate].
      intros [= <-]. split; [reflexivity|]. split; [exact Hc|]. now exists m.
    + intros [_ [Hc [m' [[= <-] Hs']]]]. rewrite Hc. cbn. congruence.
Qed.

(** ** main.ts: post-session processing *)

Lemma process_eq (env : Env) (w : AppState) :
  processCompletedMeetingForRAG env w
  = (Ok tt, w,
     match ragManager w with
     | Some _ => processingTrace env
     | None => []
     end).
Proof.
  unfold processCompletedMeetingForRAG, processingTrace.
  unfold bind at 1. unfold get at 1.
  destruct (ragManager w) as [rag|]; [|reflexivity].
  unfold tryCatch, bind, tell, liftRes, log, ret. cbn.
  destruct (db_getRecentMeetings env 1) as [[|m0 ms]|e1]; cbn;
    try reflexivity.
  destruct (db_getMeetingDetails env (meeting_id m0)) as [[meeting|]|e2]; cbn;
    try reflexivity.
  destruct (transcript meeting) as [[|row rows]|]; cbn -[map];
    try reflexivity.
  change (fun t : StoredRow =>
            {| row_speaker := stored_speaker t; row_text := stored_text t;
               row_timestamp := stored_timestamp t |}) with ragSegment.
  destruct (rag_processMeeting env _ _ _) as [n|e3]; reflexivity.
Qed.

(** X10. What post-session processing hands to the RAG manager is taken
    from what storage holds: whenever [processMeeting] is called, the most
    recent meeting exists, its details were found under its id, the record
    has at least one transcript row, and the call carries the id of the
    details record, one segment for each stored row, in order, with the
    speaker, the text and the timestamp of that row, and a summary that is
    absent exactly when the record has no detailed summary. *)
Theorem rag_receives_stored_meeting (env : Env) (w : AppState) (id : string)
    (segments : list TranscriptRow) (summary : option string) :
  In (EProcessMeeting id segments summary)
     (trace (processCompletedMeetingForRAG env w)) ->
  exists m0 rest meeting rows,
    ragManager w <> None
    /\ db_getRecentMeetings env 1 = Ok (m0 :: rest)
    /\ db_getMeetingDetails env (meeting_id m0) = Ok (Some meeting)
    /\ id = meeting_id meeting
    /\ transcript meeting = Some rows
    /\ rows <> []
    /\ map row_speaker segments = map stored_speaker rows
    /\ map row_text segments = map stored_text rows
    /\ map row_timestamp segments = map stored_timestamp rows
    /\ summary = option_map summaryOf (detailedSummary meeting)
    /\ (summary = None <-> detailedSummary meeting = None).
Proof.
  rewrite process_eq. unfold trace. cbn [snd]. unfold processingTrace.
  destruct (ragManager w) as [rag|]; [|intros []].
  destruct (db_getRecentMeetings env 1) as [[|m0 rest]|e1] eqn:Hrec;
    try (cbn; intros [H|[H|[]]]; discriminate);
    try (cbn; intros [H|[]]; discriminate).
  destruct (db_getMeetingDetails env (meeting_id m0)) as [[meeting|]|e2]
    eqn:Hdet;
    try (cbn; intros [H|[H|[H|[]]]]; discriminate);
    try (cbn; intros [H|[H|[]]]; discriminate).
  destruct (transcript meeting) as [[|row rows]|] eqn:Ht;
    try (cbn; intros [H|[H|[]]]; discriminate).
  cbn -[map]. intros [H|[H|[H|[H|[]]]]]; try discriminate.
  - injection H as <- <- <-. exists m0, rest, meeting, (row :: rows).
    split; [discriminate|]. split; [reflexivity|]. split; [exact Hdet|].
    split; [reflexivity|]. split; [exact Ht|].
    split; [discriminate|].
    split; [cbn; rewrite map_map; reflexivity|].
    split; [cbn; rewrite map_map; reflexivity|].
    split; [cbn; rewrite map_map; reflexivity|].
    split; [reflexivity|].
    destruct (detailedSummary meeting); split; cbn; congruence.
  - destruct (rag_processMeeting env _ _ _); discriminate.
Qed.

Lemma rag_receives_stored_meeting_witness :
  exists m0 rest meeting rows,
    ragManager pausedPipeline <> None
    /\ db_getRecentMeetings summarisedEnv 1 = Ok (m0 :: rest)
    /\ db_getMeetingDetails summarisedEnv (meeting_id m0) = Ok (Some meeting)
    /\ "m-2" = meeting_id meeting
    /\ transcript meeting = Some rows
    /\ rows <> []
    /\ ["interviewer"] = map stored_speaker rows
    /\ ["tell me more"] = map stored_text rows
    /\ [2000] = map stored_timestamp rows
    /\ Some "scope agreed. deadline moved. Action: send notes"
       = option_map summaryOf (detailedSummary meeting)
    /\ (Some "scope agreed. deadline moved. Action: send notes" = None
        <-> detailedSummary meeting = None).
Proof.
  destruct (rag_receives_stored_meeting summarisedEnv pausedPipeline "m-2"
              [{| row_speaker := "interviewer"; row_text := "tell me more";
                  row_timestamp := 2000 |}]
              (Some "scope agreed. deadline moved. Action: send notes"))
    as [m0 [rest [meeting [rows H]]]].
  - vm_compute. right. right. left. reflexivity.
  - exists m0, rest, meeting, rows. exact H.
Defined.






(** ** main.ts: routing of chunks over any history *)

Lemma state_bind_keeps {X A B} (obs : AppState -> X)
    (m : M Effect AppState A) (k : A -> M Effect AppState B) (w : AppState) :
  (forall a, Keeps obs (k a)) ->
  obs (state (bind m k w)) = obs (state (m w)).
Proof.
  intros Hk. unfold bind.
  destruct (m w) as [[[a|e] s1] t1]; [|reflexivity].
  specialize (Hk a s1). destruct (k a s1) as [[r s2] t2].
  unfold state in *. cbn [fst snd] in *. exact Hk.
Qed.

Lemma routedHome_forwarding (r : Role) (w w' : AppState) :
  forwarding r w' = forwarding r w -> routedHome r w' = routedHome r w.
Proof.
  intros H. apply (f_equal fst) in H. cbn [forwarding fst] in H.
  unfold routedHome. now rewrite H.
Qed.

Lemma setup_wellRouted (env : Env) (rag : option RAGManager)
    (wh : WindowHelper) :
  wellRouted (state (setupSystemAudioPipeline env (initialState rag wh)))
  = true.
Proof.
  destruct env as [rmc sctor gctor nowf stopm rec det proc].
  unfold setupSystemAudioPipeline, SystemAudioCapture.new,
    MicrophoneCapture.new, GoogleSTT.new.
  cbn [RustMicCapture SystemAudioCapture_ctor GoogleSTT_ctor or_undefined].
  destruct (sctor None) as [m|e];
    (destruct rmc as [c|]; [destruct (c None) as [m'|e']|]);
    destruct (gctor SystemAudio) as [[]|e1];
    destruct (gctor Microphone) as [[]|e2]; reflexivity.
Qed.

Lemma listenersFor_none (name : string) (ls : list (string * Listener)) :
  List.length (listenersFor name ls) = 0%nat -> listenersFor name ls = [].
Proof. destruct (listenersFor name ls); [reflexivity|discriminate]. Qed.

Lemma installMicrophone_routedHome (env : Env) (i : option string)
    (w : AppState) :
  routedHome Microphone
    (state (installMicrophone env i (set_microphoneCapture None w))) = true.
Proof.
  destruct (installMicrophone_spec env i w) as [_ [_ [_ [_ Hsrc]]]].
  unfold routedHome.
  destruct (microphoneCapture
              (state (installMicrophone env i (set_microphoneCapture None w))))
    as [src|] eqn:Hf.
  - destruct (Nat.eq_dec (listenerCount "data" src) 0) as [Hz|Hnz].
    + unfold dataListeners. rewrite Hf. cbn [option_map].
      unfold listenerCount in Hz. apply listenersFor_none in Hz.
      cbn [listeners MicrophoneCapture.eventEmitter
             SystemAudioCapture.eventEmitter] in Hz.
      now rewrite Hz.
    + destruct (Hsrc src eq_refl Hnz) as [Hd _]. now rewrite Hd.
  - unfold dataListeners. now rewrite Hf.
Qed.

Lemma installSystemAudio_routedHome (env : Env) (o : option string)
    (w : AppState) :
  routedHome SystemAudio
    (state (installSystemAudio env o (set_systemAudioCapture None w))) = true.
Proof.
  destruct (installSystemAudio_spec env o w) as [_ [_ [_ [_ Hsrc]]]].
  unfold routedHome.
  destruct (systemAudioCapture
              (state (installSystemAudio env o
                        (set_systemAudioCapture None w))))
    as [src|] eqn:Hf.
  - destruct (Nat.eq_dec (listenerCount "data" src) 0) as [Hz|Hnz].
    + unfold dataListeners. rewrite Hf. cbn [option_map].
      unfold listenerCount in Hz. apply listenersFor_none in Hz.
      cbn [listeners MicrophoneCapture.eventEmitter
             SystemAudioCapture.eventEmitter] in Hz.
      now rewrite Hz.
    + destruct (Hsrc src eq_refl Hnz) as [Hd _]. now rewrite Hd.
  - unfold dataListeners. now rewrite Hf.
Qed.

(** Whatever the pipeline was, a reconfiguration leaves it well routed. *)
Lemma reconfigureAudio_wellRouted (env : Env) (i o : option string)
    (w : AppState) :
  wellRouted (state (reconfigureAudio env i o w)) = true.
Proof.
  rewrite reconfigureAudio_eq, state_triple. unfold wellRouted.
  rewrite installMicrophone_routedHome, andb_true_r.
  destruct (installMicrophone_spec env i
              (state (installSystemAudio env o
                        (set_systemAudioCapture None w))))
    as [_ [_ [Hsys _]]].
  cbv zeta in Hsys.
  pose proof (installSystemAudio_routedHome env o w) as Hr.
  unfold routedHome, dataListeners in *. now rewrite Hsys.
Qed.

Lemma starts_keep_forwarding (env : Env) (r : Role) :
  Keeps (forwarding r)
    (invoke_opt env F_systemAudioCapture SystemAudioCapture.start ;;
     invoke_opt env (F_stt SystemAudio) GoogleSTT.start ;;
     invoke_opt env F_microphoneCapture MicrophoneCapture.start ;;
     invoke_opt env (F_stt Microphone) GoogleSTT.start).
Proof. repeat forwarding_step. Qed.

Lemma act_wellRouted (env : Env) (a : Action) (w : AppState) :
  wellRouted w = true -> wellRouted (state (act env a w)) = true.
Proof.
  intros Hw. destruct (keepsDevices a) eqn:Hk.
  - unfold wellRouted in *.
    now rewrite !(routedHome_forwarding _ w _
                    (act_keeps_forwarding env _ a Hk w)).
  - destruct a as [[[ttl [au|]]|]| |r' chunk|r' ev]; try discriminate Hk.
    cbn [act]. unfold startMeeting. cbn [audio].
    unfold log. unfold bind at 1. unfold tell at 1.
    match goal with
    | |- context [bind ?m ?k w] =>
        destruct (bind m k w) as [[res w1] t1] eqn:Hb;
        assert (Hs : forall r, forwarding r w1
                               = forwarding r
                                   (state (reconfigureAudio env
                                             (inputDeviceId au)
                                             (outputDeviceId au) w)))
    end.
    { intros r.
      pose proof (state_bind_keeps (forwarding r)
                    (tell (ESetMeetingMetadata
                             {| title := ttl; audio := Some au |}) ;;
                     reconfigureAudio env (inputDeviceId au)
                       (outputDeviceId au))
                    (fun _ =>
                       invoke_opt env F_systemAudioCapture
                         SystemAudioCapture.start ;;
                       invoke_opt env (F_stt SystemAudio) GoogleSTT.start ;;
                       invoke_opt env F_microphoneCapture
                         MicrophoneCapture.start ;;
                       invoke_opt env (F_stt Microphone) GoogleSTT.start)
                    w (fun _ => starts_keep_forwarding env r)) as Hkeep.
      rewrite Hb, state_triple in Hkeep. rewrite Hkeep.
      unfold bind, tell.
      now destruct (reconfigureAudio env (inputDeviceId au)
                      (outputDeviceId au) w) as [[r0 s0] t0]. }
    rewrite state_triple. unfold wellRouted.
    rewrite !(routedHome_forwarding _ _ _ (Hs _)).
    apply reconfigureAudio_wellRouted.
Qed.

Lemma run_wellRouted (env : Env) (actions : list Action) (w : AppState) :
  wellRouted w = true -> wellRouted (fst (run env actions w)) = true.
Proof.
  revert w. induction actions as [|a rest IH]; intros w Hw; [exact Hw|].
  cbn [run fst]. apply IH. now apply act_wellRouted.
Qed.

(** What reaches the stream of any role when the native layer delivers a
    chunk to the capture of role [r0]. *)
Lemma nativeChunk_writes_to (env : Env) (r r0 : Role)
    (chunk : option Buffer) (w : AppState) :
  writes r (trace (nativeChunk env r0 chunk w))
  = match emitted r0 chunk, dataListeners r0 w with
    | Some c, Some ls => forwarded r (configuredRate r w) c ls
    | _, _ => []
    end.
Proof.
  destruct r0; cbn [nativeChunk dataListeners emitted].
  - destruct chunk as [c|]; [|reflexivity].
    destruct (systemAudioCapture w) as [h|] eqn:Hf.
    + cbn [option_map].
      assert (Hm : SystemAudioCapture.onChunk c h
                   = (Ok tt, h,
                      HEmit "data" (PChunk c)
                      :: map (fun l => HInvoke l (PChunk c))
                             (listenersFor "data" (listeners h)))).
      { unfold SystemAudioCapture.onChunk, bind.
        rewrite emit_plain by reflexivity. cbn. now rewrite app_nil_r. }
      assert (Hrate : forall v w0,
                 configuredRate r (fset F_systemAudioCapture v w0)
                 = configuredRate r w0) by (intros v w0; now destruct r).
      exact (invoke_chunk_writes env r SystemAudio
               F_systemAudioCapture c w h _ eq_refl Hrate Hm Hf).
    + unfold invoke_opt, bind, get. cbn [fget F_systemAudioCapture].
      now rewrite Hf.
  - destruct (microphoneCapture w) as [h|] eqn:Hf.
    + cbn [option_map].
      assert (Hrate : forall v w0,
                 configuredRate r (fset F_microphoneCapture v w0)
                 = configuredRate r w0) by (intros v w0; now destruct r).
      destruct chunk as [[|b c]|].
      * unfold invoke_opt, bind, get, invoke.
        cbn [fget F_microphoneCapture]. repeat rewrite Hf.
        rewrite mic_onChunk_eq. reflexivity.
      * assert (Hm : MicrophoneCapture.onChunk (Some (b :: c)) h
                     = (Ok tt, h,
                        HEmit "data" (PChunk (b :: c))
                        :: map (fun l => HInvoke l (PChunk (b :: c)))
                               (listenersFor "data" (listeners h)))).
        { now rewrite mic_onChunk_eq. }
        exact (invoke_chunk_writes env r Microphone
                 F_microphoneCapture (b :: c) w h _ eq_refl Hrate Hm Hf).
      * unfold invoke_opt, bind, get, invoke.
        cbn [fget F_microphoneCapture]. repeat rewrite Hf.
        rewrite mic_onChunk_eq. reflexivity.
    + unfold invoke_opt, bind, get. cbn [fget F_microphoneCapture].
      rewrite Hf. now destruct chunk as [[|b c]|].
Qed.

(** X12. Chunks never cross between the two roles and are never duplicated:
    in every state reached from the setup through any history of meetings,
    reconfigurations, chunks and transcripts, a chunk delivered to the
    capture of one role writes nothing to the stream of the other role, and
    to its own stream either nothing or exactly the chunk the capture
    emitted, once, at the rate configured on that stream. *)
Theorem chunks_stay_in_their_role (env : Env) (rag : option RAGManager)
    (wh : WindowHelper) (actions : list Action) (r : Role)
    (chunk : option Buffer) :
  let w := fst (run env actions
                  (state (setupSystemAudioPipeline env
                            (initialState rag wh)))) in
  writes (otherRole r) (trace (nativeChunk env r chunk w)) = []
  /\ (writes r (trace (nativeChunk env r chunk w)) = []
      \/ exists n c,
          emitted r chunk = Some c
          /\ configuredRate r w = Some n
          /\ writes r (trace (nativeChunk env r chunk w)) = [(n, c)]).
Proof.
  cbv zeta.
  pose proof (run_wellRouted env actions _ (setup_wellRouted env rag wh))
    as Hw.
  set (w := fst (run env actions _)) in *.
  rewrite !nativeChunk_writes_to.
  unfold wellRouted in Hw. apply andb_prop in Hw as [Hs Hm].
  assert (Hr : routedHome r w = true) by now destruct r.
  unfold routedHome in Hr.
  destruct (emitted r chunk) as [c|]; [|split; [reflexivity|now left]].
  destruct (dataListeners r w) as [[|[r'| | |] [|l ls]]|];
    try discriminate Hr; try (split; [reflexivity|now left]).
  assert (Hrr : r' = r) by (destruct r, r'; try discriminate; reflexivity).
  subst r'.
  split; [destruct (configuredRate (otherRole r) w); now destruct r|].
  rewrite forwarded_own.
  destruct (configuredRate r w) as [n|]; [|now left].
  right. now exists n, c.
Qed.

(** ** Effects a computation can leave *)

Section Effects.

Context (p : Effect -> bool).
Hypothesis p_capture : forall r e, p (ECapture r e) = true.
Hypothesis p_stt : forall r e, p (EStt r e) = true.
Hypothesis p_log : forall l s, p (ELog l s) = true.
Hypothesis p_handleTranscript : forall s, p (EHandleTranscript s) = true.
Hypothesis p_send : forall b c s, p (ESend b c s) = true.














End Effects.

Lemma fwrap_capture_or_stt {H} (f : Field H) :
  (exists r, fwrap f = ECapture r) \/ (exists r, fwrap f = EStt r) ->
  forall p : Effect -> bool,
    (forall r e, p (ECapture r e) = true) ->
    (forall r e, p (EStt r e) = true) ->
    forall e, p (fwrap f e) = true.
Proof. intros [[r ->]|[r ->]] p Hc Hs e; auto. Qed.

(** ** main.ts: the RAG manager *)


(** X13. [initializeRAGManager] never throws and touches only the
    [ragManager] field.  The manager is constructed at most once, with
    [GOOGLE_API_KEY] when it is set and not empty and with [GEMINI_API_KEY]
    otherwise; the field holds a manager afterwards exactly when the database
    was ready and the constructor returned (a failure of [setLLMHelper] after
    that is logged and leaves the manager assigned); any failure is logged
    once, an unready database is not logged at all. *)
Theorem initializeRAGManager_outcome (env : RagEnv) (wh : WindowHelper) :
  let out := initializeRAGManager env (initialState None wh) in
  result out = Ok tt
  /\ state out = set_ragManager (ragManager (state out)) (initialState None wh)
  /\ isSome (ragManager (state out)) = ragReady env
  /\ (forall db k,
         In (INewRAGManager db k) (trace out) ->
         k = (match GOOGLE_API_KEY env with
              | Some (String c s) => Some (String c s)
              | _ => GEMINI_API_KEY env
              end)
         /\ DatabaseManager_db env = Ok (Some db))
  /\ count isInitError (trace out)
     = b2n (throws (DatabaseManager_db env)
            || match DatabaseManager_db env with
               | Ok (Some db) =>
                   negb (ragReady env) || throws (rag_setLLMHelper env)
               | _ => false
               end).
Proof.
  destruct env as [db g m ctor sl]. cbv zeta.
  unfold initializeRAGManager, ragReady, tryCatch, bind, liftRes, tell,
    modify, ret, result, state, trace, throws, or_string.
  cbn [DatabaseManager_db GOOGLE_API_KEY GEMINI_API_KEY RAGManager_ctor
       rag_setLLMHelper].
  destruct db as [[[]|]|e0];
    [destruct g as [[|c s]|]; cbn [String.eqb];
     (match goal with
      | |- context [ctor TheSqlite ?k] =>
          destruct (ctor TheSqlite k) as [rag|e1]
      end; [destruct sl as [[]|e2]|])| |];
    cbn; repeat split; try reflexivity;
    match goal with
    | H : False |- _ => elim H
    | H : _ \/ _ |- _ =>
        repeat (destruct H as [H|H];
                [try discriminate H; try (inversion H; subst)|]);
        try (now elim H);
        repeat match goal with d : Sqlite |- _ => destruct d end;
        reflexivity
    end.
Qed.







(** ** main.ts: intelligence events *)

(** X15. Relaying an intelligence event never throws and changes nothing.
    [assist_update] goes to the launcher window and then to the overlay
    window, whichever exist, and never to another window; every other event
    goes to the main window, once, and nowhere when there is no main window.
    All the messages of one event are the same. *)
Theorem intelligence_relay_targets (ev : Intelligence.Event) (ws : Windows) :
  let out := setupIntelligenceEvents ev ws in
  result out = Ok tt
  /\ state out = ws
  /\ recipients (trace out)
     = (if isAssistUpdate ev
        then toList (getLauncherWindow (getWindowHelper ws))
             ++ toList (getOverlayWindow (getWindowHelper ws))
        else toList (getMainWindow ws))
  /\ (forall m1 m2,
         In m1 (messages (trace out)) -> In m2 (messages (trace out)) ->
         m1 = m2).
Proof.
  destruct ws as [[b|] [[l|] [o|]]]; destruct ev; cbn;
    repeat split; try reflexivity; intros m1 m2 H1 H2;
    repeat (destruct H1 as [H1|H1]; [|]); repeat (destruct H2 as [H2|H2]; [|]);
    try (now elim H1); try (now elim H2); congruence.
Qed.

Lemma messages_allWindows (ev : Intelligence.Event) (ws : Windows)
    (m : string * option Obj) :
  In m (messages (trace (setupIntelligenceEvents ev ws))) ->
  In m (messages (trace (setupIntelligenceEvents ev allWindows))).
Proof.
  destruct ws as [[b|] [[l|] [o|]]]; destruct ev; cbn; tauto.
Qed.

(** X16. The channel of an intelligence event is its name with hyphens for
    underscores after the prefix [intelligence-], except for the two manual
    answer events, whose channels drop the word [answer]. *)
Theorem intelligence_channel_names (ev : Intelligence.Event) (ws : Windows)
    (channel : string) (payload : option Obj) :
  In (channel, payload) (messages (trace (setupIntelligenceEvents ev ws))) ->
  channel
  = match ev with
    | Intelligence.manual_answer_started => "intelligence-manual-started"
    | Intelligence.manual_answer_result _ _ => "intelligence-manual-result"
    | _ => ("intelligence-" ++ hyphenated (Intelligence.name ev))%string
    end.
Proof.
  intros H. apply messages_allWindows in H.
  destruct ev; cbn in H;
    repeat (destruct H as [H|H]; [injection H as <- _; reflexivity|]);
    now elim H.
Qed.

Lemma intelligence_channel_names_witness :
  In ("intelligence-follow-up-questions-token",
      Some [("token", VString "Wh")])
     (messages (trace (setupIntelligenceEvents
                         (Intelligence.follow_up_questions_token "Wh")
                         allWindows)))
  /\ "intelligence-follow-up-questions-token"
     = ("intelligence-"
        ++ hyphenated (Intelligence.name
                         (Intelligence.follow_up_questions_token "Wh")))%string.
Proof.
  assert (H : In ("intelligence-follow-up-questions-token",
                  Some [("token", VString "Wh")])
                (messages (trace (setupIntelligenceEvents
                                    (Intelligence.follow_up_questions_token
                                       "Wh") allWindows))))
    by (left; reflexivity).
  split; [exact H|].
  exact (intelligence_channel_names _ _ _ _ H).
Defined.

(** X17. A message identifies the event it relays: two events that put the
    same channel and payload on the wire are the same event with the same
    arguments, except that of an [Error] only the message is relayed. *)
Theorem intelligence_messages_identify_events (ev1 ev2 : Intelligence.Event)
    (ws1 ws2 : Windows) (m : string * option Obj) :
  In m (messages (trace (setupIntelligenceEvents ev1 ws1))) ->
  In m (messages (trace (setupIntelligenceEvents ev2 ws2))) ->
  sameUpToErrorDetails ev1 ev2.
Proof.
  intros H1 H2. apply messages_allWindows in H1, H2.
  destruct ev1; cbn in H1;
    repeat (destruct H1 as [H1|H1]; [subst m|]); try (now elim H1);
    destruct ev2; cbn in H2;
    repeat (destruct H2 as [H2|H2]; [try discriminate H2|]);
    try (now elim H2);
    inversion H2; subst;
    first [ now left
          | right; do 3 eexists; repeat split; congruence ].
Qed.

Lemma intelligence_messages_identify_events_witness :
  let e1 := {| error_name := "TypeError"; error_message := "no model" |} in
  let e2 := {| error_name := "RangeError"; error_message := "no model" |} in
  Intelligence.error e1 "assist" <> Intelligence.error e2 "assist"
  /\ sameUpToErrorDetails (Intelligence.error e1 "assist")
       (Intelligence.error e2 "assist").
Proof.
  split; [discriminate|].
  apply (intelligence_messages_identify_events _ _ allWindows allWindows
           ("intelligence-error",
            Some [("error", VString "no model"); ("mode", VString "assist")]));
    left; reflexivity.
Defined.

(** ** main.ts: the auto-updater *)

Lemma setupAutoUpdater_eq (env : Updater.Env) (u : Updater.t) :
  setupAutoUpdater env u
  = (Ok tt,
     {| Updater.autoDownload := true; Updater.autoInstallOnAppQuit := true;
        Updater.listening := Updater.listening u ++ updaterEvents;
        Updater.updateAvailable := Updater.updateAvailable u |},
     map Updater.On updaterEvents
     ++ (if inDevelopment env
         then [Updater.Log Info
                 "[AutoUpdater] Skipping automatic update check in development mode"]
         else Updater.CheckForUpdatesAndNotify
              :: match Updater.checkForUpdatesAndNotify env with
                 | Ok _ => []
                 | Throw _ =>
                     [Updater.Log Error
                        "[AutoUpdater] Failed to check for updates:"]
                 end)).
Proof.
  unfold setupAutoUpdater, Updater.on, bind, tell, modify, ret. cbn.
  rewrite <- !app_assoc. cbn.
  destruct (inDevelopment env); [reflexivity|].
  destruct (Updater.checkForUpdatesAndNotify env) as [[]|e]; reflexivity.
Qed.

(** X18. [setupAutoUpdater] never throws.  In every mode it turns on
    automatic download and installation on quit and registers the six
    listeners, leaving the [updateAvailable] flag as it was; it asks for an
    update check exactly when not in development mode, and a rejected check
    is logged once and changes nothing else. *)
Theorem setupAutoUpdater_outcome (env : Updater.Env) (u : Updater.t) :
  let out := setupAutoUpdater env u in
  result out = Ok tt
  /\ Updater.autoDownload (state out) = true
  /\ Updater.autoInstallOnAppQuit (state out) = true
  /\ Updater.updateAvailable (state out) = Updater.updateAvailable u
  /\ Updater.listening (state out) = Updater.listening u ++ updaterEvents
  /\ count isCheck (trace out) = b2n (negb (inDevelopment env))
  /\ count isUpdaterError (trace out)
     = b2n (negb (inDevelopment env)
            && throws (Updater.checkForUpdatesAndNotify env))
  /\ state out
     = state (setupAutoUpdater
                {| Updater.NODE_ENV := Some "development";
                   Updater.checkForUpdatesAndNotify := Ok tt |} u).
Proof.
  cbv zeta. rewrite !setupAutoUpdater_eq. unfold result, state, trace.
  cbn [fst snd]. repeat split.
  - rewrite count_app. destruct (inDevelopment env); [reflexivity|].
    destruct (Updater.checkForUpdatesAndNotify env); reflexivity.
  - rewrite count_app. destruct (inDevelopment env); [reflexivity|].
    destruct (Updater.checkForUpdatesAndNotify env); reflexivity.
Qed.

Lemma callListeners_app (win : option BrowserWindow) (ev : Updater.Event)
    (l1 l2 : list string) (u : Updater.t) :
  (forall n, In n l1 -> String.eqb n (Updater.name ev) = false) ->
  callListeners win ev (l1 ++ l2) u = callListeners win ev l2 u.
Proof.
  induction l1 as [|n l1 IH]; intros Hn; [reflexivity|].
  cbn [app callListeners]. unfold bind at 1.
  rewrite (Hn n (or_introl eq_refl)). cbn.
  rewrite IH by (intros n' Hn'; apply Hn; now right).
  now destruct (callListeners win ev l2 u) as [[r s] t].
Qed.

(** An event reaches the one listener registered for it. *)
Lemma emitUpdater_eq (win : option BrowserWindow) (ev : Updater.Event)
    (u : Updater.t) :
  Updater.listening u = updaterEvents ->
  emitUpdater win ev u = updaterListener win ev u.
Proof.
  intros Hl. unfold emitUpdater, bind at 1, get. rewrite Hl.
  destruct u as [ad ai ls ua]. destruct ev, win; reflexivity.
Qed.

Lemma updaterListener_listening (win : option BrowserWindow)
    (ev : Updater.Event) (u : Updater.t) :
  Updater.listening (state (updaterListener win ev u)) = Updater.listening u
  /\ Updater.updateAvailable (state (updaterListener win ev u))
     = (Updater.updateAvailable u || isUpdateAvailable ev).
Proof.
  destruct u as [ad ai ls ua]. destruct ev, win; cbn;
    rewrite ?orb_false_r, ?orb_true_r; split; reflexivity.
Qed.

Lemma runUpdater_flag (events : list (option BrowserWindow * Updater.Event))
    (u : Updater.t) :
  Updater.listening u = updaterEvents ->
  Updater.updateAvailable (fst (runUpdater events u))
  = (Updater.updateAvailable u
     || existsb (fun e => isUpdateAvailable (snd e)) events).
Proof.
  revert u. induction events as [|[win ev] rest IH]; intros u Hl.
  - cbn. now rewrite orb_false_r.
  - cbn [runUpdater fst existsb snd]. rewrite (emitUpdater_eq win ev u Hl).
    destruct (updaterListener_listening win ev u) as [Hl' Hu].
    rewrite IH by now rewrite Hl'. rewrite Hu. now rewrite orb_assoc.
Qed.

(** X19. The [updateAvailable] flag latches: after the setup, over any
    history of updater events, the flag is set exactly when an
    [update-available] event has occurred; no later event resets it, be it
    [update-not-available], [error] or [update-downloaded]. *)
Theorem updateAvailable_latches (env : Updater.Env)
    (events : list (option BrowserWindow * Updater.Event)) :
  Updater.updateAvailable
    (fst (runUpdater events (state (setupAutoUpdater env freshUpdater))))
  = existsb (fun e => isUpdateAvailable (snd e)) events.
Proof.
  rewrite runUpdater_flag; rewrite setupAutoUpdater_eq; reflexivity.
Qed.

(** X20. After the setup every updater event but [download-progress] is
    relayed once, to the main window of the moment, on a channel that begins
    with [update-]; nothing is relayed when there is no main window, and
    [download-progress] is only logged.  Of an error only the message is
    sent. *)
Theorem updater_relay (env : Updater.Env) (win : option BrowserWindow)
    (ev : Updater.Event) :
  let out := emitUpdater win ev (state (setupAutoUpdater env freshUpdater)) in
  result out = Ok tt
  /\ map fst (updaterRecipients (trace out))
     = (if isDownloadProgress ev then [] else toList win)
  /\ (forall b c, In (b, c) (updaterRecipients (trace out)) ->
                  String.prefix "update-" c = true)
  /\ (forall b c p err,
         ev = Updater.error err ->
         In (Updater.Send b c p) (trace out) ->
         c = "update-error" /\ p = Updater.Message (error_message err)).
Proof.
  cbv zeta. rewrite emitUpdater_eq by (rewrite setupAutoUpdater_eq; reflexivity).
  rewrite setupAutoUpdater_eq, state_triple.
  split; [now destruct ev, win|]. split; [now destruct ev, win|]. split.
  - intros b c H. destruct ev, win as [b0|]; cbn in H;
      repeat (destruct H as [H|H]; [injection H as <- <-; reflexivity|]);
      now elim H.
  - intros b c p err0 -> H. destruct win as [b0|]; cbn in H;
      repeat (destruct H as [H|H];
              [try discriminate H; injection H as <- <- <-; now split|]);
      now elim H.
Qed.

(** ** main.ts: screenshots *)

(** X21. A click on the tray entry never throws.  It sends one
    [screenshot-taken] message, with the path and the preview that the helper
    returned, exactly when a main window existed before the screenshot, both
    helper calls returned, and a main window exists after them; the message
    goes to the window found after them.  Without a main window at the start
    the helper is never called.  An error is logged exactly when the first
    check or a helper call fails; a window that has gone by the end is
    skipped in silence. *)
Theorem tray_screenshot_outcome (env : Screenshot.Env) (n : nat) :
  let out := trayTakeScreenshot env n in
  let shot := Screenshot.helper_takeScreenshot env in
  let ready :=
    isSome (Screenshot.mainWindowAt env n)
    && match shot with
       | Ok p => is_ok (Screenshot.helper_getImagePreview env p)
       | Throw _ => false
       end in
  result out = Ok tt
  /\ filter isScreenshotSend (trace out)
     = match Screenshot.mainWindowAt env n, shot,
             Screenshot.mainWindowAt env (S n) with
       | Some _, Ok p, Some b =>
           match Screenshot.helper_getImagePreview env p with
           | Ok v => [Screenshot.Send b "screenshot-taken" p v]
           | Throw _ => []
           end
       | _, _, _ => []
       end
  /\ (Screenshot.mainWindowAt env n = None ->
      count isHelperCall (trace out) = 0%nat)
  /\ count isScreenshotError (trace out) = b2n (negb ready)
  /\ count isScreenshotSend (trace out)
     = b2n (ready && isSome (Screenshot.mainWindowAt env (S n))).
Proof.
  cbv zeta.
  unfold trayTakeScreenshot, takeScreenshot, getImagePreview, readMainWindow,
    tryCatch, bind, get, modify, ret, throw, tell, liftRes, result, trace.
  destruct (Screenshot.mainWindowAt env n) as [b0|]; cbn;
    [|repeat split; reflexivity].
  destruct (Screenshot.helper_takeScreenshot env) as [p|e1]; cbn;
    [|repeat split; try reflexivity; discriminate].
  destruct (Screenshot.helper_getImagePreview env p) as [v|e2]; cbn;
    [|destruct (Screenshot.mainWindowAt env (S n));
      repeat split; try reflexivity; discriminate].
  destruct (Screenshot.mainWindowAt env (S n)) as [b1|]; cbn;
    repeat split; try reflexivity; discriminate.
Qed.

Lemma tray_screenshot_outcome_witness :
  Screenshot.mainWindowAt closingWindow 0 <> None
  /\ count isHelperCall (trace (trayTakeScreenshot closingWindow 0%nat))
     = 2%nat
  /\ count isScreenshotError (trace (trayTakeScreenshot closingWindow 0%nat))
     = 0%nat
  /\ count isScreenshotSend (trace (trayTakeScreenshot closingWindow 0%nat))
     = 0%nat.
Proof.
  split; [discriminate|]. split; [reflexivity|].
  destruct (tray_screenshot_outcome closingWindow 0) as [_ [_ [_ [He Hs]]]].
  split; [exact He|exact Hs].
Defined.

(** ** main.ts: the setup as a whole *)

(** X22. [setupSystemAudioPipeline] never throws and wires all or nothing.
    When the four constructors return, each capture gets its ['data'] and
    ['error'] listener and each stream its ['transcript'] and ['error']
    listener, in that order and nothing else.  When one of them throws, the
    failure is logged once and no listener is registered on any handle,
    although the handles constructed before the failure stay in their
    fields.  Nothing is started either way. *)
Theorem setup_all_or_nothing (env : Env) (rag : option RAGManager)
    (wh : WindowHelper) :
  let out := setupSystemAudioPipeline env (initialState rag wh) in
  result out = Ok tt
  /\ count isMainError (trace out) = b2n (negb (setupCompletes env))
  /\ count isStartEffect (trace out) = 0%nat
  /\ (if setupCompletes env
      then captureEmitters (state out)
           = (Some [("data", L_writeSTT SystemAudio);
                    ("error", L_logError "[Main] SystemAudioCapture Error:")],
              Some [("data", L_writeSTT Microphone);
                    ("error", L_logError "[Main] MicrophoneCapture Error:")])
           /\ sttEmitters (state out)
              = (Some [("transcript", L_transcript_interviewer);
                       ("error",
                        L_logError "[Main] GoogleSTT (Interviewer) Error:")],
                 Some [("transcript", L_transcript_user);
                       ("error", L_logError "[Main] GoogleSTT (User) Error:")])
      else bare (fst (captureEmitters (state out)))
           && bare (snd (captureEmitters (state out)))
           && bare (fst (sttEmitters (state out)))
           && bare (snd (sttEmitters (state out))) = true
           /\ isSome (systemAudioCapture (state out))
              = is_ok (SystemAudioCapture_ctor env None)).
Proof.
  destruct env as [rmc sctor gctor nowf stopm rec det proc].
  cbv zeta.
  unfold setupSystemAudioPipeline, SystemAudioCapture.new,
    MicrophoneCapture.new, GoogleSTT.new, setupCompletes.
  cbn [RustMicCapture SystemAudioCapture_ctor GoogleSTT_ctor or_undefined].
  destruct (sctor None) as [m|e];
    (destruct rmc as [c|]; [destruct (c None) as [m'|e']|]);
    destruct (gctor SystemAudio) as [[]|e1];
    destruct (gctor Microphone) as [[]|e2];
    lazy; repeat split; reflexivity.
Qed.

(** ** main.ts: when [startMeeting] is safe *)

Lemma keeps_micGuarded_mic {A} (env : Env)
    (m : M HEffect MicrophoneCapture.t A) :
  (forall h, MicrophoneCapture.emitter (state (m h))
             = MicrophoneCapture.emitter h) ->
  Keeps micGuarded (invoke env F_microphoneCapture m).
Proof.
  intros Hm w. unfold invoke.
  destruct (fget F_microphoneCapture w) as [h|] eqn:Hf; [|reflexivity].
  specialize (Hm h). destruct (m h) as [[res h'] es].
  pose proof (keeps_bind micGuarded
                (dispatch env (fwrap F_microphoneCapture) es)
                (fun _ => liftRes res)
                (keeps_dispatch micGuarded (fun _ => eq_refl) env _ es)
                (fun _ => keeps_liftRes micGuarded res)) as Hk.
  rewrite Hk. rewrite state_triple in Hm.
  destruct w; cbn in *; rewrite Hf; unfold micGuarded, listenerCount; cbn;
    now rewrite Hm.
Qed.

Ltac guarded_step :=
  first
    [ apply keeps_ret
    | apply keeps_tell
    | apply keeps_get
    | apply keeps_liftRes
    | apply keeps_bind; [|intros ?]
    | apply keeps_tryCatch; [|intros ?]
    | apply keeps_invoke_opt_of
    | apply keeps_micGuarded_mic; solve [auto with handles]
    | apply keeps_invoke; intros; reflexivity
    | match goal with
      | |- Keeps _ (match ?x with _ => _ end) => destruct x
      end ].

Lemma act_keeps_micGuarded (env : Env) (a : Action) :
  keepsDevices a = true -> Keeps micGuarded (act env a).
Proof.
  destruct a as [[[ttl [au|]]|]| |r' chunk|r' ev]; cbn [act keepsDevices];
    intros Hk; try discriminate Hk.
  - unfold startMeeting, log. cbn [audio]. repeat guarded_step.
  - unfold startMeeting, log. repeat guarded_step.
  - unfold endMeeting, processCompletedMeetingForRAG, log.
    repeat guarded_step.
  - unfold nativeChunk. destruct r'; repeat guarded_step.
  - unfold transcriptResult. destruct r'; repeat guarded_step.
Qed.

Lemma run_keeps_micGuarded (env : Env) (actions : list Action)
    (w : AppState) :
  forallb keepsDevices actions = true ->
  micGuarded (fst (run env actions w)) = micGuarded w.
Proof.
  revert w. induction actions as [|a rest IH]; intros w Hk; [reflexivity|].
  cbn [forallb] in Hk. apply andb_prop in Hk. destruct Hk as [Ha Hrest].
  cbn [run fst]. rewrite (IH _ Hrest). now apply act_keeps_micGuarded.
Qed.

Lemma sys_start_ok (h : SystemAudioCapture.t) :
  is_ok (result (SystemAudioCapture.start h)) = true.
Proof. destruct (sys_start_eq h) as [t [Heq _]]. now rewrite Heq. Qed.

Lemma stt_start_ok (h : GoogleSTT.t) :
  is_ok (result (GoogleSTT.start h)) = true.
Proof. unfold GoogleSTT.start, bind, get. now destruct (GoogleSTT.st h). Qed.

Lemma mic_start_guarded_ok (h : MicrophoneCapture.t) :
  Nat.eqb (listenerCount "error" h) 0 = false ->
  result (MicrophoneCapture.start h) = Ok tt.
Proof.
  intros Hg.
  destruct (mic_start_cases h)
    as [[-> Hr]|[[-> [Hr Hm]]|[[m [-> [Hr [Hm Hs]]]]|[m [e [-> [Hr [Hm Hs]]]]]]]];
    try reflexivity.
  unfold result. cbn [fst]. now rewrite Hg.
Qed.

(** The four start calls of [startMeeting] return when the microphone
    capture is guarded. *)
Lemma starts_ok (env : Env) (w : AppState) :
  micGuarded w = true ->
  result ((invoke_opt env F_systemAudioCapture SystemAudioCapture.start ;;
           invoke_opt env (F_stt SystemAudio) GoogleSTT.start ;;
           invoke_opt env F_microphoneCapture MicrophoneCapture.start ;;
           invoke_opt env (F_stt Microphone) GoogleSTT.start) w) = Ok tt.
Proof.
  intros Hg.
  rewrite (bind_ok _ _ _ _ _ _
             (invoke_opt_total env F_systemAudioCapture _ w
                quiet_sys_start sys_start_ok)).
  unfold result at 1. cbn [fst].
  rewrite (bind_ok _ _ _ _ _ _
             (invoke_opt_total env (F_stt SystemAudio) _ _
                quiet_stt_start stt_start_ok)).
  unfold result at 1. cbn [fst].
  set (w2 := applyTo (F_stt SystemAudio) _ (applyTo F_systemAudioCapture _ w)).
  assert (Hmic : microphoneCapture w2 = microphoneCapture w).
  { unfold w2.
    rewrite (fget_applyTo_other F_microphoneCapture (F_stt SystemAudio))
      by reflexivity.
    now rewrite (fget_applyTo_other F_microphoneCapture F_systemAudioCapture)
      by reflexivity. }
  assert (Hok : invoke_opt env F_microphoneCapture MicrophoneCapture.start w2
                = (Ok tt,
                   applyTo F_microphoneCapture
                     (fun h => state (MicrophoneCapture.start h)) w2,
                   handleTrace F_microphoneCapture MicrophoneCapture.start
                     w2)).
  { rewrite (invoke_opt_quiet env F_microphoneCapture _ w2 quiet_mic_start).
    unfold handleTrace. cbn [fget F_microphoneCapture]. rewrite Hmic.
    unfold micGuarded in Hg.
    destruct (microphoneCapture w) as [h|]; [|reflexivity].
    rewrite mic_start_guarded_ok; [reflexivity|].
    now destruct (Nat.eqb (listenerCount "error" h) 0). }
  rewrite (bind_ok _ _ _ _ _ _ Hok).
  unfold result at 1. cbn [fst].
  rewrite (invoke_opt_total env (F_stt Microphone) _ _
             quiet_stt_start stt_start_ok).
  reflexivity.
Qed.

Lemma setup_micGuarded (env : Env) (rag : option RAGManager)
    (wh : WindowHelper) :
  setupCompletes env = true ->
  micGuarded (state (setupSystemAudioPipeline env (initialState rag wh)))
  = true.
Proof.
  destruct env as [rmc sctor gctor nowf stopm rec det proc].
  unfold setupSystemAudioPipeline, SystemAudioCapture.new,
    MicrophoneCapture.new, GoogleSTT.new, setupCompletes.
  cbn [RustMicCapture SystemAudioCapture_ctor GoogleSTT_ctor or_undefined].
  destruct (sctor None) as [m|e];
    (destruct rmc as [c|]; [destruct (c None) as [m'|e']|]);
    destruct (gctor SystemAudio) as [[]|e1];
    destruct (gctor Microphone) as [[]|e2];
    intros Hc; first [discriminate Hc|reflexivity].
Qed.

Lemma startMeeting_plain_ok (env : Env) (md : option Metadata)
    (w : AppState) :
  keepsDevices (AStartMeeting md) = true ->
  micGuarded w = true ->
  result (startMeeting env md w) = Ok tt.
Proof.
  intros Hk Hg. unfold startMeeting, log.
  rewrite (bind_ok _ _ w w tt [ELog Info "[Main] Starting Meeting..."]
             eq_refl).
  unfold result at 1. cbn [fst].
  destruct md as [[ttl [au|]]|]; try discriminate Hk; cbn [audio].
  - rewrite (bind_ok _ _ w w tt
               [ESetMeetingMetadata {| title := ttl; audio := None |}]
               eq_refl).
    unfold result at 1. cbn [fst]. now apply starts_ok.
  - rewrite (bind_ok _ _ w w tt [] eq_refl).
    unfold result at 1. cbn [fst]. now apply starts_ok.
Qed.

(** X23. After a setup in which the four constructors returned, a meeting
    started without audio preferences (no metadata, or metadata without
    [audio], as from a calendar notification) always returns normally,
    whatever happened before short of a device reconfiguration, and also
    when the native microphone fails to start: the failure reaches the
    ['error'] listener that the setup registered. *)
Theorem startMeeting_returns_after_complete_setup (env : Env)
    (rag : option RAGManager) (wh : WindowHelper) (actions : list Action)
    (md : option Metadata) :
  setupCompletes env = true ->
  forallb keepsDevices actions = true ->
  keepsDevices (AStartMeeting md) = true ->
  result (startMeeting env md
            (fst (run env actions
                    (state (setupSystemAudioPipeline env
                              (initialState rag wh)))))) = Ok tt.
Proof.
  intros Hc Ha Hmd. apply startMeeting_plain_ok; [exact Hmd|].
  rewrite (run_keeps_micGuarded env actions _ Ha).
  now apply setup_micGuarded.
Qed.

Lemma startMeeting_returns_after_complete_setup_witness :
  let w := fst (run deafEnv
                  [AStartMeeting None; ANativeChunk Microphone None;
                   AEndMeeting]
                  (state (setupSystemAudioPipeline deafEnv
                            (initialState None sampleWindows)))) in
  result (startMeeting deafEnv (Some (fromCalendar "Weekly sync")) w) = Ok tt
  /\ count isMainError
       (trace (startMeeting deafEnv (Some (fromCalendar "Weekly sync")) w))
     = 1%nat.
Proof.
  split; [|reflexivity].
  exact (startMeeting_returns_after_complete_setup deafEnv None sampleWindows
           [AStartMeeting None; ANativeChunk Microphone None; AEndMeeting]
           (Some (fromCalendar "Weekly sync")) eq_refl eq_refl eq_refl).
Defined.

(** ** main.ts: a reconfiguration releases the microphone *)

Lemma count_quietTrace (p : Effect -> bool) (wrap : HEffect -> Effect)
    (es : list HEffect) :
  (forall l s, p (ELog l s) = false) ->
  count p (quietTrace wrap es) = count (fun e => p (wrap e)) es.
Proof.
  intros Hl. unfold count. induction es as [|e es IH]; [reflexivity|].
  cbn [quietTrace flat_map]. change (?a :: ?b ++ ?c) with ([a] ++ b ++ c).
  rewrite !filter_app, !length_app. fold (quietTrace wrap es). rewrite IH.
  cbn [filter]. destruct (p (wrap e)); cbn [List.length app];
    destruct e as [| | | | |[] q]; cbn; rewrite ?Hl; reflexivity.
Qed.

Lemma discardMicrophone_stops (w : AppState) :
  count isMicNativeStop
    (handleTrace F_microphoneCapture MicrophoneCapture.stop w)
  = b2n (micRunning w).
Proof.
  unfold handleTrace, micRunning. cbn [fget F_microphoneCapture].
  destruct (microphoneCapture w) as [h|]; [|reflexivity].
  rewrite count_quietTrace by reflexivity.
  destruct (MicrophoneCapture.isRecording h) eqn:Hr.
  - rewrite (mic_stop_recording h Hr), trace_triple.
    rewrite count_stopTrace by reflexivity.
    now destruct (MicrophoneCapture.monitor h).
  - now rewrite (mic_stop_idle h Hr).
Qed.

Lemma installMicrophone_fresh (env : Env) (i : option string)
    (w : AppState) :
  let out := installMicrophone env i (set_microphoneCapture None w) in
  count isMicNativeStop (trace out) = 0%nat /\ micIdle (state out) = true.
Proof.
  destruct env as [rmc sctor gctor nowf stopm rec det proc].
  destruct w as [sa mc g1 g2 rag wh ck].
  unfold installMicrophone, MicrophoneCapture.new.
  cbn [RustMicCapture or_undefined]. rewrite !or_undefined_idem.
  generalize (or_undefined i). intros d.
  destruct rmc as [c|].
  - destruct (c d) as [[[r1|x1] st1 sp1]|e1];
      destruct (c None) as [[[r2|x2] st2 sp2]|e2];
      destruct g2 as [s|]; installed.
  - destruct g2 as [s|]; installed.
Qed.

Lemma installSystemAudio_beside_mic (env : Env) (o : option string)
    (w : AppState) :
  count isMicNativeStop
    (trace (installSystemAudio env o (set_systemAudioCapture None w)))
  = 0%nat.
Proof.
  destruct env as [rmc sctor gctor nowf stopm rec det proc].
  destruct w as [sa mc g1 g2 rag wh ck].
  unfold installSystemAudio, SystemAudioCapture.new.
  cbn [SystemAudioCapture_ctor].
  generalize (or_undefined o). intros d.
  destruct (sctor d) as [[[[r1|x1] st1 sp1]|]|e1];
    destruct (sctor None) as [[[[r2|x2] st2 sp2]|]|e2];
    destruct g1 as [s|]; installed.
Qed.

Lemma discardSystemAudio_beside_mic (w : AppState) :
  count isMicNativeStop
    (handleTrace F_systemAudioCapture SystemAudioCapture.stop w) = 0%nat.
Proof.
  unfold handleTrace. destruct (fget F_systemAudioCapture w) as [h|];
    [|reflexivity].
  rewrite count_quietTrace by reflexivity. unfold count.
  rewrite filter_none; [reflexivity|].
  apply forallb_forall. intros e _. reflexivity.
Qed.

(** X24. A reconfiguration releases the old microphone and never leaves a
    capture running on it: the native stop of the microphone is called
    exactly once when the old capture was recording on a monitor and not at
    all otherwise, whether or not a new capture can be constructed, and the
    microphone capture that the reconfiguration leaves, if any, is idle. *)
Theorem reconfigureAudio_releases_microphone (env : Env)
    (i o : option string) (w : AppState) :
  count isMicNativeStop (trace (reconfigureAudio env i o w))
  = b2n (micRunning w)
  /\ micIdle (state (reconfigureAudio env i o w)) = true.
Proof.
  rewrite reconfigureAudio_eq, state_triple, trace_triple.
  destruct (installSystemAudio_spec env o w) as [_ [_ [Hmic _]]].
  cbv zeta in Hmic.
  destruct (installMicrophone_fresh env i
              (state (installSystemAudio env o
                        (set_systemAudioCapture None w)))) as [Hn Hidle].
  split; [|exact Hidle].
  change (ELog Info "[Main] Reconfiguring Audio:" :: ?l)
    with ([ELog Info "[Main] Reconfiguring Audio:"] ++ l).
  rewrite !count_app, Hn, installSystemAudio_beside_mic,
    discardSystemAudio_beside_mic, discardMicrophone_stops.
  unfold micRunning. rewrite Hmic. cbn. lia.
Qed.

Lemma reconfigureAudio_releases_microphone_witness :
  micRunning runningPipeline = true
  /\ count isMicNativeStop
       (trace (reconfigureAudio noInputEnv (Some "mic-2") None
                 runningPipeline)) = 1%nat
  /\ microphoneCapture
       (state (reconfigureAudio noInputEnv (Some "mic-2") None
                 runningPipeline)) = None.
Proof.
  split; [reflexivity|]. split; [|reflexivity].
  exact (proj1 (reconfigureAudio_releases_microphone noInputEnv
                  (Some "mic-2") None runningPipeline)).
Defined.
